(** * Coordination layer of the multi-instance iframe extractor

    Shallow embedding of the coordination and resource-management code of
    [src/anime_index/v.py] and [src/anime_index/ser.py] (two standalone
    variants of the same extractor) and of the worker loop of
    [src/allanime.py]:

    - [Coordinator]: [InstanceCoordinator], lock markers in the
      coordination directory with a 600 second staleness expiry;
    - [Pool]: the browsers and their tab free lists
      ([init_browsers], [get_available_tab], [release_tab]);
    - [Wave]: the cooperative tasks of one batch competing for tabs;
    - [Progress]: [GlobalProgress] of ser.py;
    - [V] and [Ser]: [process_episode_batch] and [process_file] of the two
      variants, over a world made of the lock directory, the work-item
      files and an event trace;
    - [Worker]: the scan loop of [run_instance] / [worker_instance].

    Times are integers (seconds); the extraction of one page and the faults
    of the environment are oracles the theorems quantify over. *)

From Stdlib Require Import ZArith Lia Ascii String.
From stdpp Require Import base tactics option list gmap strings fin_maps.

Local Open Scope string_scope.
Local Open Scope Z_scope.
Local Open Scope list_scope.

(** ** Paths and file names *)

Module Path.

(** ['/' in s] *)
Fixpoint has_slash (s : string) : bool :=
  match s with
  | EmptyString => false
  | String c r => bool_decide (c = "/"%char) || has_slash r
  end.

(** [s.endswith('/')] *)
Fixpoint ends_with_slash (s : string) : bool :=
  match s with
  | EmptyString => false
  | String c EmptyString => bool_decide (c = "/"%char)
  | String _ r => ends_with_slash r
  end.

(** [s.startswith(p)] *)
Definition startswith (p s : string) : bool := String.prefix p s.

(** [s.endswith(p)] *)
Definition endswith (p s : string) : bool :=
  String.prefix (String.rev p) (String.rev s).

(** [os.path.basename(p)]: what follows the last slash. *)
Fixpoint basename (p : string) : string :=
  match p with
  | EmptyString => EmptyString
  | String c r =>
      if has_slash r then basename r
      else if bool_decide (c = "/"%char) then r else p
  end.

(** [os.path.join(a, b)] (POSIX). *)
Definition join (a b : string) : string :=
  if startswith "/" b then b
  else if bool_decide (a = "") || ends_with_slash a then a +:+ b
  else a +:+ "/" +:+ b.

End Path.

(** ** InstanceCoordinator *)

Module Coordinator.
Import Path.

(** A lock marker: the file content (the holder's instance id) and the
    modification time of the marker file. *)
Record Marker := { holder : string; mtime : Z }.

(** The coordination directory: marker file name to marker. *)
Abbreviation LockStore := (gmap string Marker).

(** [f"{os.path.basename(file_path)}.lock"] *)
Definition lock_name (file_path : string) : string :=
  basename file_path +:+ ".lock".

(** [is_file_being_processed]: [now] is the reading of [time.time()]. A
    marker older than 600 is removed and the file reported free. *)
Definition is_file_being_processed (now : Z) (file_path : string)
    (locks : LockStore) : bool * LockStore :=
  match locks !! lock_name file_path with
  | Some m =>
      if bool_decide (now - mtime m > 600)
      then (false, delete (lock_name file_path) locks)
      else (true, locks)
  | None => (false, locks)
  end.

(** [lock_file]: (over)writes the marker, no check for a competing one. *)
Definition lock_file (now : Z) (instance_id file_path : string)
    (locks : LockStore) : LockStore :=
  <[lock_name file_path := {| holder := instance_id; mtime := now |}]> locks.

(** [unlock_file]: removes the marker if it exists. *)
Definition unlock_file (file_path : string) (locks : LockStore) : LockStore :=
  match locks !! lock_name file_path with
  | Some _ => delete (lock_name file_path) locks
  | None => locks
  end.

(** The name filter of [get_available_files]. *)
Definition is_anime_json (f : string) : bool :=
  startswith "anime_" f && endswith ".json" f.

(** The loop of [get_available_files] over [json_files]; [clock k] is the
    time at which the [k]-th file is examined. *)
Fixpoint scan_files (clock : nat → Z) (k : nat) (directory : string)
    (json_files : list string) (locks : LockStore) : list string * LockStore :=
  match json_files with
  | [] => ([], locks)
  | json_file :: rest =>
      let file_path := join directory json_file in
      let '(busy, locks1) := is_file_being_processed (clock k) file_path locks in
      let '(available_files, locks2) := scan_files clock (S k) directory rest locks1 in
      (if busy then available_files else file_path :: available_files, locks2)
  end.

(** [get_available_files]; [listing] is [os.listdir(directory)]. *)
Definition get_available_files (clock : nat → Z) (directory : string)
    (listing : list string) (locks : LockStore) : list string * LockStore :=
  scan_files clock 0 directory (filter (λ f, is_anime_json f = true) listing) locks.

(** A marker is live at [now] when it exists and is at most 600 old. *)
Definition live_lock (now : Z) (file_path : string) (locks : LockStore) : bool :=
  match locks !! lock_name file_path with
  | Some m => bool_decide (now - mtime m ≤ 600)
  | None => false
  end.

End Coordinator.

(** ** The browser and tab pool *)

Module Pool.

(** A tab (a Playwright page) is identified by the browser it was created
    in and its creation index there: [init_browsers] creates each page once. *)
Definition Tab : Type := nat * nat.

(** One entry of [self.browsers]: the counter ['tabs_available'] and the
    free list ['tabs']. A [browser_info] reference is the index of the entry
    in [self.browsers]. *)
Record BrowserInfo := { tabs_available : Z; tabs : list Tab }.

(** [init_browsers]: [launch_ok i] tells whether the [i]-th launch succeeds,
    [tab_ok b t] whether the [t]-th page of the [b]-th launched browser is
    created; a failure is logged and skipped. The counter is set to
    [max_tabs_per_browser] whatever the number of pages created. *)
Definition init_browsers (max_browsers max_tabs_per_browser : Z)
    (launch_ok : nat → bool) (tab_ok : nat → nat → bool) : list BrowserInfo :=
  imap (λ browser_idx _,
          {| tabs_available := max_tabs_per_browser;
             tabs := (λ tab_idx, (browser_idx, tab_idx)) <$>
                       filter (λ tab_idx, tab_ok browser_idx tab_idx = true)
                              (seq 0 (Z.to_nat max_tabs_per_browser)) |})
       (filter (λ i, launch_ok i = true) (seq 0 (Z.to_nat max_browsers))).

(** The [for browser_info in self.browsers] scan of [get_available_tab],
    started at entry [idx]: the first entry with a positive counter and a
    non-empty free list gives its head tab. *)
Fixpoint scan_browsers (idx : nat) (browsers : list BrowserInfo)
    : option (Tab * nat) * list BrowserInfo :=
  match browsers with
  | [] => (None, [])
  | browser_info :: rest =>
      match bool_decide (tabs_available browser_info > 0), tabs browser_info with
      | true, tab :: free =>
          (Some (tab, idx),
           {| tabs_available := tabs_available browser_info - 1; tabs := free |} :: rest)
      | _, _ =>
          let '(found, rest') := scan_browsers (S idx) rest in
          (found, browser_info :: rest')
      end
  end.

(** ser.py [get_available_tab], and one turn of the [while True] loop of
    v.py [get_available_tab]: [None] is ser.py's [(None, None)] and v.py's
    [await asyncio.sleep(0.5)] before the next turn. *)
Definition get_available_tab (browsers : list BrowserInfo)
    : option (Tab * nat) * list BrowserInfo :=
  scan_browsers 0 browsers.

(** [release_tab]: unconditional append and increment. *)
Definition release_tab (tab : Tab) (browser_info : nat)
    (browsers : list BrowserInfo) : list BrowserInfo :=
  alter (λ b, {| tabs_available := tabs_available b + 1; tabs := tabs b ++ [tab] |})
        browser_info browsers.

(** The tabs of all free lists. *)
Definition free_tabs (browsers : list BrowserInfo) : list Tab :=
  concat (tabs <$> browsers).

Definition free_count (browsers : list BrowserInfo) : nat :=
  length (free_tabs browsers).

(** The pool together with the tabs its callers hold: what
    [process_single_episode] keeps in [tab, browser_info] between
    [get_available_tab] and the [release_tab] of its [finally]. *)
Record PoolState := {
  browsers : list BrowserInfo;
  checked_out : list (Tab * nat)
}.

Inductive Call :=
  | Acquire
  | Release (tab : Tab) (browser_info : nat).

Fixpoint remove_one (x : Tab * nat) (l : list (Tab * nat)) : list (Tab * nat) :=
  match l with
  | [] => []
  | y :: l' => if decide (x = y) then l' else y :: remove_one x l'
  end.

Definition call (c : Call) (s : PoolState) : PoolState :=
  match c with
  | Acquire =>
      match get_available_tab (browsers s) with
      | (Some held, browsers') =>
          {| browsers := browsers'; checked_out := held :: checked_out s |}
      | (None, browsers') =>
          {| browsers := browsers'; checked_out := checked_out s |}
      end
  | Release tab browser_info =>
      {| browsers := release_tab tab browser_info (browsers s);
         checked_out := remove_one (tab, browser_info) (checked_out s) |}
  end.

(** A sequence of calls as the code makes them: a release gives back a tab
    that is checked out, to the [browser_info] it was acquired from. *)
Fixpoint well_paired (calls : list Call) (s : PoolState) : bool :=
  match calls with
  | [] => true
  | c :: rest =>
      match c with
      | Acquire => true
      | Release tab browser_info => bool_decide ((tab, browser_info) ∈ checked_out s)
      end && well_paired rest (call c s)
  end.

Definition run (calls : list Call) (s : PoolState) : PoolState :=
  foldl (λ s c, call c s) s calls.

Definition all_tabs (s : PoolState) : list Tab :=
  free_tabs (browsers s) ++ (checked_out s).*1.

End Pool.

(** ** The tasks of one batch competing for tabs *)

Module Wave.
Import Pool.

(** A [process_single_episode] task: waiting for a tab (in the loop of
    v.py [get_available_tab], or in ser.py's sleep-and-retry), holding one
    for [remaining] more turns of extraction, or finished. *)
Inductive Task :=
  | Waiting
  | Holding (tab : Tab) (browser_info : nat) (remaining : nat)
  | Done.

Record System := { pool : list BrowserInfo; tasks : list Task }.

(** The event loop resumes task [i] for one turn. [work i] is the number
    of turns the extraction of task [i] takes before its [finally]
    releases the tab. *)
Definition resume (work : nat → nat) (i : nat) (s : System) : System :=
  match tasks s !! i with
  | Some Waiting =>
      match get_available_tab (pool s) with
      | (Some (tab, browser_info), pool') =>
          {| pool := pool'; tasks := <[i := Holding tab browser_info (work i)]> (tasks s) |}
      | (None, _) => s
      end
  | Some (Holding tab browser_info (S n)) =>
      {| pool := pool s; tasks := <[i := Holding tab browser_info n]> (tasks s) |}
  | Some (Holding tab browser_info O) =>
      {| pool := release_tab tab browser_info (pool s); tasks := <[i := Done]> (tasks s) |}
  | Some Done => s
  | None => s
  end.

Definition run_schedule (work : nat → nat) (schedule : list nat) (s : System) : System :=
  foldl (λ s i, resume work i s) s schedule.

(** The batch at its start: every task is waiting. *)
Definition start (browsers : list BrowserInfo) (n : nat) : System :=
  {| pool := browsers; tasks := replicate n Waiting |}.

(** A schedule made of rounds; in a fair round every task gets a turn. *)
Definition fair_round (n : nat) (round : list nat) : Prop :=
  ∀ i, (i < n)%nat → i ∈ round.

Definition is_done (t : Task) : bool :=
  match t with Done => true | _ => false end.

(** Turns still owed by a task: the poll that succeeds, the extraction, the
    release. *)
Definition owed (work : nat → nat) (i : nat) (t : Task) : nat :=
  match t with
  | Waiting => work i + 2
  | Holding _ _ n => n + 1
  | Done => 0
  end.

Fixpoint owed_from (work : nat → nat) (k : nat) (ts : list Task) : nat :=
  match ts with
  | [] => 0
  | t :: rest => owed work k t + owed_from work (S k) rest
  end.

Definition total_owed (work : nat → nat) (s : System) : nat :=
  owed_from work 0 (tasks s).

Definition is_holding (t : Task) : bool :=
  match t with Holding _ _ _ => true | _ => false end.

(** Tabs in the free lists plus tabs held by tasks. *)
Definition tabs_in_play (s : System) : nat :=
  (free_count (pool s) + length (filter (λ t, is_holding t = true) (tasks s)))%nat.

End Wave.

(** ** GlobalProgress (ser.py) *)

Module Progress.

Record GlobalProgress := {
  completed_files : gset string;
  currently_processing : gmap string string;
  total_files : Z;
  total_episodes : Z;
  completed_episodes : Z
}.

Definition mark_file_started (file_path instance_id : string)
    (g : GlobalProgress) : GlobalProgress :=
  {| completed_files := completed_files g;
     currently_processing := <[file_path := instance_id]> (currently_processing g);
     total_files := total_files g;
     total_episodes := total_episodes g;
     completed_episodes := completed_episodes g |}.

Definition mark_file_completed (file_path : string)
    (g : GlobalProgress) : GlobalProgress :=
  {| completed_files := {[file_path]} ∪ completed_files g;
     currently_processing :=
       match currently_processing g !! file_path with
       | Some _ => delete file_path (currently_processing g)
       | None => currently_processing g
       end;
     total_files := total_files g;
     total_episodes := total_episodes g;
     completed_episodes := completed_episodes g |}.

Definition increment_completed_episodes (count : Z)
    (g : GlobalProgress) : GlobalProgress :=
  {| completed_files := completed_files g;
     currently_processing := currently_processing g;
     total_files := total_files g;
     total_episodes := total_episodes g;
     completed_episodes := completed_episodes g + count |}.

(** The ['remaining'] entry of [get_status]. *)
Definition remaining (g : GlobalProgress) : Z :=
  total_files g - Z.of_nat (size (completed_files g))
              - Z.of_nat (size (currently_processing g)).

End Progress.

(** ** Results, exceptions and [try] / [except] / [finally] *)

Module Exec.

(** How a piece of code ends: with a value, with an exception of class
    [Exception], with [asyncio.CancelledError] (a [BaseException], which
    [except Exception] lets through), or never ([Hang]). *)
Inductive Res (A : Type) :=
  | Val (a : A)
  | Exc (msg : string)
  | Cancelled
  | Hang.
Arguments Val {A} a.
Arguments Exc {A} msg.
Arguments Cancelled {A}.
Arguments Hang {A}.

Definition M (S A : Type) : Type := S → Res A * S.

Definition ret {S A : Type} (a : A) : M S A := λ s, (Val a, s).

Definition bind {S A B : Type} (c : M S A) (k : A → M S B) : M S B :=
  λ s, match c s with
       | (Val a, s') => k a s'
       | (Exc msg, s') => (Exc msg, s')
       | (Cancelled, s') => (Cancelled, s')
       | (Hang, s') => (Hang, s')
       end.

Definition raise {S A : Type} (msg : string) : M S A := λ s, (Exc msg, s).

Definition gets {S A : Type} (f : S → A) : M S A := λ s, (Val (f s), s).

Definition modify {S : Type} (f : S → S) : M S unit := λ s, (Val tt, f s).

(** [try: body except Exception as e: handler e] *)
Definition try_except {S A : Type} (body : M S A) (handler : string → M S A) : M S A :=
  λ s, match body s with
       | (Exc msg, s') => handler msg s'
       | r => r
       end.

(** [try: body finally: final]. The [finally] clause runs however the
    body ends, and only when it ends. *)
Definition try_finally {S A : Type} (body : M S A) (final : M S unit) : M S A :=
  λ s, match body s with
       | (Hang, s') => (Hang, s')
       | (r, s') =>
           match final s' with
           | (Val _, s'') => (r, s'')
           | (Exc msg, s'') => (Exc msg, s'')
           | (Cancelled, s'') => (Cancelled, s'')
           | (Hang, s'') => (Hang, s'')
           end
       end.

(** [asyncio.gather] with [return_exceptions=True], the tasks run
    to completion one after the other: the result of a task is its value or
    the exception it raised. *)
Fixpoint gather {S A : Type} (tasks : list (M S A)) : M S (list (A + string)) :=
  match tasks with
  | [] => ret []
  | task :: rest =>
      λ s, match task s with
           | (Val a, s') => bind (gather rest) (λ rs, ret (inl a :: rs)) s'
           | (Exc msg, s') => bind (gather rest) (λ rs, ret (inr msg :: rs)) s'
           | (Cancelled, s') => (Cancelled, s')
           | (Hang, s') => (Hang, s')
           end
  end.

End Exec.

Notation "'let*' x ':=' c 'in' k" := (Exec.bind c (λ x, k))
  (at level 10, x name, c at level 100, k at level 200).
Notation "c ';;;' k" := (Exec.bind c (λ _, k))
  (at level 100, k at level 200, right associativity).

(** ** Work items *)

Module Json.

(** An episode object: [episode.get('url')], [episode.get('iframe_url')];
    [None] is a missing key or a JSON null. *)
Record Episode := { url : option string; iframe_url : option string }.

Global Instance Episode_eq_dec : EqDecision Episode.
Proof. solve_decision. Defined.

(** Python truth of such a value: neither [None] nor the empty string. *)
Definition truthy (v : option string) : bool :=
  match v with
  | Some s => negb (bool_decide (s = ""))
  | None => false
  end.

(** The file content: [data['anime'][a]['episodes'][e]]. *)
Abbreviation Data := (list (list Episode)).

(** The object graph [json.loads] builds: the episode dicts live in
    [heap], the ['episodes'] lists hold references to them. *)
Record Loaded := { heap : list Episode; anime : list (list nat) }.

Fixpoint number (start : nat) (d : Data) : list (list nat) :=
  match d with
  | [] => []
  | episodes :: rest =>
      seq start (length episodes) :: number (start + length episodes) rest
  end.

(** [json.loads(content)]: every episode is a fresh dict. *)
Definition load (d : Data) : Loaded :=
  {| heap := concat d; anime := number 0 d |}.

(** [json.dumps(data)] *)
Definition dump (m : Loaded) : Data :=
  (λ episodes : list nat, omap (λ r, heap m !! r) episodes) <$> anime m.

Definition no_episode : Episode := {| url := None; iframe_url := None |}.

Definition deref (m : Loaded) (r : nat) : Episode :=
  default no_episode (heap m !! r).

(** [episode['iframe_url'] = v] on the dict behind reference [r]. *)
Definition set_iframe_url (r : nat) (v : option string) (m : Loaded) : Loaded :=
  {| heap := alter (λ e, {| url := url e; iframe_url := v |}) r (heap m);
     anime := anime m |}.

(** The episodes [process_file] collects: those without a truthy
    ['iframe_url'], in file order. *)
Definition pending (m : Loaded) : list nat :=
  filter (λ r, truthy (iframe_url (deref m r)) = false) (concat (anime m)).

Definition pending_of (d : Data) : list Episode :=
  filter (λ e, truthy (iframe_url e) = false) (concat d).

End Json.

(** ** Batches *)

Module Batch.

(** [range(i, stop, step)] for a positive [step]. *)
Fixpoint range_from (fuel i stop step : nat) : list nat :=
  match fuel with
  | O => []
  | S fuel' => if bool_decide (i < stop)%nat
               then i :: range_from fuel' (i + step) stop step
               else []
  end.

(** [range(0, stop, step)]; empty for a negative step ([step = 0] raises
    before the loop). *)
Definition py_range (stop : nat) (step : Z) : list nat :=
  if bool_decide (0 < step) then range_from stop 0 stop (Z.to_nat step) else [].

(** [l[i:i + batch_size]] *)
Definition slice {A : Type} (l : list A) (i : nat) (batch_size : Z) : list A :=
  take (Z.to_nat batch_size) (drop i l).

(** The batches [for i in range(0, len(l), batch_size): batch = l[i:i+batch_size]]
    goes through. *)
Definition waves {A : Type} (l : list A) (batch_size : Z) : list (list A) :=
  (λ i, slice l i batch_size) <$> py_range (length l) batch_size.

End Batch.

(** ** The state the extractor works on *)

Module Runtime.
Import Exec Json.

(** [FailureLogger.log_failure]'s entry. *)
Record FailureRecord := { timestamp : Z; reason : string; episode : Episode }.

(** What the run does to the outside, in order. *)
Inductive Event :=
  | EvExtract (url : string)
  | EvWrite (file_path : string) (d : Data)
  | EvFailure (entry : FailureRecord).

(** ser.py [current_file_progress] *)
Record FileProgress := {
  file_name : string;
  total_episodes : Z;
  processed : Z;
  skipped : Z;
  remaining : Z
}.

(** The environment: what one page yields to the finders of
    [extract_iframe_url] ([Found], nothing, or an exception), an exception
    raised in a task outside [extract_iframe_url], a failing write, a
    cancellation delivered at the [gather] of a batch, and the clock. Each is
    asked with the current [tick]. *)
Inductive Page := Found (s : string) | NotFound | Error (msg : string).

Record Env := {
  page : nat → string → Page;
  task_fault : nat → option string;
  write_fault : nat → bool;
  cancel : nat → bool;
  time : nat → Z
}.

(** The attributes of an extractor that never change. *)
Record Config := {
  instance_id : string;
  coordinator_id : string;
  max_browsers : Z;
  max_tabs_per_browser : Z;
  failure_logger : bool
}.

(** The coordination directory, the work-item files ([None]: not valid
    JSON), the trace, the pool and counters of the instance, the shared
    [GlobalProgress] (ser.py), and [data], the local of [process_file]. *)
Record State := {
  locks : Coordinator.LockStore;
  files : gmap string (option Data);
  trace : list Event;
  tick : nat;
  browsers : list Pool.BrowserInfo;
  processed_count : Z;
  error_count : Z;
  files_processed_count : Z;
  global_progress : option Progress.GlobalProgress;
  current_file : option string;
  current_file_progress : FileProgress;
  data : Loaded
}.

Definition set_locks (f : Coordinator.LockStore → Coordinator.LockStore) (s : State) : State :=
  {| locks := f (locks s);
     files := files s;
     trace := trace s;
     tick := tick s;
     browsers := browsers s;
     processed_count := processed_count s;
     error_count := error_count s;
     files_processed_count := files_processed_count s;
     global_progress := global_progress s;
     current_file := current_file s;
     current_file_progress := current_file_progress s;
     data := data s |}.

Definition set_files (f : gmap string (option Data) → gmap string (option Data)) (s : State) : State :=
  {| locks := locks s;
     files := f (files s);
     trace := trace s;
     tick := tick s;
     browsers := browsers s;
     processed_count := processed_count s;
     error_count := error_count s;
     files_processed_count := files_processed_count s;
     global_progress := global_progress s;
     current_file := current_file s;
     current_file_progress := current_file_progress s;
     data := data s |}.

Definition set_trace (f : list Event → list Event) (s : State) : State :=
  {| locks := locks s;
     files := files s;
     trace := f (trace s);
     tick := tick s;
     browsers := browsers s;
     processed_count := processed_count s;
     error_count := error_count s;
     files_processed_count := files_processed_count s;
     global_progress := global_progress s;
     current_file := current_file s;
     current_file_progress := current_file_progress s;
     data := data s |}.

Definition set_tick (f : nat → nat) (s : State) : State :=
  {| locks := locks s;
     files := files s;
     trace := trace s;
     tick := f (tick s);
     browsers := browsers s;
     processed_count := processed_count s;
     error_count := error_count s;
     files_processed_count := files_processed_count s;
     global_progress := global_progress s;
     current_file := current_file s;
     current_file_progress := current_file_progress s;
     data := data s |}.

Definition set_browsers (f : list Pool.BrowserInfo → list Pool.BrowserInfo) (s : State) : State :=
  {| locks := locks s;
     files := files s;
     trace := trace s;
     tick := tick s;
     browsers := f (browsers s);
     processed_count := processed_count s;
     error_count := error_count s;
     files_processed_count := files_processed_count s;
     global_progress := global_progress s;
     current_file := current_file s;
     current_file_progress := current_file_progress s;
     data := data s |}.

Definition set_processed_count (f : Z → Z) (s : State) : State :=
  {| locks := locks s;
     files := files s;
     trace := trace s;
     tick := tick s;
     browsers := browsers s;
     processed_count := f (processed_count s);
     error_count := error_count s;
     files_processed_count := files_processed_count s;
     global_progress := global_progress s;
     current_file := current_file s;
     current_file_progress := current_file_progress s;
     data := data s |}.

Definition set_error_count (f : Z → Z) (s : State) : State :=
  {| locks := locks s;
     files := files s;
     trace := trace s;
     tick := tick s;
     browsers := browsers s;
     processed_count := processed_count s;
     error_count := f (error_count s);
     files_processed_count := files_processed_count s;
     global_progress := global_progress s;
     current_file := current_file s;
     current_file_progress := current_file_progress s;
     data := data s |}.

Definition set_files_processed_count (f : Z → Z) (s : State) : State :=
  {| locks := locks s;
     files := files s;
     trace := trace s;
     tick := tick s;
     browsers := browsers s;
     processed_count := processed_count s;
     error_count := error_count s;
     files_processed_count := f (files_processed_count s);
     global_progress := global_progress s;
     current_file := current_file s;
     current_file_progress := current_file_progress s;
     data := data s |}.

Definition set_global_progress (f : option Progress.GlobalProgress → option Progress.GlobalProgress) (s : State) : State :=
  {| locks := locks s;
     files := files s;
     trace := trace s;
     tick := tick s;
     browsers := browsers s;
     processed_count := processed_count s;
     error_count := error_count s;
     files_processed_count := files_processed_count s;
     global_progress := f (global_progress s);
     current_file := current_file s;
     current_file_progress := current_file_progress s;
     data := data s |}.

Definition set_current_file (f : option string → option string) (s : State) : State :=
  {| locks := locks s;
     files := files s;
     trace := trace s;
     tick := tick s;
     browsers := browsers s;
     processed_count := processed_count s;
     error_count := error_count s;
     files_processed_count := files_processed_count s;
     global_progress := global_progress s;
     current_file := f (current_file s);
     current_file_progress := current_file_progress s;
     data := data s |}.

Definition set_current_file_progress (f : FileProgress → FileProgress) (s : State) : State :=
  {| locks := locks s;
     files := files s;
     trace := trace s;
     tick := tick s;
     browsers := browsers s;
     processed_count := processed_count s;
     error_count := error_count s;
     files_processed_count := files_processed_count s;
     global_progress := global_progress s;
     current_file := current_file s;
     current_file_progress := f (current_file_progress s);
     data := data s |}.

Definition set_data (f : Loaded → Loaded) (s : State) : State :=
  {| locks := locks s;
     files := files s;
     trace := trace s;
     tick := tick s;
     browsers := browsers s;
     processed_count := processed_count s;
     error_count := error_count s;
     files_processed_count := files_processed_count s;
     global_progress := global_progress s;
     current_file := current_file s;
     current_file_progress := current_file_progress s;
     data := f (data s) |}.


Definition fresh : M State nat := λ s, (Val (tick s), set_tick S s).

Definition emit (e : Event) : M State unit :=
  modify (set_trace (λ t, t ++ [e])).

(** [extract_iframe_url]: a result is returned only if it is truthy; any
    exception is caught and gives [None]. *)
Definition extract_iframe_url (env : Env) (u : string) : M State (option string) :=
  let* k := fresh in
  emit (EvExtract u) ;;;
  match page env k u with
  | Found s => ret (if bool_decide (s = "") then None else Some s)
  | NotFound => ret None
  | Error _ => ret None
  end.

(** Waiting for a tab when the tasks of a batch run one after the other:
    no other task holds a tab, so a scan that fails will fail forever. *)
Definition acquire : M State (Pool.Tab * nat) :=
  λ s, match Pool.get_available_tab (browsers s) with
       | (Some held, browsers') => (Val held, set_browsers (λ _, browsers') s)
       | (None, _) => (Hang, s)
       end.

(** [process_single_episode] *)
Definition process_single_episode (env : Env) (r : nat) : M State (option string) :=
  let* held := acquire in
  try_finally
    (let* k := fresh in
     match task_fault env k with
     | Some msg => raise msg
     | None =>
         let* episode := gets (λ s, deref (data s) r) in
         match url episode with
         | Some u => if bool_decide (u = "") then ret None
                     else extract_iframe_url env u
         | None => ret None
         end
     end)
    (modify (set_browsers (Pool.release_tab held.1 held.2))).

(** The [await asyncio.gather(...)] of [process_episode_batch]. *)
Definition run_tasks (env : Env) (batch : list nat)
    : M State (list (option string + string)) :=
  let* k := fresh in
  if cancel env k then (λ s, (Cancelled, s))
  else gather (process_single_episode env <$> batch).

Definition read_json (file_path : string) : M State Data :=
  λ s, match files s !! file_path with
       | Some (Some d) => (Val d, s)
       | Some None => (Exc "JSONDecodeError", s)
       | None => (Exc "FileNotFoundError", s)
       end.

(** [open(file_path, 'w')] and [f.write(json.dumps(data))] *)
Definition write_json (env : Env) (file_path : string) : M State unit :=
  let* k := fresh in
  if write_fault env k then raise "OSError"
  else modify (λ s, set_trace (λ t, t ++ [EvWrite file_path (dump (data s))])
                      (set_files (insert file_path (Some (dump (data s)))) s)).

Definition lock_file (cfg : Config) (env : Env) (file_path : string) : M State unit :=
  let* k := fresh in
  modify (set_locks (Coordinator.lock_file (time env k) (coordinator_id cfg) file_path)).

Definition unlock_file (file_path : string) : M State unit :=
  modify (set_locks (Coordinator.unlock_file file_path)).

Definition extracts (t : list Event) : list string :=
  omap (λ e, match e with EvExtract u => Some u | _ => None end) t.

Definition writes (file_path : string) (t : list Event) : list Data :=
  omap (λ e, match e with
             | EvWrite p d => if decide (p = file_path) then Some d else None
             | _ => None
             end) t.

Definition failures (t : list Event) : list FailureRecord :=
  omap (λ e, match e with EvFailure r => Some r | _ => None end) t.

End Runtime.

(** ** v.py *)

Module V.
Import Exec Json Runtime Batch.

(** One turn of the result loop of [process_episode_batch]. *)
Definition record_result (s : State) (x : nat * (option string + string)) : State :=
  match x.2 with
  | inr _ =>
      set_error_count Z.succ (set_data (set_iframe_url x.1 None) s)
  | inl result =>
      let s1 := set_data (set_iframe_url x.1 result) s in
      if truthy result then set_processed_count Z.succ s1
      else set_error_count Z.succ s1
  end.

(** [process_episode_batch] *)
Definition process_episode_batch (env : Env) (episodes_batch : list nat)
    : M State (list nat) :=
  let* results := run_tasks env episodes_batch in
  modify (λ s, foldl record_result s (zip episodes_batch results)) ;;;
  ret episodes_batch.

(** [batch_size = self.max_browsers * self.max_tabs_per_browser] *)
Definition batch_size (cfg : Config) : Z :=
  max_browsers cfg * max_tabs_per_browser cfg.

(** The batch loop of [process_file]: the file is saved after every batch. *)
Fixpoint process_batches (env : Env) (file_path : string)
    (batches : list (list nat)) : M State unit :=
  match batches with
  | [] => ret tt
  | batch :: rest =>
      process_episode_batch env batch ;;;
      write_json env file_path ;;;
      process_batches env file_path rest
  end.

(** [process_file] *)
Definition process_file (cfg : Config) (env : Env) (file_path : string)
    : M State bool :=
  try_finally
    (try_except
       (lock_file cfg env file_path ;;;
        let* d := read_json file_path in
        modify (set_data (λ _, load d)) ;;;
        let* all_pending_episodes := gets (λ s, pending (data s)) in
        match all_pending_episodes with
        | [] =>
            modify (set_files_processed_count Z.succ) ;;;
            ret true
        | _ =>
            if bool_decide (batch_size cfg = 0) then raise "ZeroDivisionError"
            else
              process_batches env file_path
                (waves all_pending_episodes (batch_size cfg)) ;;;
              modify (set_files_processed_count Z.succ) ;;;
              ret true
        end)
       (λ _, ret false))
    (unlock_file file_path).

End V.

(** ** ser.py *)

Module Ser.
Import Exec Json Runtime Batch.

(** [FailureLogger.log_failure] *)
Definition log_failure (env : Env) (episode_data : Episode) (why : string)
    (s : State) : State :=
  set_trace
    (λ t, t ++ [EvFailure {| timestamp := time env (tick s);
                             reason := why;
                             episode := episode_data |}])
    (set_tick S s).

(** One turn of the result loop of [process_episode_batch]; the pair
    counts [processed_in_batch] and [errors_in_batch]. *)
Definition record_result (cfg : Config) (env : Env)
    (acc : State * (Z * Z)) (x : nat * (option string + string)) : State * (Z * Z) :=
  match x.2 with
  | inr msg =>
      let s1 := set_error_count Z.succ (set_data (set_iframe_url x.1 None) acc.1) in
      (if failure_logger cfg then log_failure env (deref (data s1) x.1) msg s1 else s1,
       (acc.2.1, acc.2.2 + 1))
  | inl result =>
      let s1 := set_data (set_iframe_url x.1 result) acc.1 in
      if truthy result then
        (set_global_progress (fmap (Progress.increment_completed_episodes 1))
           (set_processed_count Z.succ s1),
         (acc.2.1 + 1, acc.2.2))
      else
        let s2 := set_error_count Z.succ s1 in
        (if failure_logger cfg
         then log_failure env (deref (data s2) x.1) "No iframe found (None result)" s2
         else s2,
         (acc.2.1, acc.2.2 + 1))
  end.

(** [process_episode_batch] *)
Definition process_episode_batch (cfg : Config) (env : Env)
    (episodes_batch : list nat) : M State (list nat * (Z * Z)) :=
  let* results := run_tasks env episodes_batch in
  λ s, let r := foldl (record_result cfg env) (s, (0, 0)) (zip episodes_batch results) in
       (Val (episodes_batch, r.2), r.1).

(** The innermost loop of "Update the episodes in the data": the first
    episode of the list with the url of [updated] is replaced by [updated]. *)
Fixpoint replace_first (h : list Episode) (updated : nat) (episodes : list nat)
    : list nat :=
  match episodes with
  | [] => []
  | original :: rest =>
      if decide (url (default no_episode (h !! original))
                 = url (default no_episode (h !! updated)))
      then updated :: rest
      else original :: replace_first h updated rest
  end.

Definition relink (updated_batch : list nat) (m : Loaded) : Loaded :=
  foldl (λ m updated,
           {| heap := heap m;
              anime := replace_first (heap m) updated <$> anime m |})
        m updated_batch.

(** [batch_size = 5] *)
Definition batch_size : Z := 5.

(** The batch loop of [process_file]: nothing is saved inside the loop. *)
Fixpoint process_batches (cfg : Config) (env : Env)
    (batches : list (list nat)) : M State unit :=
  match batches with
  | [] => ret tt
  | batch :: rest =>
      let* r := process_episode_batch cfg env batch in
      modify (set_current_file_progress
                (λ p, {| file_name := file_name p;
                         total_episodes := total_episodes p;
                         processed := processed p + r.2.1;
                         skipped := skipped p;
                         remaining := remaining p - (r.2.1 + r.2.2) |})) ;;;
      modify (set_data (relink r.1)) ;;;
      process_batches cfg env rest
  end.

Definition mark_file_completed (file_path : string) : M State unit :=
  modify (set_global_progress (fmap (Progress.mark_file_completed file_path))).

Definition reset_progress : M State unit :=
  modify (set_current_file (λ _, None)) ;;;
  modify (set_current_file_progress
            (λ p, {| file_name := "Idle";
                     total_episodes := total_episodes p;
                     processed := processed p;
                     skipped := skipped p;
                     remaining := remaining p |})).

(** [process_file] *)
Definition process_file (cfg : Config) (env : Env) (file_path : string)
    : M State bool :=
  modify (set_current_file (λ _, Some (Path.basename file_path))) ;;;
  modify (set_global_progress
            (fmap (Progress.mark_file_started file_path (instance_id cfg)))) ;;;
  try_finally
    (try_except
       (lock_file cfg env file_path ;;;
        let* d := read_json file_path in
        modify (set_data (λ _, load d)) ;;;
        let* episodes_to_process := gets (λ s, pending (data s)) in
        modify (set_current_file_progress
                  (λ _, {| file_name := Path.basename file_path;
                           total_episodes := Z.of_nat (length (concat d));
                           processed := 0;
                           skipped := Z.of_nat (length (concat d))
                                      - Z.of_nat (length episodes_to_process);
                           remaining := Z.of_nat (length episodes_to_process) |})) ;;;
        process_batches cfg env (waves episodes_to_process batch_size) ;;;
        write_json env file_path ;;;
        mark_file_completed file_path ;;;
        reset_progress ;;;
        ret true)
       (λ _, mark_file_completed file_path ;;;
             reset_progress ;;;
             ret false))
    (unlock_file file_path).

End Ser.

(** ** The scan loop of a worker *)

Module Worker.

Inductive Outcome (W : Type) :=
  | Terminated (w : W)
  | StillRunning (w : W).
Arguments Terminated {W} w.
Arguments StillRunning {W} w.

Section loop.
Context {W : Type}.
(** [self.coordinator.get_available_files(directory)] (v.py, ser.py) or
    [self.get_available_work()] (allanime.py). *)
Variable get_available_files : W → list string * W.
(** The draw behind [random.choice(available_files)] (v.py, ser.py);
    constantly 0 for [available_files[0]] (allanime.py). *)
Variable random : W → nat * W.
Variable process_file : string → W → W.
(** [await asyncio.sleep(seconds)]: other instances run meanwhile. *)
Variable sleep : Z → W → W.

(** Select a file of a non-empty list, process it, pause. *)
Definition claim (first : string) (others : list string) (w : W) : W :=
  let '(n, w') := random w in
  let file_to_process :=
    nth (n `mod` length (first :: others)) (first :: others) first in
  sleep 5 (process_file file_to_process w').

(** One turn of [while True]: [None] is [break]. *)
Definition turn (w : W) : option W :=
  let '(available_files, w1) := get_available_files w in
  match available_files with
  | [] =>
      let '(available_files, w2) := get_available_files (sleep 30 w1) in
      match available_files with
      | [] => None
      | first :: others => Some (claim first others w2)
      end
  | first :: others => Some (claim first others w1)
  end.

(** The state in which the loop is left by [break]. *)
Definition leave (w : W) : W :=
  (get_available_files (sleep 30 (get_available_files w).2)).2.

Fixpoint run_instance (turns : nat) (w : W) : Outcome W :=
  match turns with
  | O => StillRunning w
  | S turns' =>
      match turn w with
      | None => Terminated (leave w)
      | Some w' => run_instance turns' w'
      end
  end.

(** The state at the start of the [k]-th turn, if the loop gets there. *)
Fixpoint at_turn (k : nat) (w : W) : option W :=
  match k with
  | O => Some w
  | S k' => match turn w with None => None | Some w' => at_turn k' w' end
  end.

End loop.
End Worker.

(** ** [run_instance] of v.py and ser.py, one instance on its own *)

Module Instance.
Import Exec Runtime.

(** How [run_instance] ends: the [break] of the scan loop, an exception
    logged by its [except] clause, or the turns of the model running out
    while the loop goes on. *)
Inductive End :=
  | Shutdown
  | InstanceError (msg : string)
  | OutOfTurns.

Section run_instance.
Variable cfg : Config.
Variable env : Env.
(** The outcome of the launches and page creations of [init_browsers]. *)
Variable launch_ok : nat → bool.
Variable tab_ok : nat → nat → bool.
(** [os.listdir(directory)] at a tick; [None]: the directory is missing. *)
Variable listdir : nat → option (list string).
(** The draw of [random.choice] at a tick. *)
Variable choice : nat → nat.
(** v.py catches [FileNotFoundError] in [get_available_files], ser.py does
    not. *)
Variable catches_missing_directory : bool.
(** [self.process_file] *)
Variable process_file : string → M State bool.

(** [init_browsers], called once, on the empty [self.browsers]. *)
Definition init_browsers : M State unit :=
  modify (set_browsers
            (λ _, Pool.init_browsers (max_browsers cfg) (max_tabs_per_browser cfg)
                    launch_ok tab_ok)).

(** [self.coordinator.get_available_files(directory)]: the markers the scan
    finds expired are removed from the coordination directory. *)
Definition get_available_files (directory : string) : M State (list string) :=
  let* k := fresh in
  match listdir k with
  | None => if catches_missing_directory then ret [] else raise "FileNotFoundError"
  | Some listing =>
      λ s, let r := Coordinator.get_available_files
                      (λ i, time env (tick s + i)) directory listing (locks s) in
           (Val r.1, set_locks (λ _, r.2) (set_tick (λ t, (t + length listing)%nat) s))
  end.

(** [await asyncio.sleep(seconds)]: a point where a cancellation is
    delivered; nobody else touches the state meanwhile. *)
Definition sleep (seconds : Z) : M State unit :=
  let* k := fresh in
  if cancel env k then (λ s, (Cancelled, s)) else ret tt.

(** The [while True] loop, for at most [turns] turns. *)
Fixpoint loop (directory : string) (turns : nat) : M State End :=
  match turns with
  | O => ret OutOfTurns
  | S turns' =>
      let* available_files := get_available_files directory in
      let* available_files :=
        match available_files with
        | [] => sleep 30 ;;; get_available_files directory
        | _ => ret available_files
        end in
      match available_files with
      | [] => ret Shutdown
      | first :: others =>
          let* k := fresh in
          let file_to_process :=
            nth (choice k `mod` length (first :: others)) (first :: others) first in
          process_file file_to_process ;;;
          sleep 5 ;;;
          loop directory turns'
      end
  end.

(** [cleanup] closes the browsers; the exceptions of a close are caught, and
    the attributes of the instance are left as they are. *)
Definition cleanup : M State unit := ret tt.

(** [run_instance] *)
Definition run_instance (directory : string) (turns : nat) : M State End :=
  init_browsers ;;;
  try_finally
    (try_except (loop directory turns) (λ msg, ret (InstanceError msg)))
    cleanup.

End run_instance.

(** The two variants. *)
Definition v_run_instance (cfg : Config) (env : Env)
    (launch_ok : nat → bool) (tab_ok : nat → nat → bool)
    (listdir : nat → option (list string)) (choice : nat → nat) :=
  run_instance cfg env launch_ok tab_ok listdir choice true (V.process_file cfg env).

Definition ser_run_instance (cfg : Config) (env : Env)
    (launch_ok : nat → bool) (tab_ok : nat → nat → bool)
    (listdir : nat → option (list string)) (choice : nat → nat) :=
  run_instance cfg env launch_ok tab_ok listdir choice false (Ser.process_file cfg env).

(** The count [get_total_pending_episodes] of v.py adds for one file: the
    episodes without a truthy ['iframe_url']. *)
Definition count_pending_episodes (total_pending_episodes : Z) (d : Json.Data) : Z :=
  foldl (λ total anime,
           foldl (λ total episode,
                    if Json.truthy (Json.iframe_url episode) then total else total + 1)
                 total anime)
        total_pending_episodes d.

(** [get_total_pending_episodes]: a file that cannot be read is logged and
    adds nothing. *)
Definition get_total_pending_episodes (env : Env) (listdir : nat → option (list string))
    (directory : string) : M State (Z * Z) :=
  let* all_files := get_available_files env listdir true directory in
  let* total_pending_episodes :=
    gets (λ s, foldl (λ total file_path,
                        match files s !! file_path with
                        | Some (Some d) => count_pending_episodes total d
                        | _ => total
                        end) 0 all_files) in
  ret (total_pending_episodes, Z.of_nat (length all_files)).

End Instance.

(** ** [_make_absolute_url] of v.py and ser.py *)

Module Url.
Import Path.

Section make_absolute_url.
(** [urlparse(base_url)]: the scheme and the netloc of the url of the page. *)
Variable urlparse : string → string * string.

(** v.py; [None] and the empty string are returned as they are. *)
Definition v_make_absolute_url (base_url : string) (relative_url : option string)
    : option string :=
  match relative_url with
  | None => None
  | Some relative_url =>
      if bool_decide (relative_url = "") then Some relative_url
      else if startswith "http://" relative_url || startswith "https://" relative_url
      then Some relative_url
      else if startswith "//" relative_url then Some ("https:" +:+ relative_url)
      else
        let parsed_base := urlparse base_url in
        if startswith "/" relative_url
        then Some (parsed_base.1 +:+ "://" +:+ parsed_base.2 +:+ relative_url)
        else Some (parsed_base.1 +:+ "://" +:+ parsed_base.2 +:+ "/" +:+ relative_url)
  end.

(** ser.py *)
Definition ser_make_absolute_url (base_url : string) (relative_url : option string)
    : option string :=
  match relative_url with
  | None => None
  | Some relative_url =>
      if bool_decide (relative_url = "") then Some relative_url
      else if startswith "http://" relative_url || startswith "https://" relative_url
      then Some relative_url
      else if startswith "//" relative_url then Some ("https:" +:+ relative_url)
      else if startswith "/" relative_url
      then let parsed_base := urlparse base_url in
           Some (parsed_base.1 +:+ "://" +:+ parsed_base.2 +:+ relative_url)
      else Some (base_url +:+ "/" +:+ relative_url)
  end.

End make_absolute_url.

End Url.

(** ** allanime.py: the coordination file, the episode lists, the workers *)

Module Allanime.
Import Exec.

(** [p in s] *)
Fixpoint contains (p s : string) : bool :=
  String.prefix p s ||
  match s with
  | EmptyString => false
  | String _ r => contains p r
  end.

(** [l.sort(key=...)], with [before x y] telling that [x] may stay in front
    of [y]: the sort is stable, entries that compare equal keep their order. *)
Fixpoint insert_sorted {A : Type} (before : A → A → bool) (x : A) (l : list A) : list A :=
  match l with
  | [] => [x]
  | y :: r => if before x y then x :: y :: r else y :: insert_sorted before x r
  end.

Definition stable_sort {A : Type} (before : A → A → bool) (l : list A) : list A :=
  foldr (insert_sorted before) [] l.

(** *** The coordination data *)

(** The values of ["instance_status"]: the texts "Starting up",
    "Processing <filename>" and "Processed <n> anime". *)
Inductive Status :=
  | StartingUp
  | Processing (filename : string)
  | Processed (count : Z).

(** An entry of ["failed_anime"]. *)
Record Failure := {
  failed_id : string;
  failed_title : string;
  failed_file : string;
  error : string;
  instance : string;
  timestamp : Z
}.

(** What [coordination.json] holds. *)
Record Coordination := {
  locked_files : gmap string string;
  processed_anime : list string;
  failed_anime : list Failure;
  instance_status : gmap string Status;
  start_time : Z;
  total_processed : Z
}.

(** [init_coordination]: the data written when the file does not exist. *)
Definition init_coordination (now : Z) (existing : option Coordination) : Coordination :=
  match existing with
  | Some c => c
  | None => {| locked_files := ∅; processed_anime := []; failed_anime := [];
               instance_status := ∅; start_time := now; total_processed := 0 |}
  end.

(** [lock_file] *)
Definition lock_file (instance_id filename : string) (c : Coordination) : Coordination :=
  {| locked_files := <[filename := instance_id]> (locked_files c);
     processed_anime := processed_anime c;
     failed_anime := failed_anime c;
     instance_status := <[instance_id := Processing filename]> (instance_status c);
     start_time := start_time c;
     total_processed := total_processed c |}.

(** [unlock_file] *)
Definition unlock_file (filename : string) (c : Coordination) : Coordination :=
  {| locked_files := delete filename (locked_files c);
     processed_anime := processed_anime c;
     failed_anime := failed_anime c;
     instance_status := instance_status c;
     start_time := start_time c;
     total_processed := total_processed c |}.

(** [mark_anime_processed] *)
Definition mark_anime_processed (anime_id instance_id : string) (c : Coordination)
    : Coordination :=
  {| locked_files := locked_files c;
     processed_anime := if bool_decide (anime_id ∈ processed_anime c)
                        then processed_anime c
                        else processed_anime c ++ [anime_id];
     failed_anime := failed_anime c;
     instance_status :=
       <[instance_id := Processed (total_processed c + 1)]> (instance_status c);
     start_time := start_time c;
     total_processed := total_processed c + 1 |}.

(** [is_file_locked] *)
Definition is_file_locked (filename : string) (c : Coordination) : bool :=
  bool_decide (is_Some (locked_files c !! filename)).

(** [is_anime_processed] *)
Definition is_anime_processed (anime_id : string) (c : Coordination) : bool :=
  bool_decide (anime_id ∈ processed_anime c).

(** The update of the [except] clause of [process_file]: one more entry in
    ["failed_anime"]. *)
Definition record_failure (entry : Failure) (c : Coordination) : Coordination :=
  {| locked_files := locked_files c;
     processed_anime := processed_anime c;
     failed_anime := failed_anime c ++ [entry];
     instance_status := instance_status c;
     start_time := start_time c;
     total_processed := total_processed c |}.

(** *** The index files *)

(** An entry of the episode list the page script returns. *)
Record EpisodeInfo := {
  number : string;
  ep_title : string;
  ep_url : string;
  episode_id : string
}.

(** An anime of an index file; the entries carry ['id'], ['title'] and
    ['url']; ['episodes'] and ['episodes_count'] are what [process_file]
    sets. *)
Record Anime := {
  anime_id : string;
  anime_title : string;
  anime_url : string;
  episodes : option (list EpisodeInfo);
  episodes_count : option Z
}.

(** What a JSON file of the index folder can hold after the workers have
    written to it: the object of an index file, with its ['letter'] and its
    ['anime'] list, or an object with the keys of the coordination data (and
    no ['anime']). *)
Inductive Content :=
  | Index (letter : option string) (anime : list Anime)
  | CoordinationDump (c : Coordination).

(** *** The world of a worker *)

(** What a worker does to the outside that the files do not show. *)
Inductive Event :=
  | Goto (url : string)
  | Sleep (seconds : Z)
  | SmartWait.

(** The local [data] of [process_file]: the object loaded from the index
    file, whose ['anime'] list is [animes] below, or an object with the keys
    of the coordination data. *)
Inductive DataLocal :=
  | WorkItem (letter : option string)
  | Other (c : Coordination).

(** The locals of [process_file] that outlive an exception: [data], the list
    [data['anime']] the loop goes through (its entries are updated in place),
    and [processed_in_file]. [None] is a local that is not bound yet. *)
Record Frame := {
  data : option DataLocal;
  animes : list Anime;
  processed_in_file : option Z
}.

(** The environment, asked with the current tick: whether a [page.goto]
    succeeds, what the page script returns for a url ([None]: it raises),
    whether the writes of a cache file and of an index file succeed, whether
    the browser can be set up and closed, and the clock. *)
Record Env := {
  goto_ok : nat → bool;
  evaluate : nat → string → option (list EpisodeInfo);
  cache_write_ok : nat → bool;
  index_write_ok : nat → bool;
  setup_ok : nat → bool;
  close_ok : nat → bool;
  time : nat → Z
}.

(** The coordination file, the JSON files of the index folder by path
    ([None]: not valid JSON), the episode cache by anime id, the events so
    far, and the locals of the running [process_file]. *)
Record World := {
  coordination : Coordination;
  index : gmap string (option Content);
  cache : gmap string (option (list EpisodeInfo));
  tick : nat;
  events : list Event;
  frame : Frame
}.

Definition set_coordination (f : Coordination → Coordination) (w : World) : World :=
  {| coordination := f (coordination w); index := index w; cache := cache w;
     tick := tick w; events := events w; frame := frame w |}.

Definition set_index (f : gmap string (option Content) → gmap string (option Content))
    (w : World) : World :=
  {| coordination := coordination w; index := f (index w); cache := cache w;
     tick := tick w; events := events w; frame := frame w |}.

Definition set_cache
    (f : gmap string (option (list EpisodeInfo)) → gmap string (option (list EpisodeInfo)))
    (w : World) : World :=
  {| coordination := coordination w; index := index w; cache := f (cache w);
     tick := tick w; events := events w; frame := frame w |}.

Definition set_tick (f : nat → nat) (w : World) : World :=
  {| coordination := coordination w; index := index w; cache := cache w;
     tick := f (tick w); events := events w; frame := frame w |}.

Definition set_events (f : list Event → list Event) (w : World) : World :=
  {| coordination := coordination w; index := index w; cache := cache w;
     tick := tick w; events := f (events w); frame := frame w |}.

Definition set_frame (f : Frame → Frame) (w : World) : World :=
  {| coordination := coordination w; index := index w; cache := cache w;
     tick := tick w; events := events w; frame := f (frame w) |}.

Definition fresh : M World nat := λ w, (Val (tick w), set_tick S w).

Definition emit (e : Event) : M World unit :=
  modify (set_events (λ t, t ++ [e])).

(** [self.anime_index_folder] *)
Definition anime_index_folder : string := "anime_index".

(** *** Navigation and episode lists *)

(** The loop of [safe_navigate], from attempt [attempt] on, [fuel] attempts
    being left in [range(max_retries)]. Running out of the range lets the
    function fall off its end: it returns [None]. *)
Fixpoint navigate (env : Env) (url : string) (max_retries : Z)
    (attempt : nat) (fuel : nat) : M World (option bool) :=
  match fuel with
  | O => ret None
  | S fuel' =>
      let* k := fresh in
      emit (Goto url) ;;;
      if goto_ok env k then emit (Sleep 2) ;;; ret (Some true)
      else if bool_decide (Z.of_nat attempt < max_retries - 1)
           then emit (Sleep 5) ;;; navigate env url max_retries (S attempt) fuel'
           else ret (Some false)
  end.

(** [safe_navigate] *)
Definition safe_navigate (env : Env) (url : string) (max_retries : Z)
    : M World (option bool) :=
  navigate env url max_retries 0 (Z.to_nat max_retries).

(** [c] is one of the characters 0 to 9. *)
Definition is_digit (c : ascii) : bool :=
  (48 <=? nat_of_ascii c)%nat && (nat_of_ascii c <=? 57)%nat.

Fixpoint all_digits (s : string) : bool :=
  match s with
  | EmptyString => true
  | String c r => is_digit c && all_digits r
  end.

(** [s.isdigit()], for a string of ASCII characters. *)
Definition isdigit (s : string) : bool :=
  match s with
  | EmptyString => false
  | _ => all_digits s
  end.

(** [int(s)], for a string of the characters 0 to 9. *)
Fixpoint int_from (acc : Z) (s : string) : Z :=
  match s with
  | EmptyString => acc
  | String c r => int_from (10 * acc + (Z.of_nat (nat_of_ascii c) - 48)) r
  end.

(** The sort key [int(x['number']) if x['number'].isdigit() else 0]. *)
Definition sort_key (x : EpisodeInfo) : Z :=
  if isdigit (number x) then int_from 0 (number x) else 0.

(** "Remove duplicates": the first episode of each url is kept. *)
Fixpoint unique_episodes (seen_urls : list string) (episodes : list EpisodeInfo)
    : list EpisodeInfo :=
  match episodes with
  | [] => []
  | episode :: rest =>
      if bool_decide (ep_url episode ∈ seen_urls)
      then unique_episodes seen_urls rest
      else episode :: unique_episodes (ep_url episode :: seen_urls) rest
  end.

(** [extract_episodes_simple]: a readable cache file is returned as it is;
    otherwise the page is visited, its episode list cleaned, sorted and
    cached (a failing cache write is ignored). *)
Definition extract_episodes_simple (env : Env) (anime_url anime_id : string)
    : M World (list EpisodeInfo) :=
  let* cached := gets (λ w, cache w !! anime_id) in
  match cached with
  | Some (Some cached_data) => ret cached_data
  | _ =>
      let* reached := safe_navigate env anime_url 3 in
      match reached with
      | Some true =>
          emit (Sleep 3) ;;;
          let* k := fresh in
          match evaluate env k anime_url with
          | None => raise "Error"
          | Some episodes =>
              let unique := unique_episodes [] episodes in
              let sorted := stable_sort (λ x y, bool_decide (sort_key x ≤ sort_key y)) unique in
              let* k' := fresh in
              (if cache_write_ok env k'
               then modify (set_cache (insert anime_id (Some sorted)))
               else ret tt) ;;;
              ret sorted
          end
      | _ => ret []
      end
  end.

(** *** The work on one index file *)

(** [for x in l: body] *)
Fixpoint for_each {S A : Type} (l : list A) (body : A → M S unit) : M S unit :=
  match l with
  | [] => ret tt
  | x :: rest => body x ;;; for_each rest body
  end.

(** [json.load] of an index file. *)
Definition read_index (filepath : string) : M World Content :=
  λ w, match index w !! filepath with
       | Some (Some content) => (Val content, w)
       | Some None => (Exc "JSONDecodeError", w)
       | None => (Exc "FileNotFoundError", w)
       end.

(** The locals after the file is loaded and [processed_in_file = 0]. *)
Definition loaded (content : Content) : Frame :=
  match content with
  | Index letter anime =>
      {| data := Some (WorkItem letter); animes := anime; processed_in_file := Some 0 |}
  | CoordinationDump c =>
      {| data := Some (Other c); animes := []; processed_in_file := Some 0 |}
  end.

(** What [json.dump(data, f)] writes. *)
Definition dumped (f : Frame) : option Content :=
  match data f with
  | Some (WorkItem letter) => Some (Index letter (animes f))
  | Some (Other c) => Some (CoordinationDump c)
  | None => None
  end.

(** [with open(filepath, 'w') as f: json.dump(data, f)] *)
Definition save (env : Env) (filepath : string) : M World unit :=
  let* k := fresh in
  if index_write_ok env k then
    λ w, match dumped (frame w) with
         | Some content => (Val tt, set_index (insert filepath (Some content)) w)
         | None => (Exc "UnboundLocalError", w)
         end
  else raise "OSError".

Definition setup_browser (env : Env) : M World unit :=
  let* k := fresh in
  if setup_ok env k then ret tt else raise "Error".

Definition close_browser (env : Env) : M World unit :=
  let* k := fresh in
  if close_ok env k then ret tt else raise "Error".

(** [anime['episodes'] = episodes; anime['episodes_count'] = len(episodes)],
    on the [i]-th entry of the list. *)
Definition set_episodes (i : nat) (found : list EpisodeInfo) (f : Frame) : Frame :=
  {| data := data f;
     animes := alter (λ anime, {| anime_id := anime_id anime;
                                  anime_title := anime_title anime;
                                  anime_url := anime_url anime;
                                  episodes := Some found;
                                  episodes_count := Some (Z.of_nat (length found)) |})
                     i (animes f);
     processed_in_file := processed_in_file f |}.

(** [processed_in_file += 1] *)
Definition count_processed (f : Frame) : Frame :=
  {| data := data f; animes := animes f;
     processed_in_file := Z.succ <$> processed_in_file f |}.

(** The [except] clause of the loop: [data] is bound anew, to the
    coordination data just read, and the failure is appended to a copy of
    its ["failed_anime"]. *)
Definition fail_anime (env : Env) (instance_id filename : string) (anime : Anime)
    (msg : string) : M World unit :=
  let* k := fresh in
  modify (λ w,
    let read := coordination w in
    set_coordination
      (record_failure {| failed_id := anime_id anime;
                         failed_title := anime_title anime;
                         failed_file := filename;
                         error := msg;
                         instance := instance_id;
                         timestamp := time env k |})
      (set_frame (λ f, {| data := Some (Other read); animes := animes f;
                          processed_in_file := processed_in_file f |}) w)).

(** One turn of [for i, anime in enumerate(data['anime'])]. *)
Definition process_anime (env : Env) (instance_id filename : string) (i : nat)
    : M World unit :=
  let* entry := gets (λ w, animes (frame w) !! i) in
  match entry with
  | None => ret tt
  | Some anime =>
      let* skip := gets (λ w, is_anime_processed (anime_id anime) (coordination w)) in
      if skip then ret tt
      else
        try_except
          (let* found := extract_episodes_simple env (anime_url anime) (anime_id anime) in
           modify (set_frame (set_episodes i found)) ;;;
           modify (set_coordination (mark_anime_processed (anime_id anime) instance_id)) ;;;
           modify (set_frame count_processed) ;;;
           let* n := gets (λ w, processed_in_file (frame w)) in
           (if bool_decide (default 0 n `mod` 3 = 0)
            then save env (Path.join anime_index_folder filename)
            else ret tt) ;;;
           emit SmartWait)
          (fail_anime env instance_id filename anime)
  end.

(** [data['anime']]: the number of entries of the list the loop goes
    through, or a [KeyError]. *)
Definition anime_of_data : M World nat :=
  λ w, match data (frame w) with
       | Some (WorkItem _) => (Val (length (animes (frame w))), w)
       | Some (Other _) => (Exc "KeyError", w)
       | None => (Exc "UnboundLocalError", w)
       end.

(** [process_file] *)
Definition process_file (env : Env) (instance_id filename : string) : M World Z :=
  modify (set_frame (λ _, {| data := None; animes := []; processed_in_file := None |})) ;;;
  modify (set_coordination (lock_file instance_id filename)) ;;;
  try_finally
    (try_except
       (let* content := read_index (Path.join anime_index_folder filename) in
        modify (set_frame (λ _, loaded content)) ;;;
        setup_browser env ;;;
        try_finally
          (let* total := anime_of_data in
           for_each (seq 0 total) (process_anime env instance_id filename) ;;;
           save env (Path.join anime_index_folder filename))
          (close_browser env))
       (λ _, ret tt))
    (modify (set_coordination (unlock_file filename))) ;;;
  let* n := gets (λ w, processed_in_file (frame w)) in
  match n with
  | Some n => ret n
  | None => raise "UnboundLocalError"
  end.

(** *** The choice of a file *)

(** The name filter of [get_available_work]. *)
Definition is_index_file (filename : string) : bool :=
  Path.startswith "anime_" filename && Path.endswith ".json" filename
  && negb (contains "master_index" filename).

(** The anime of a file that are not in ["processed_anime"]; a file
    without ['anime'] has none. *)
Definition unprocessed_count (c : Coordination) (content : Content) : nat :=
  match content with
  | Index _ anime =>
      length (filter (λ a, anime_id a ∉ processed_anime c) anime)
  | CoordinationDump _ => 0
  end.

(** The entry [get_available_work] makes for a file of the listing, if it
    makes one. *)
Definition candidate (w : World) (filename : string) : option (string * nat) :=
  if is_index_file filename && negb (is_file_locked filename (coordination w)) then
    match index w !! Path.join anime_index_folder filename with
    | Some (Some content) =>
        let unprocessed := unprocessed_count (coordination w) content in
        if bool_decide (0 < unprocessed)%nat then Some (filename, unprocessed) else None
    | _ => None
    end
  else None.

(** [get_available_work]; [listing] is [os.listdir(self.anime_index_folder)]. *)
Definition get_available_work (listing : list string) (w : World) : list string :=
  (stable_sort (λ x y, bool_decide (y.2 ≤ x.2)%nat) (omap (candidate w) listing)).*1.

(** *** A worker *)

Section worker_instance.
Variable env : Env.
(** [os.listdir(self.anime_index_folder)]: the workers delete no file of the
    folder and add none that passes the name filter. *)
Variable listing : list string.
(** [(int(instance_id.split('_')[1]) - 1) * 10], or the exception it raises
    on an id without such a number. *)
Variable start_delay : string → Z + string.

(** The [while True] loop of [worker_instance], for at most [turns] turns,
    while no other worker runs; [None]: the turns ran out and the loop goes
    on. *)
Fixpoint worker_loop (instance_id : string) (total_processed : Z) (turns : nat)
    : M World (option Z) :=
  match turns with
  | O => ret None
  | S turns' =>
      let* available_files := gets (get_available_work listing) in
      let* available_files :=
        match available_files with
        | [] => emit (Sleep 30) ;;; gets (get_available_work listing)
        | _ => ret available_files
        end in
      match available_files with
      | [] => ret (Some total_processed)
      | filename :: _ =>
          let* processed := process_file env instance_id filename in
          emit (Sleep 5) ;;;
          worker_loop instance_id (total_processed + processed) turns'
      end
  end.

(** [worker_instance] *)
Definition worker_instance (instance_id : string) (turns : nat) : M World (option Z) :=
  match start_delay instance_id with
  | inr msg => raise msg
  | inl seconds => emit (Sleep seconds) ;;; worker_loop instance_id 0 turns
  end.

End worker_instance.

End Allanime.

(** ** allanime.py: the workers of [run_multi_instance] *)

Module Workers.
Import Allanime.

(** Where a [worker_instance] task is when the event loop resumes it: at
    the top of its loop (after the start delay or the five second pause), in
    the 30 second wait after an empty scan, inside [process_file] on a file
    (at one of its awaits), or ended. *)
Inductive Worker :=
  | Scanning
  | Waiting
  | Working (filename : string)
  | Stopped.

(** What a worker inside [process_file] does until its next await: it marks
    an anime, records a failure, saves the index file, or leaves
    [process_file] (after the final save, or without it when an exception
    ended the work), which unlocks the file. *)
Inductive Progress :=
  | Marked (anime_id : string)
  | Failed (entry : Failure)
  | Saved (content : Content)
  | Returned (saved : option Content).

(** The files the tasks share, and the tasks. *)
Record System := { shared : World; workers : list Worker }.

Section run_multi_instance.
(** [os.listdir(self.anime_index_folder)] *)
Variable listing : list string.
(** The id of the [i]-th task: [f"instance_{i+1}"]. *)
Variable instance_id : nat → string.

(** [available_files = self.get_available_work()] and, on a non-empty list,
    the call of [process_file] up to its first await: no await separates the
    scan from [self.lock_file]. *)
Definition take_file (i : nat) (idle : Worker) (s : System) : System :=
  match get_available_work listing (shared s) with
  | [] => {| shared := shared s; workers := <[i := idle]> (workers s) |}
  | filename :: _ =>
      {| shared := set_coordination (lock_file (instance_id i) filename) (shared s);
         workers := <[i := Working filename]> (workers s) |}
  end.

(** The event loop resumes task [i] until its next await. *)
Definition resume (i : nat) (p : Progress) (s : System) : System :=
  match workers s !! i with
  | Some Scanning => take_file i Waiting s
  | Some Waiting => take_file i Stopped s
  | Some (Working filename) =>
      match p with
      | Marked anime_id =>
          {| shared := set_coordination (mark_anime_processed anime_id (instance_id i))
                         (shared s);
             workers := workers s |}
      | Failed entry =>
          {| shared := set_coordination (record_failure entry) (shared s);
             workers := workers s |}
      | Saved content =>
          {| shared := set_index (insert (Path.join anime_index_folder filename)
                                         (Some content)) (shared s);
             workers := workers s |}
      | Returned saved =>
          {| shared :=
               set_coordination (unlock_file filename)
                 (match saved with
                  | Some content =>
                      set_index (insert (Path.join anime_index_folder filename)
                                        (Some content)) (shared s)
                  | None => shared s
                  end);
             workers := <[i := Scanning]> (workers s) |}
      end
  | Some Stopped | None => s
  end.

(** The tasks resumed one after the other, in the order of a schedule. *)
Definition run (schedule : list (nat * Progress)) (s : System) : System :=
  foldl (λ s turn, resume turn.1 turn.2 s) s schedule.

(** [run_multi_instance] sets the status of every instance to "Starting up"
    and creates [num_instances] tasks. *)
Definition start (num_instances : nat) (w : World) : System :=
  {| shared :=
       set_coordination
         (λ c, {| locked_files := locked_files c;
                  processed_anime := processed_anime c;
                  failed_anime := failed_anime c;
                  instance_status :=
                    foldl (λ status i, <[instance_id i := StartingUp]> status) ∅
                          (seq 0 num_instances);
                  start_time := start_time c;
                  total_processed := total_processed c |}) w;
     workers := replicate num_instances Scanning |}.

End run_multi_instance.

End Workers.

(** * Theorems *)

(** ** Paths *)

Lemma basename_no_slash (b : string) :
  Path.has_slash b = false → Path.basename b = b.
Proof.
  destruct b as [|c r]; simpl; [done|].
  intros H. apply orb_false_iff in H as [Hc Hr].
  by rewrite Hr, Hc.
Qed.

Lemma has_slash_app_r (a b : string) :
  Path.has_slash b = true → Path.has_slash (a +:+ b) = true.
Proof.
  intros Hb. induction a as [|c a IH]; simpl; [done|].
  rewrite IH. apply orb_true_r.
Qed.

Lemma basename_app_slash (a b : string) :
  Path.has_slash b = false →
  Path.basename (a +:+ "/" +:+ b) = b.
Proof.
  intros Hb. induction a as [|c a IH].
  - change (Path.basename (String "/" b) = b). simpl. by rewrite Hb.
  - change (Path.basename (String c (a +:+ "/" +:+ b)) = b). simpl.
    rewrite has_slash_app_r; [done|]. done.
Qed.

Lemma ends_with_slash_split (a : string) :
  Path.ends_with_slash a = true → ∃ a', a = a' +:+ "/".
Proof.
  induction a as [|c a IH]; simpl; [done|].
  destruct a as [|c' a].
  - intros Hc. apply bool_decide_eq_true in Hc as ->. by exists "".
  - intros H. destruct (IH H) as [a' Ha']. exists (String c a').
    change (String c (String c' a) = String c (a' +:+ "/")). by rewrite Ha'.
Qed.

Lemma string_app_assoc (a b c : string) : (a +:+ b) +:+ c = a +:+ (b +:+ c).
Proof.
  induction a as [|x a IH]; [done|].
  change (String x ((a +:+ b) +:+ c) = String x (a +:+ b +:+ c)). by rewrite IH.
Qed.

Lemma startswith_slash_no_slash (b : string) :
  Path.has_slash b = false → Path.startswith "/" b = false.
Proof.
  destruct b as [|c r]; [done|]. intros H. simpl in H.
  apply orb_false_iff in H as [Hc _]. apply bool_decide_eq_false in Hc.
  unfold Path.startswith.
  change (String.prefix "/" (String c r))
    with (if ascii_dec "/" c then String.prefix "" r else false).
  destruct (ascii_dec "/" c); [congruence|done].
Qed.

(** A directory entry is the base name of its joined path. *)
Lemma basename_join (d f : string) :
  Path.has_slash f = false → Path.basename (Path.join d f) = f.
Proof.
  intros Hf. unfold Path.join. rewrite startswith_slash_no_slash by done.
  destruct (bool_decide (d = "")) eqn:Hd; simpl.
  - apply bool_decide_eq_true in Hd as ->. simpl. by apply basename_no_slash.
  - destruct (Path.ends_with_slash d) eqn:He.
    + apply ends_with_slash_split in He as [a' ->].
      rewrite string_app_assoc. by apply basename_app_slash.
    + by apply basename_app_slash.
Qed.

Lemma string_length_app (a b : string) :
  String.length (a +:+ b) = (String.length a + String.length b)%nat.
Proof.
  induction a as [|x a IH]; [done|].
  change (S (String.length (a +:+ b)) = S (String.length a + String.length b)).
  by rewrite IH.
Qed.

Lemma string_app_inj_r (s a b : string) : a +:+ s = b +:+ s → a = b.
Proof.
  revert b. induction a as [|x a IH]; intros [|y b] H.
  - done.
  - apply (f_equal String.length) in H.
    change ("" +:+ s) with s in H.
    rewrite (string_length_app (String y b)) in H. simpl in H. lia.
  - apply (f_equal String.length) in H.
    change ("" +:+ s) with s in H.
    rewrite (string_length_app (String x a)) in H. simpl in H. lia.
  - change (String x (a +:+ s) = String y (b +:+ s)) in H.
    injection H as -> H. by rewrite (IH b H).
Qed.

(** ** InstanceCoordinator *)

Section coordinator.
Import Path Coordinator.

Lemma lock_name_join (d f : string) :
  has_slash f = false → lock_name (join d f) = f +:+ ".lock".
Proof. intros Hf. unfold lock_name. by rewrite basename_join. Qed.

Lemma lock_name_join_inj (d f g : string) :
  has_slash f = false → has_slash g = false →
  lock_name (join d f) = lock_name (join d g) → f = g.
Proof.
  intros Hf Hg. rewrite !lock_name_join by done. apply string_app_inj_r.
Qed.

(** One check: the verdict is the liveness of the marker; a negative verdict
    comes with a store that holds no marker for the file; a positive one
    leaves the store alone; other markers are never touched. *)
Lemma is_file_being_processed_spec (now : Z) (p : string) (locks : LockStore) :
  let r := is_file_being_processed now p locks in
  r.1 = live_lock now p locks ∧
  (r.1 = false → r.2 !! lock_name p = None) ∧
  (r.1 = true → r.2 = locks) ∧
  (∀ key, key ≠ lock_name p → r.2 !! key = locks !! key).
Proof.
  unfold is_file_being_processed, live_lock.
  destruct (locks !! lock_name p) as [m|] eqn:Hm; simpl.
  - destruct (bool_decide (now - mtime m > 600)) eqn:Hage; simpl.
    + apply bool_decide_eq_true in Hage.
      rewrite bool_decide_eq_false_2 by lia.
      split_and!; [done| |done|].
      * intros _. apply lookup_delete_eq.
      * intros key Hkey. by apply lookup_delete_ne.
    + apply bool_decide_eq_false in Hage.
      rewrite bool_decide_eq_true_2 by lia. done.
  - done.
Qed.

Lemma live_lock_other (now : Z) (p q : string) (l1 l2 : LockStore) :
  l1 !! lock_name q = l2 !! lock_name q → live_lock now q l1 = live_lock now q l2.
Proof. unfold live_lock. by intros ->. Qed.

Lemma scan_files_spec (clock : nat → Z) (d : string) (files : list string) :
  ∀ (k : nat) (locks : LockStore),
  NoDup files → Forall (λ f, has_slash f = false) files →
  let r := scan_files clock k d files locks in
  (∀ p, p ∈ r.1 ↔
        ∃ i f, files !! i = Some f ∧ p = join d f ∧
               live_lock (clock (k + i)%nat) p locks = false) ∧
  (∀ i f, files !! i = Some f →
        r.2 !! lock_name (join d f) =
          if live_lock (clock (k + i)%nat) (join d f) locks
          then locks !! lock_name (join d f) else None) ∧
  (∀ key, (∀ f, f ∈ files → key ≠ lock_name (join d f)) →
        r.2 !! key = locks !! key).
Proof.
  induction files as [|f files IH]; intros k locks Hnd Hns.
  - simpl. split_and!.
    + intros p. split; [by intros ?%elem_of_nil|]. by intros (i & g & ? & _).
    + by intros i g ?.
    + done.
  - apply NoDup_cons in Hnd as [Hf Hnd]. apply Forall_cons in Hns as [Hfs Hns].
    simpl.
    pose proof (is_file_being_processed_spec (clock k) (join d f) locks) as Hone.
    destruct (is_file_being_processed (clock k) (join d f) locks) as [busy locks1].
    simpl in Hone. destruct Hone as (Hbusy & Hgone & Hsame & Hothers).
    specialize (IH (S k) locks1 Hnd Hns).
    destruct (scan_files clock (S k) d files locks1) as [avail locks2].
    simpl in IH. destruct IH as (IHa & IHl & IHo). simpl.
    assert (Hkeep : ∀ g, g ∈ files →
              locks1 !! lock_name (join d g) = locks !! lock_name (join d g)).
    { intros g Hg. apply Hothers. intros Heq.
      apply lock_name_join_inj in Heq; [|by eapply Forall_forall in Hns|done].
      by subst g. }
    split_and!.
    + intros p. split.
      * intros Hp.
        assert (Hcase : (busy = false ∧ p = join d f) ∨ p ∈ avail).
        { destruct busy; [by right|]. apply elem_of_cons in Hp as [->|Hp']; auto. }
        clear Hp. destruct Hcase as [[-> ->]|Hp].
        -- exists 0%nat, f. rewrite Nat.add_0_r. by rewrite <- Hbusy.
        -- apply IHa in Hp as (i & g & Hi & -> & Hlive).
           exists (S i), g. split_and!; [done..|].
           replace (k + S i)%nat with (S (k + i))%nat by lia.
           rewrite <- Hlive. apply (live_lock_other _ (join d g)). symmetry.
           apply Hkeep. by eapply list_elem_of_lookup_2.
      * intros (i & g & Hi & -> & Hlive). destruct i as [|i]; simpl in Hi.
        -- injection Hi as <-. rewrite Nat.add_0_r in Hlive.
           rewrite <- Hbusy in Hlive. rewrite Hlive. apply elem_of_cons. by left.
        -- assert (join d g ∈ avail) as Hin.
           { apply IHa. exists i, g. split_and!; [done..|].
             replace (S (k + i))%nat with (k + S i)%nat by lia.
             rewrite <- Hlive. apply (live_lock_other _ (join d g)).
             apply Hkeep. by eapply list_elem_of_lookup_2. }
           destruct busy; [done|]. apply elem_of_cons. by right.
    + intros i g Hi. destruct i as [|i]; simpl in Hi.
      * injection Hi as <-. rewrite Nat.add_0_r, <- Hbusy.
        rewrite IHo.
        -- destruct busy; [by rewrite Hsame|by apply Hgone].
        -- intros g Hg Heq.
           apply lock_name_join_inj in Heq; [|done|by eapply Forall_forall in Hns].
           by subst g.
      * rewrite (IHl i g Hi). replace (S (k + i))%nat with (k + S i)%nat by lia.
        assert (g ∈ files) as Hg by by eapply list_elem_of_lookup_2.
        rewrite (live_lock_other _ (join d g) (join d g) locks1 locks) by by apply Hkeep.
        by rewrite Hkeep.
    + intros key Hkey. rewrite IHo.
      * apply Hothers. apply Hkey. apply elem_of_cons. by left.
      * intros g Hg. apply Hkey. apply elem_of_cons. by right.
Qed.

End coordinator.


(** An expired marker (age 1000), a fresh one (age 500), a file without
    marker and a directory entry that is not a work item. *)
Definition demo_locks : Coordinator.LockStore :=
  <["anime_a.json.lock" := {| Coordinator.holder := "1f"; Coordinator.mtime := 0 |}]>
  (<["anime_b.json.lock" := {| Coordinator.holder := "2e"; Coordinator.mtime := 500 |}]> ∅).

Definition demo_listing : list string :=
  ["anime_a.json"; "anime_b.json"; "notes.txt"; "anime_c.json"].


(** ** The tab pool *)

Section pool.
Import Pool.

Lemma scan_browsers_Some (bs : list BrowserInfo) :
  ∀ idx t i bs',
  scan_browsers idx bs = (Some (t, i), bs') →
  ∃ j b free,
    i = (idx + j)%nat ∧ bs !! j = Some b ∧ tabs b = t :: free ∧
    tabs_available b > 0 ∧
    bs' = <[j := {| tabs_available := tabs_available b - 1; tabs := free |}]> bs.
Proof.
  induction bs as [|b bs IH]; intros idx t i bs' H; simpl in H; [done|].
  destruct (bool_decide (tabs_available b > 0)) eqn:Hpos.
  - destruct (tabs b) as [|t0 free] eqn:Htabs.
    + destruct (scan_browsers (S idx) bs) as [found rest'] eqn:Hrec.
      injection H as -> <-.
      destruct (IH _ _ _ _ Hrec) as (j & b' & free & -> & Hj & Ht & Hp & ->).
      exists (S j), b', free. split_and!; [lia|done..].
    + injection H as <- <- <-. exists 0%nat, b, free.
      apply bool_decide_eq_true in Hpos. split_and!; [lia|done..].
  - destruct (scan_browsers (S idx) bs) as [found rest'] eqn:Hrec.
    injection H as -> <-.
    destruct (IH _ _ _ _ Hrec) as (j & b' & free & -> & Hj & Ht & Hp & ->).
    exists (S j), b', free. split_and!; [lia|done..].
Qed.

Lemma scan_browsers_None (bs : list BrowserInfo) :
  ∀ idx bs',
  scan_browsers idx bs = (None, bs') →
  bs' = bs ∧ ∀ b, b ∈ bs → ¬ (tabs_available b > 0 ∧ tabs b ≠ []).
Proof.
  induction bs as [|b bs IH]; intros idx bs' H; simpl in H.
  - injection H as <-. split; [done|]. by intros b ?%elem_of_nil.
  - destruct (bool_decide (tabs_available b > 0)) eqn:Hpos.
    + destruct (tabs b) as [|t0 free] eqn:Htabs; [|done].
      destruct (scan_browsers (S idx) bs) as [found rest'] eqn:Hrec.
      injection H as -> <-. destruct (IH _ _ Hrec) as [-> Hno].
      split; [done|]. intros b' [->|Hb']%elem_of_cons; [|by apply Hno].
      rewrite Htabs. by intros [_ ?].
    + destruct (scan_browsers (S idx) bs) as [found rest'] eqn:Hrec.
      injection H as -> <-. destruct (IH _ _ Hrec) as [-> Hno].
      split; [done|]. intros b' [->|Hb']%elem_of_cons; [|by apply Hno].
      apply bool_decide_eq_false in Hpos. by intros [? _].
Qed.

Lemma free_tabs_insert (bs : list BrowserInfo) (j : nat) (b b' : BrowserInfo) :
  bs !! j = Some b →
  free_tabs (<[j := b']> bs) ++ tabs b ≡ₚ free_tabs bs ++ tabs b'.
Proof.
  intros Hj. assert (j < length bs)%nat by by eapply lookup_lt_Some.
  rewrite insert_take_drop by done.
  rewrite <- (take_drop_middle bs j b Hj) at 3.
  unfold free_tabs. rewrite !fmap_app, !concat_app. simpl. solve_Permutation.
Qed.

Lemma release_tab_insert (t : Tab) (i : nat) (bs : list BrowserInfo) (b : BrowserInfo) :
  bs !! i = Some b →
  release_tab t i bs =
    <[i := {| tabs_available := tabs_available b + 1; tabs := tabs b ++ [t] |}]> bs.
Proof.
  unfold release_tab. revert i. induction bs as [|b0 bs IH]; intros [|i] H; simpl in *;
    try done.
  - by injection H as ->.
  - f_equal. by apply IH.
Qed.

(** What the pool and its callers hold is, up to order, the tabs created
    by [init_browsers]; a tab sits in the free list of the browser it was
    created in, and is held together with that browser. *)
Definition pool_inv (cap : list Tab) (s : PoolState) : Prop :=
  all_tabs s ≡ₚ cap ∧
  (∀ i b t, browsers s !! i = Some b → t ∈ tabs b → t.1 = i) ∧
  (∀ t b, (t, b) ∈ checked_out s → t.1 = b ∧ (b < length (browsers s))%nat).

Lemma remove_one_perm (x : Tab * nat) (l : list (Tab * nat)) :
  x ∈ l → l ≡ₚ x :: remove_one x l.
Proof.
  induction l as [|y l IH]; [by intros ?%elem_of_nil|]. simpl.
  destruct (decide (x = y)) as [->|Hne]; [done|].
  intros [->|Hin]%elem_of_cons; [done|]. rewrite (IH Hin) at 1. apply Permutation_swap.
Qed.

Lemma remove_one_subseteq (x y : Tab * nat) (l : list (Tab * nat)) :
  y ∈ remove_one x l → y ∈ l.
Proof.
  induction l as [|z l IH]; simpl; [done|].
  destruct (decide (x = z)); [by right|].
  intros [->|Hin]%elem_of_cons; [by left|right; auto].
Qed.

Lemma call_inv (cap : list Tab) (c : Call) (s : PoolState) :
  pool_inv cap s →
  match c with Acquire => True | Release t b => (t, b) ∈ checked_out s end →
  pool_inv cap (call c s).
Proof.
  intros (Hperm & Hfree & Hheld) Hc. destruct c as [|t b]; simpl.
  - unfold get_available_tab.
    destruct (scan_browsers 0 (browsers s)) as [[[t i]|] bs'] eqn:Hscan.
    + apply scan_browsers_Some in Hscan as (j & b & free & -> & Hj & Ht & Hpos & ->).
      simpl. split_and!.
      * rewrite <- Hperm. unfold all_tabs. simpl.
        pose proof (free_tabs_insert (browsers s) j b
          {| tabs_available := tabs_available b - 1; tabs := free |} Hj) as Hp.
        simpl in Hp. rewrite Ht in Hp.
        assert (Hq : t :: free_tabs (<[j := {| tabs_available := tabs_available b - 1;
                       tabs := free |}]> (browsers s)) ≡ₚ free_tabs (browsers s)).
        { apply (Permutation_app_inv_r free). rewrite <- Hp. solve_Permutation. }
        rewrite <- Hq. solve_Permutation.
      * simpl. intros i b0 t0 Hi Hin.
        destruct (decide (i = j)) as [->|Hne].
        -- rewrite list_lookup_insert_eq in Hi by by eapply lookup_lt_Some.
           injection Hi as <-. simpl in Hin. apply (Hfree j b t0 Hj).
           rewrite Ht. by right.
        -- rewrite list_lookup_insert_ne in Hi by done. by eapply Hfree.
      * simpl. intros t0 b0 [Heq|Hin]%elem_of_cons.
        -- injection Heq as -> ->. rewrite length_insert. split.
           ++ apply (Hfree j b t Hj). rewrite Ht. by left.
           ++ by eapply lookup_lt_Some.
        -- rewrite length_insert. by apply Hheld.
    + apply scan_browsers_None in Hscan as [-> _]. done.
  - destruct (Hheld t b Hc) as [Hown Hlt].
    destruct (lookup_lt_is_Some_2 _ _ Hlt) as [bi Hbi].
    rewrite (release_tab_insert t b _ bi Hbi). split_and!.
    + rewrite <- Hperm. unfold all_tabs. simpl.
      pose proof (free_tabs_insert (browsers s) b bi
        {| tabs_available := tabs_available bi + 1; tabs := tabs bi ++ [t] |} Hbi) as Hp.
      simpl in Hp.
      assert (Hq : free_tabs (<[b := {| tabs_available := tabs_available bi + 1;
                     tabs := tabs bi ++ [t] |}]> (browsers s))
                   ≡ₚ t :: free_tabs (browsers s)).
      { apply (Permutation_app_inv_r (tabs bi)). rewrite Hp. solve_Permutation. }
      rewrite Hq. rewrite (remove_one_perm (t, b) (checked_out s) Hc) at 2. simpl.
      solve_Permutation.
    + simpl. intros i b0 t0 Hi Hin.
      destruct (decide (i = b)) as [->|Hne].
      * rewrite list_lookup_insert_eq in Hi by done. injection Hi as <-.
        simpl in Hin. apply elem_of_app in Hin as [Hin|Hin%list_elem_of_singleton].
        -- by eapply Hfree.
        -- by subst t0.
      * rewrite list_lookup_insert_ne in Hi by done. by eapply Hfree.
    + simpl. intros t0 b0 Hin%remove_one_subseteq. rewrite length_insert.
      by apply Hheld.
Qed.

Lemma run_inv (cap : list Tab) (calls : list Call) :
  ∀ s, pool_inv cap s → well_paired calls s = true → pool_inv cap (run calls s).
Proof.
  induction calls as [|c calls IH]; intros s Hinv Hwp; simpl in *; [done|].
  apply andb_true_iff in Hwp as [Hc Hwp]. apply IH; [|done].
  apply call_inv; [done|]. destruct c; [done|]. by apply bool_decide_eq_true in Hc.
Qed.

Lemma NoDup_free_tabs (bs : list BrowserInfo) :
  ∀ k,
  (∀ i b, bs !! i = Some b → NoDup (tabs b)) →
  (∀ i b t, bs !! i = Some b → t ∈ tabs b → t.1 = (k + i)%nat) →
  NoDup (free_tabs bs).
Proof.
  induction bs as [|b bs IH]; intros k Hnd Hown; [apply NoDup_nil_2|].
  unfold free_tabs. simpl. apply NoDup_app. split_and!.
  - apply (Hnd 0%nat b eq_refl).
  - intros t Ht Hin. apply list_elem_of_In, in_concat in Hin as (l & Hl & Htl).
    apply list_elem_of_In in Hl, Htl.
    apply list_elem_of_fmap in Hl as (b' & -> & Hb').
    apply list_elem_of_lookup in Hb' as [i Hi].
    pose proof (Hown 0%nat b t eq_refl Ht). pose proof (Hown (S i) b' t Hi Htl). lia.
  - apply (IH (S k)).
    + intros i b' Hi. by apply (Hnd (S i)).
    + intros i b' t Hi Ht. rewrite (Hown (S i) b' t Hi Ht). lia.
Qed.

Lemma init_browsers_inv (mb mt : Z) (launch_ok : nat → bool) (tab_ok : nat → nat → bool) :
  let bs := init_browsers mb mt launch_ok tab_ok in
  NoDup (free_tabs bs) ∧
  pool_inv (free_tabs bs) {| browsers := bs; checked_out := [] |}.
Proof.
  simpl.
  assert (Hown : ∀ i b t, init_browsers mb mt launch_ok tab_ok !! i = Some b →
                          t ∈ tabs b → t.1 = i).
  { intros i b t Hi Ht. unfold init_browsers in Hi.
    rewrite list_lookup_imap in Hi.
    destruct (filter _ (seq 0 (Z.to_nat mb)) !! i) as [x|]; [|done].
    simpl in Hi. injection Hi as <-. simpl in Ht.
    apply list_elem_of_fmap in Ht as (ti & -> & _). done. }
  split.
  - apply (NoDup_free_tabs _ 0%nat); [|done].
    intros i b Hi. unfold init_browsers in Hi. rewrite list_lookup_imap in Hi.
    destruct (filter _ (seq 0 (Z.to_nat mb)) !! i) as [x|]; [|done].
    simpl in Hi. injection Hi as <-. simpl.
    apply NoDup_fmap_2; [by intros ?? [=]|]. apply NoDup_filter, NoDup_seq.
  - split_and!.
    + unfold all_tabs. simpl. by rewrite (right_id_L [] (++)).
    + done.
    + simpl. by intros t b ?%elem_of_nil.
Qed.

End pool.

(** C2. Conservation of the pool: from the pool built by [init_browsers]
    (whatever launches and page creations failed), after any sequence of
    acquire and release calls in which a release gives back a checked-out tab
    (what [process_single_episode] does in its [finally]), the number of tabs
    in the free lists plus the number of tabs checked out equals the initial
    capacity; the free and checked-out tabs are pairwise distinct, so no tab is
    both free and checked out nor checked out twice; every checked-out tab is
    held with the browser that owns it; and the next acquisition issues a tab
    that is not checked out. *)
Theorem pool_conservation
    (max_browsers max_tabs_per_browser : Z)
    (launch_ok : nat → bool) (tab_ok : nat → nat → bool)
    (calls : list Pool.Call) :
  let init := {| Pool.browsers :=
                   Pool.init_browsers max_browsers max_tabs_per_browser launch_ok tab_ok;
                 Pool.checked_out := [] |} in
  Pool.well_paired calls init = true →
  (Pool.free_count (Pool.browsers (Pool.run calls init))
     + length (Pool.checked_out (Pool.run calls init))
   = Pool.free_count (Pool.browsers init))%nat ∧
  NoDup (Pool.all_tabs (Pool.run calls init)) ∧
  (∀ tab b, (tab, b) ∈ Pool.checked_out (Pool.run calls init) → tab.1 = b) ∧
  (∀ tab b browsers',
     Pool.get_available_tab (Pool.browsers (Pool.run calls init))
       = (Some (tab, b), browsers') →
     (tab ∉ fst <$> Pool.checked_out (Pool.run calls init)) ∧
     tab ∉ Pool.free_tabs browsers').
Proof.
  intros init Hwp.
  destruct (init_browsers_inv max_browsers max_tabs_per_browser launch_ok tab_ok)
    as [Hnd Hinit].
  pose proof (run_inv _ calls init Hinit Hwp) as Hinv.
  assert (Hnd' : NoDup (Pool.all_tabs (Pool.run calls init))).
  { destruct Hinv as (Hperm & _). by rewrite Hperm. }
  split_and!.
  - destruct Hinv as (Hperm & _). apply Permutation_length in Hperm.
    unfold Pool.all_tabs in Hperm. rewrite length_app, length_fmap in Hperm.
    unfold Pool.free_count. exact Hperm.
  - exact Hnd'.
  - intros tab b Hin. destruct Hinv as (_ & _ & Hheld). by apply Hheld.
  - intros tab b browsers' Hget.
    pose proof (call_inv _ Pool.Acquire _ Hinv I) as (Hperm' & _).
    simpl in Hperm'. rewrite Hget in Hperm'. unfold Pool.all_tabs in Hperm'.
    simpl in Hperm'. rewrite <- Hperm' in Hnd.
    apply NoDup_app in Hnd as (_ & Hdisj & Hnd2).
    apply NoDup_cons in Hnd2 as [Hnotin _]. split; [done|].
    intros Hfree. apply (Hdisj tab Hfree). by left.
Qed.

(** Two browsers with two tabs each; two tasks take a tab, the first gives
    its tab back, a third task takes one. *)
Definition demo_calls : list Pool.Call :=
  [Pool.Acquire; Pool.Acquire; Pool.Release (0%nat, 0%nat) 0%nat; Pool.Acquire].

Definition demo_pool : Pool.PoolState :=
  {| Pool.browsers := Pool.init_browsers 2 2 (λ _, true) (λ _ _, true);
     Pool.checked_out := [] |}.

Lemma pool_conservation_witness :
  Pool.well_paired demo_calls demo_pool = true ∧
  (Pool.free_count (Pool.browsers (Pool.run demo_calls demo_pool))
     + length (Pool.checked_out (Pool.run demo_calls demo_pool)) = 4)%nat ∧
  NoDup (Pool.all_tabs (Pool.run demo_calls demo_pool)).
Proof.
  assert (Hwp : Pool.well_paired demo_calls demo_pool = true) by by vm_compute.
  split; [exact Hwp|].
  destruct (pool_conservation 2 2 (λ _, true) (λ _ _, true) demo_calls Hwp)
    as (Hcount & Hnd & _).
  split; [exact Hcount|exact Hnd].
Defined.

(** ** Tasks competing for tabs *)

Section wave.
Import Pool Wave.
Variable work : nat → nat.

Lemma owed_from_insert (ts : list Task) :
  ∀ k i t t',
  ts !! i = Some t →
  (owed_from work k (<[i := t']> ts) + owed work (k + i) t
   = owed_from work k ts + owed work (k + i) t')%nat.
Proof.
  induction ts as [|t0 ts IH]; intros k [|i] t t' Hi; simpl in *; try done.
  - injection Hi as ->. rewrite Nat.add_0_r. lia.
  - specialize (IH (S k) i t t' Hi).
    replace (k + S i)%nat with (S k + i)%nat by lia. lia.
Qed.

Lemma holding_insert (ts : list Task) :
  ∀ i t t',
  ts !! i = Some t →
  (length (filter (λ t, is_holding t = true) (<[i := t']> ts))
     + (if is_holding t then 1 else 0)
   = length (filter (λ t, is_holding t = true) ts)
     + (if is_holding t' then 1 else 0))%nat.
Proof.
  induction ts as [|t0 ts IH]; intros [|i] t t' Hi; simpl in *; try done.
  - injection Hi as ->. rewrite !filter_cons.
    destruct (is_holding t) eqn:Ht, (is_holding t') eqn:Ht';
      repeat case_decide; simpl; try congruence; lia.
  - specialize (IH i t t' Hi). rewrite !filter_cons.
    destruct (decide (is_holding t0 = true)); simpl; lia.
Qed.

Lemma free_count_acquire (bs bs' : list BrowserInfo) (t : Tab) (i : nat) :
  get_available_tab bs = (Some (t, i), bs') →
  free_count bs = S (free_count bs') ∧ length bs' = length bs ∧
  (i < length bs)%nat ∧
  (∀ j b', bs' !! j = Some b' →
     ∃ b, bs !! j = Some b ∧
       tabs_available b' - Z.of_nat (length (tabs b'))
         = tabs_available b - Z.of_nat (length (tabs b))).
Proof.
  intros H. apply scan_browsers_Some in H as (j & b & free & -> & Hj & Ht & Hp & ->).
  assert (j < length bs)%nat by by eapply lookup_lt_Some.
  pose proof (free_tabs_insert bs j b
    {| tabs_available := tabs_available b - 1; tabs := free |} Hj) as Hperm.
  apply Permutation_length in Hperm. rewrite !length_app, Ht in Hperm. simpl in Hperm.
  unfold free_count. rewrite length_insert. split_and!; [lia|done|done|].
  intros j' b' Hj'. destruct (decide (j' = j)) as [->|Hne].
  - rewrite list_lookup_insert_eq in Hj' by done. injection Hj' as <-.
    exists b. split; [done|]. rewrite Ht. simpl. lia.
  - rewrite list_lookup_insert_ne in Hj' by done. by exists b'.
Qed.

Lemma free_count_release (bs : list BrowserInfo) (t : Tab) (i : nat) :
  (i < length bs)%nat →
  free_count (release_tab t i bs) = S (free_count bs) ∧
  length (release_tab t i bs) = length bs ∧
  (∀ j b', release_tab t i bs !! j = Some b' →
     ∃ b, bs !! j = Some b ∧
       tabs_available b' - Z.of_nat (length (tabs b'))
         = tabs_available b - Z.of_nat (length (tabs b))).
Proof.
  intros Hlt. destruct (lookup_lt_is_Some_2 _ _ Hlt) as [b Hb].
  rewrite (release_tab_insert t i bs b Hb).
  pose proof (free_tabs_insert bs i b
    {| tabs_available := tabs_available b + 1; tabs := tabs b ++ [t] |} Hb) as Hperm.
  apply Permutation_length in Hperm. simpl in Hperm.
  rewrite !length_app in Hperm. simpl in Hperm.
  unfold free_count. rewrite length_insert. split_and!; [lia|done|].
  intros j b' Hj. destruct (decide (j = i)) as [->|Hne].
  - rewrite list_lookup_insert_eq in Hj by done. injection Hj as <-.
    exists b. split; [done|]. simpl. rewrite length_app. simpl. lia.
  - rewrite list_lookup_insert_ne in Hj by done. by exists b'.
Qed.

(** The counter of a browser never falls below the length of its free
    list, held tabs name a browser of the pool, and the number of tabs in
    play is [c]. *)
Definition wave_inv (c : nat) (s : System) : Prop :=
  tabs_in_play s = c ∧
  (∀ j b, pool s !! j = Some b → 0 ≤ tabs_available b - Z.of_nat (length (tabs b))) ∧
  (∀ i t b n, tasks s !! i = Some (Holding t b n) → (b < length (pool s))%nat).

Lemma resume_inv (c : nat) (i : nat) (s : System) :
  wave_inv c s → wave_inv c (resume work i s) ∧
  length (tasks (resume work i s)) = length (tasks s).
Proof.
  intros (Hc & Hcnt & Hheld). unfold resume.
  destruct (tasks s !! i) as [[|t b [|n]|]|] eqn:Hi; [| | |done..].
  - destruct (get_available_tab (pool s)) as [[[t b]|] pool'] eqn:Hget; [|done].
    apply free_count_acquire in Hget as (Hfc & Hlen & Hlt & Hdiff).
    split; [|by simpl; rewrite length_insert]. split_and!.
    + unfold tabs_in_play in *. simpl.
      pose proof (holding_insert (tasks s) i Waiting (Holding t b (work i)) Hi) as Hh.
      simpl in Hh. lia.
    + simpl. intros j b' Hj. destruct (Hdiff j b' Hj) as (b0 & Hb0 & ->).
      by eapply Hcnt.
    + simpl. intros i' t' b' n' Hi'. rewrite Hlen.
      destruct (decide (i' = i)) as [->|Hne].
      * rewrite list_lookup_insert_eq in Hi' by by eapply lookup_lt_Some.
        by injection Hi' as <- <- <-.
      * rewrite list_lookup_insert_ne in Hi' by done. by eapply Hheld.
  - pose proof (Hheld i t b 0%nat Hi) as Hlt.
    destruct (free_count_release (pool s) t b Hlt) as (Hfc & Hlen & Hdiff).
    split; [|by simpl; rewrite length_insert]. split_and!.
    + unfold tabs_in_play in *. simpl.
      pose proof (holding_insert (tasks s) i (Holding t b 0) Done Hi) as Hh.
      simpl in Hh. lia.
    + simpl. intros j b' Hj. destruct (Hdiff j b' Hj) as (b0 & Hb0 & ->).
      by eapply Hcnt.
    + simpl. intros i' t' b' n' Hi'. rewrite Hlen.
      destruct (decide (i' = i)) as [->|Hne].
      * rewrite list_lookup_insert_eq in Hi' by by eapply lookup_lt_Some. done.
      * rewrite list_lookup_insert_ne in Hi' by done. by eapply Hheld.
  - split; [|by simpl; rewrite length_insert]. split_and!.
    + unfold tabs_in_play in *. simpl.
      pose proof (holding_insert (tasks s) i (Holding t b (S n)) (Holding t b n) Hi) as Hh.
      simpl in Hh. lia.
    + done.
    + simpl. intros i' t' b' n' Hi'.
      destruct (decide (i' = i)) as [->|Hne].
      * rewrite list_lookup_insert_eq in Hi' by by eapply lookup_lt_Some.
        injection Hi' as <- <- <-. by eapply Hheld.
      * rewrite list_lookup_insert_ne in Hi' by done. by eapply Hheld.
Qed.

(** A turn either pays one owed turn or leaves the system as it is. *)
Lemma resume_owed (i : nat) (s : System) :
  (total_owed work (resume work i s) < total_owed work s)%nat ∨ resume work i s = s.
Proof.
  unfold resume, total_owed.
  destruct (tasks s !! i) as [[|t b [|n]|]|] eqn:Hi; [| | |by right..].
  - destruct (get_available_tab (pool s)) as [[[t b]|] pool'] eqn:Hget; [|by right].
    left. simpl.
    pose proof (owed_from_insert (tasks s) 0%nat i Waiting (Holding t b (work i)) Hi) as H.
    simpl in H. lia.
  - left. simpl.
    pose proof (owed_from_insert (tasks s) 0%nat i (Holding t b 0) Done Hi) as H.
    simpl in H. lia.
  - left. simpl.
    pose proof (owed_from_insert (tasks s) 0%nat i (Holding t b (S n)) (Holding t b n) Hi) as H.
    simpl in H. lia.
Qed.

Lemma run_schedule_owed (schedule : list nat) :
  ∀ s, (total_owed work (run_schedule work schedule s) ≤ total_owed work s)%nat.
Proof.
  induction schedule as [|i schedule IH]; intros s; simpl; [done|].
  specialize (IH (resume work i s)).
  destruct (resume_owed i s) as [Hlt|Heq]; [lia|]. by rewrite Heq in IH |- *.
Qed.

Lemma run_schedule_inv (c : nat) (schedule : list nat) :
  ∀ s, wave_inv c s →
  wave_inv c (run_schedule work schedule s) ∧
  length (tasks (run_schedule work schedule s)) = length (tasks s).
Proof.
  induction schedule as [|i schedule IH]; intros s Hinv; simpl; [done|].
  destruct (resume_inv c i s Hinv) as [Hinv' Hlen].
  destruct (IH _ Hinv') as [Hinv'' Hlen']. split; [done|]. by rewrite Hlen'.
Qed.

Lemma owed_from_pending (ts : list Task) :
  ∀ k, (0 < owed_from work k ts)%nat →
  ∃ i t, ts !! i = Some t ∧ is_done t = false.
Proof.
  induction ts as [|t ts IH]; intros k H; simpl in H; [lia|].
  destruct t as [|t b n|].
  - by exists 0%nat, Waiting.
  - by exists 0%nat, (Holding t b n).
  - simpl in H. destruct (IH (S k) H) as (i & t & Hi & Ht). by exists (S i), t.
Qed.

Lemma owed_from_zero (ts : list Task) :
  ∀ k, owed_from work k ts = 0%nat → Forall (λ t, t = Done) ts.
Proof.
  induction ts as [|t ts IH]; intros k H; simpl in H; [by apply Forall_nil_2|].
  destruct t as [|t b n|]; simpl in H; [lia|lia|].
  apply Forall_cons. split; [done|]. by apply (IH (S k)).
Qed.

Lemma free_count_none (bs : list BrowserInfo) :
  (∀ b, b ∈ bs → tabs b = []) → free_count bs = 0%nat.
Proof.
  unfold free_count, free_tabs. induction bs as [|b bs IH]; intros H; simpl; [done|].
  rewrite length_app, (H b) by by left. simpl. apply IH. intros b' Hb'. apply H. by right.
Qed.

(** With a tab in a free list the scan finds one. *)
Lemma get_available_tab_finds (bs : list BrowserInfo) :
  (∀ j b, bs !! j = Some b → 0 ≤ tabs_available b - Z.of_nat (length (tabs b))) →
  (0 < free_count bs)%nat →
  ∃ t i bs', get_available_tab bs = (Some (t, i), bs').
Proof.
  intros Hcnt Hfree. unfold get_available_tab.
  destruct (scan_browsers 0 bs) as [[[t i]|] bs'] eqn:Hscan; [by eauto|].
  apply scan_browsers_None in Hscan as [_ Hno].
  rewrite free_count_none in Hfree; [lia|].
  intros b Hb. destruct (tabs b) as [|t0 free] eqn:Ht; [done|]. exfalso.
  apply (Hno b Hb). apply list_elem_of_lookup in Hb as [j Hj].
  specialize (Hcnt j b Hj). rewrite Ht in Hcnt |- *. simpl in Hcnt. split; [lia|done].
Qed.

Lemma filter_holding_nil (ts : list Task) :
  filter (λ t, is_holding t = true) ts = [] →
  ∀ i t, ts !! i = Some t → is_holding t = false.
Proof.
  intros Hnil i t Hi. destruct (is_holding t) eqn:Ht; [|done].
  assert (t ∈ filter (λ t, is_holding t = true) ts) as Hin.
  { apply list_elem_of_filter. split; [done|]. by eapply list_elem_of_lookup_2. }
  rewrite Hnil in Hin. by apply elem_of_nil in Hin.
Qed.

(** No deadlock: while a task is unfinished, some task can take a turn
    that pays. *)
Lemma enabled_exists (c : nat) (s : System) :
  wave_inv c s → (0 < c)%nat →
  (∃ i t, tasks s !! i = Some t ∧ is_done t = false) →
  ∃ j, (j < length (tasks s))%nat ∧
       (total_owed work (resume work j s) < total_owed work s)%nat.
Proof.
  intros (Hc & Hcnt & Hheld) Hpos (i & t & Hi & Ht).
  destruct (filter (λ t, is_holding t = true) (tasks s)) as [|h hs] eqn:Hfil.
  - pose proof (filter_holding_nil _ Hfil i t Hi) as Hnh.
    destruct t as [|? ? ?|]; [|done|done].
    unfold tabs_in_play in Hc. rewrite Hfil in Hc. simpl in Hc.
    destruct (get_available_tab_finds (pool s) Hcnt) as (t & b & pool' & Hget); [lia|].
    exists i. split; [by eapply lookup_lt_Some|].
    unfold resume, total_owed. rewrite Hi, Hget. simpl.
    pose proof (owed_from_insert (tasks s) 0%nat i Waiting (Holding t b (work i)) Hi) as H.
    simpl in H. lia.
  - assert (h ∈ filter (λ t, is_holding t = true) (tasks s)) as Hin
      by (rewrite Hfil; by left).
    apply list_elem_of_filter in Hin as [Hh Hin].
    apply list_elem_of_lookup in Hin as [j Hj].
    exists j. split; [by eapply lookup_lt_Some|].
    destruct (resume_owed j s) as [Hlt|Heq]; [done|]. exfalso.
    unfold resume in Heq. rewrite Hj in Heq.
    destruct h as [|t0 b0 [|n0]|]; [done| | |done].
    + apply (f_equal tasks) in Heq. simpl in Heq.
      apply (f_equal (λ l, l !! j)) in Heq.
      rewrite list_lookup_insert_eq in Heq by by eapply lookup_lt_Some. congruence.
    + apply (f_equal tasks) in Heq. simpl in Heq.
      apply (f_equal (λ l, l !! j)) in Heq.
      rewrite list_lookup_insert_eq in Heq by by eapply lookup_lt_Some.
      rewrite Hj in Heq. injection Heq. lia.
Qed.

Lemma round_progress (round : list nat) :
  ∀ s,
  (∃ j, j ∈ round ∧ (total_owed work (resume work j s) < total_owed work s)%nat) →
  (total_owed work (run_schedule work round s) < total_owed work s)%nat.
Proof.
  induction round as [|i round IH]; intros s (j & Hj & Hlt); simpl.
  - by apply elem_of_nil in Hj.
  - pose proof (run_schedule_owed round (resume work i s)) as Hle.
    destruct (resume_owed i s) as [Hi|Heq]; [lia|].
    rewrite Heq in Hle |- *. apply IH. exists j. split; [|done].
    apply elem_of_cons in Hj as [->|Hj]; [|done]. rewrite Heq in Hlt. lia.
Qed.

Lemma rounds_finish (c : nat) (rounds : list (list nat)) :
  ∀ s,
  wave_inv c s → (0 < c)%nat →
  Forall (fair_round (length (tasks s))) rounds →
  (total_owed work (run_schedule work (concat rounds) s)
   ≤ total_owed work s - length rounds)%nat.
Proof.
  induction rounds as [|round rounds IH]; intros s Hinv Hpos Hfair; simpl.
  - lia.
  - apply Forall_cons in Hfair as [Hround Hfair].
    unfold run_schedule. rewrite foldl_app. fold (run_schedule work round s).
    fold (run_schedule work (concat rounds) (run_schedule work round s)).
    destruct (run_schedule_inv c round s Hinv) as [Hinv' Hlen].
    rewrite <- Hlen in Hfair. specialize (IH _ Hinv' Hpos Hfair).
    destruct (decide (total_owed work s = 0%nat)) as [Hz|Hnz].
    + pose proof (run_schedule_owed round s). lia.
    + assert (total_owed work (run_schedule work round s) < total_owed work s)%nat; [|lia].
      apply round_progress.
      destruct (enabled_exists c s Hinv Hpos) as (j & Hj & Hlt).
      { apply (owed_from_pending _ 0%nat). unfold total_owed in Hnz. lia. }
      exists j. split; [by apply Hround|done].
Qed.

(** A finished task held a tab at some earlier point of the schedule. *)
Lemma done_was_holding (n : nat) (bs : list BrowserInfo) (schedule : list nat) :
  ∀ i, tasks (run_schedule work schedule (start bs n)) !! i = Some Done →
  ∃ k t b m,
    tasks (run_schedule work (take k schedule) (start bs n)) !! i
      = Some (Holding t b m).
Proof.
  induction schedule as [|j schedule IH] using rev_ind; intros i Hi.
  - simpl in Hi. apply lookup_replicate in Hi as [? _]. done.
  - unfold run_schedule in Hi. rewrite foldl_app in Hi. simpl in Hi.
    fold (run_schedule work schedule (start bs n)) in Hi.
    set (s := run_schedule work schedule (start bs n)) in *.
    assert (Hcase : tasks s !! i = Some Done ∨
                    ∃ t b m, tasks s !! i = Some (Holding t b m)).
    { unfold resume in Hi.
      destruct (tasks s !! j) as [[|t b [|m]|]|] eqn:Hj; [| | |by left..].
      - destruct (get_available_tab (pool s)) as [[[t b]|] pool']; [|by left].
        simpl in Hi. destruct (decide (i = j)) as [->|Hne].
        + rewrite list_lookup_insert_eq in Hi by by eapply lookup_lt_Some. done.
        + rewrite list_lookup_insert_ne in Hi by done. by left.
      - simpl in Hi. destruct (decide (i = j)) as [->|Hne]; [right; eauto|].
        rewrite list_lookup_insert_ne in Hi by done. by left.
      - simpl in Hi. destruct (decide (i = j)) as [->|Hne]; [right; eauto|].
        rewrite list_lookup_insert_ne in Hi by done. by left. }
    destruct Hcase as [Hd|(t & b & m & Hh)].
    + destruct (IH i Hd) as (k & t & b & m & Hk).
      exists (k `min` length schedule)%nat, t, b, m.
      rewrite take_app_le by lia.
      by rewrite <- take_take, (take_ge schedule (length schedule)) by lia.
    + exists (length schedule), t, b, m. by rewrite take_app_length.
Qed.

End wave.

Lemma init_browsers_counter (mb mt : Z) (launch_ok : nat → bool) (tab_ok : nat → nat → bool) :
  (0 < Pool.free_count (Pool.init_browsers mb mt launch_ok tab_ok))%nat →
  ∀ j b, Pool.init_browsers mb mt launch_ok tab_ok !! j = Some b →
         0 ≤ Pool.tabs_available b - Z.of_nat (length (Pool.tabs b)).
Proof.
  intros Hfree j b Hj.
  assert (Hshape : ∀ j b, Pool.init_browsers mb mt launch_ok tab_ok !! j = Some b →
            Pool.tabs_available b = mt ∧ (length (Pool.tabs b) ≤ Z.to_nat mt)%nat).
  { clear. intros j b Hj. unfold Pool.init_browsers in Hj.
    rewrite list_lookup_imap in Hj.
    destruct (filter _ (seq 0 (Z.to_nat mb)) !! j) as [x|]; [|done].
    simpl in Hj. injection Hj as <-. simpl. split; [done|].
    rewrite length_fmap.
    etrans; [apply length_filter|]. by rewrite length_seq. }
  destruct (decide (0 < mt)) as [Hpos|Hneg].
  - destruct (Hshape j b Hj) as [-> Hlen]. lia.
  - exfalso. rewrite free_count_none in Hfree; [lia|].
    intros b' Hb'. apply list_elem_of_lookup in Hb' as [j' Hj'].
    destruct (Hshape j' b' Hj') as [_ Hlen].
    replace (Z.to_nat mt) with 0%nat in Hlen by lia.
    destruct (Pool.tabs b'); [done|simpl in Hlen; lia].
Qed.

Lemma start_inv (mb mt : Z) (launch_ok : nat → bool) (tab_ok : nat → nat → bool) (n : nat) :
  (0 < Pool.free_count (Pool.init_browsers mb mt launch_ok tab_ok))%nat →
  wave_inv (Pool.free_count (Pool.init_browsers mb mt launch_ok tab_ok))
           (Wave.start (Pool.init_browsers mb mt launch_ok tab_ok) n).
Proof.
  intros Hfree. split_and!.
  - unfold Wave.tabs_in_play, Wave.start. simpl.
    assert (filter (λ t, Wave.is_holding t = true) (replicate n Wave.Waiting) = []) as ->.
    { induction n as [|n IH]; [done|]. simpl. rewrite filter_cons.
      case_decide; [done|]. exact IH. }
    simpl. lia.
  - simpl. by apply init_browsers_counter.
  - simpl. intros i t b m Hi. apply lookup_replicate in Hi as [? _]. done.
Qed.

Lemma all_done_none_holding (ts : list Wave.Task) :
  Forall (λ t, t = Wave.Done) ts →
  filter (λ t, Wave.is_holding t = true) ts = [].
Proof.
  induction 1 as [|t ts -> _ IH]; [done|].
  rewrite filter_cons. case_decide; [done|]. exact IH.
Qed.



(** ** Batches *)

Section batches.
Import Batch.
Context {A : Type}.

(** [ws] cuts [l] into consecutive batches of [w] entries: as many as
    [ceil (length l / w)], each of at most [w] entries, all but the last of
    exactly [w], the last of [length l mod w] entries, or [w] when [w]
    divides the length. *)
Definition partitioned (w : nat) (l : list A) (ws : list (list A)) : Prop :=
  concat ws = l ∧
  length ws = ((length l + w - 1) `div` w)%nat ∧
  ∀ k batch, ws !! k = Some batch →
    (length batch ≤ w)%nat ∧
    ((S k < length ws)%nat → length batch = w) ∧
    (S k = length ws →
       length batch = if decide (length l `mod` w = 0)%nat then w
                      else (length l `mod` w)%nat).

Lemma ceil_div_small (n w : nat) :
  (0 < n)%nat → (n ≤ w)%nat → ((n + w - 1) `div` w = 1)%nat.
Proof.
  intros Hn Hw. symmetry. apply (Nat.div_unique _ _ _ (n - 1)%nat); lia.
Qed.

Lemma ceil_div_step (n w : nat) :
  (0 < w)%nat → (w < n)%nat →
  ((n + w - 1) `div` w = S ((n - w + w - 1) `div` w))%nat.
Proof.
  intros Hw Hn. replace (n + w - 1)%nat with ((n - w + w - 1) + 1 * w)%nat by lia.
  rewrite Nat.div_add by lia. lia.
Qed.

Lemma mod_step (n w : nat) :
  (0 < w)%nat → (w ≤ n)%nat → ((n - w) `mod` w = n `mod` w)%nat.
Proof.
  intros Hw Hn. replace n with ((n - w) + 1 * w)%nat at 2 by lia.
  by rewrite Nat.Div0.mod_add.
Qed.

Lemma waves_from (w : nat) (l : list A) :
  (0 < w)%nat →
  ∀ fuel i, (length l - i ≤ fuel)%nat →
  partitioned w (drop i l)
    ((λ j, take w (drop j l)) <$> range_from fuel i (length l) w).
Proof.
  intros Hw. induction fuel as [|fuel IH]; intros i Hfuel.
  - simpl. rewrite drop_ge by lia. split_and!; [done| |done].
    simpl. symmetry. apply Nat.div_small. lia.
  - simpl. case_bool_decide as Hi.
    + rewrite fmap_cons.
      destruct (IH (i + w)%nat) as (Hcat & Hlen & Heach); [lia|].
      set (ws := (λ j, take w (drop j l)) <$> range_from fuel (i + w) (length l) w) in *.
      assert (Hdrop : drop (i + w) l = drop w (drop i l))
        by (rewrite drop_drop; f_equal; lia).
      rewrite Hdrop in Hcat, Hlen, Heach.
      set (r := drop i l) in *.
      assert (Hr : length r = (length l - i)%nat) by apply length_drop.
      rewrite length_drop in Hlen, Heach.
      split_and!.
      * change (take w r ++ concat ws = r). rewrite Hcat. apply take_drop.
      * change (S (length ws) = ((length r + w - 1) `div` w)%nat).
        rewrite Hlen. destruct (decide (length r ≤ w)%nat).
        -- rewrite (ceil_div_small (length r) w) by lia.
           replace (length r - w + w - 1)%nat with (w - 1)%nat by lia.
           rewrite Nat.div_small; lia.
        -- by rewrite (ceil_div_step (length r) w) by lia.
      * intros [|k] batch Hk; simpl in Hk.
        -- injection Hk as <-. rewrite length_take. split_and!; [lia| |].
           ++ intros Hmore. destruct (decide (length r ≤ w)%nat); [|lia].
              exfalso. change (2 ≤ S (length ws))%nat in Hmore. rewrite Hlen in Hmore.
              replace (length r - w + w - 1)%nat with (w - 1)%nat in Hmore by lia.
              rewrite Nat.div_small in Hmore; lia.
           ++ intros Hlast. change (1 = S (length ws))%nat in Hlast.
              assert (length ws = 0)%nat as Hz by lia.
              rewrite Hlen in Hz.
              destruct (decide (length r ≤ w)%nat) as [Hle|Hgt].
              ** destruct (decide (length r `mod` w = 0)%nat) as [Hmod|Hmod].
                 --- apply Nat.Lcm0.mod_divide in Hmod as [q Hq].
                     destruct q as [|[|q]]; [lia|lia|nia].
                 --- destruct (decide (length r = w)) as [Heq|Hne].
                     +++ exfalso. apply Hmod. rewrite Heq. apply Nat.Div0.mod_same.
                     +++ rewrite Nat.mod_small; lia.
              ** exfalso. apply Nat.div_small_iff in Hz; lia.
        -- destruct (Heach k batch Hk) as (Hle & Hfull & Hlast).
           split_and!; [done| |].
           ++ intros Hmore. change (S (S k) < S (length ws))%nat in Hmore.
              apply Hfull. lia.
           ++ intros Hl. change (S (S k) = S (length ws))%nat in Hl.
              rewrite Hlast by lia.
              assert (w ≤ length r)%nat.
              { destruct (decide (w ≤ length r)%nat); [done|]. exfalso.
                assert (length ws = 0)%nat; [|lia]. rewrite Hlen.
                replace (length r - w + w - 1)%nat with (w - 1)%nat by lia.
                apply Nat.div_small. lia. }
              by rewrite mod_step by lia.
    + rewrite drop_ge by lia. split_and!; [done| |done].
      simpl. symmetry. apply Nat.div_small. lia.
Qed.

(** The batches of [process_file] partition the pending list. *)
Lemma waves_partitioned (l : list A) (batch_size : Z) :
  0 < batch_size → partitioned (Z.to_nat batch_size) l (waves l batch_size).
Proof.
  intros Hpos. unfold waves, py_range, slice.
  rewrite bool_decide_eq_true_2 by done.
  pose proof (waves_from (Z.to_nat batch_size) l) as H.
  specialize (H ltac:(lia) (length l) 0%nat ltac:(lia)). by rewrite drop_0 in H.
Qed.

End batches.

(** C5, amended. [process_file] cuts the pending list into consecutive
    batches: for a batch size [W > 0] there are [ceil (P / W)] of them, of at
    most [W] entries each, the last one holding [P mod W] entries (or [W] when
    [W] divides [P]). In v.py [W] is [max_browsers * max_tabs_per_browser],
    fixed for the run; in ser.py [W] is the constant 5, whatever the capacity
    of the pool. *)
Theorem wave_sizing (cfg : Runtime.Config) (all_pending : list nat) :
  0 < Runtime.max_browsers cfg * Runtime.max_tabs_per_browser cfg →
  V.batch_size cfg = Runtime.max_browsers cfg * Runtime.max_tabs_per_browser cfg ∧
  partitioned (Z.to_nat (V.batch_size cfg)) all_pending
    (Batch.waves all_pending (V.batch_size cfg)) ∧
  Ser.batch_size = 5 ∧
  partitioned 5 all_pending (Batch.waves all_pending Ser.batch_size).
Proof.
  intros Hpos. split_and!.
  - done.
  - by apply waves_partitioned.
  - done.
  - by apply (waves_partitioned all_pending Ser.batch_size).
Qed.

Definition demo_cfg : Runtime.Config :=
  {| Runtime.instance_id := "INST-01";
     Runtime.coordinator_id := "9f3a6c1e";
     Runtime.max_browsers := 3;
     Runtime.max_tabs_per_browser := 3;
     Runtime.failure_logger := true |}.

(** Scenario A of the spec: 7 pending sub-items, wave size 3 (one browser
    with three tabs): waves of sizes 3, 3, 1. *)
Lemma wave_sizing_witness :
  length <$> Batch.waves (seq 0 7)
     (V.batch_size {| Runtime.instance_id := "INST-01";
                      Runtime.coordinator_id := "9f3a6c1e";
                      Runtime.max_browsers := 1;
                      Runtime.max_tabs_per_browser := 3;
                      Runtime.failure_logger := false |})
    = [3; 3; 1]%nat ∧
  partitioned 3 (seq 0 7)
    (Batch.waves (seq 0 7)
       (V.batch_size {| Runtime.instance_id := "INST-01";
                        Runtime.coordinator_id := "9f3a6c1e";
                        Runtime.max_browsers := 1;
                        Runtime.max_tabs_per_browser := 3;
                        Runtime.failure_logger := false |})).
Proof.
  split; [by vm_compute|].
  refine (proj1 (proj2 (wave_sizing
            {| Runtime.instance_id := "INST-01";
               Runtime.coordinator_id := "9f3a6c1e";
               Runtime.max_browsers := 1;
               Runtime.max_tabs_per_browser := 3;
               Runtime.failure_logger := false |} (seq 0 7) _))).
  simpl. lia.
Defined.

(** With three browsers of three tabs (capacity 9) and 6 pending
    sub-items, ser.py runs two batches (of 5 and 1): not the single batch a
    wave size of 9 gives. *)
Lemma ser_wave_size_is_not_capacity :
  length <$> Batch.waves (seq 0 6) Ser.batch_size = [5; 1]%nat ∧
  ¬ partitioned
      (Z.to_nat (Runtime.max_browsers demo_cfg * Runtime.max_tabs_per_browser demo_cfg))
      (seq 0 6) (Batch.waves (seq 0 6) Ser.batch_size).
Proof.
  split; [by vm_compute|].
  intros (_ & Hlen & _). vm_compute in Hlen. discriminate.
Qed.

(** ** Tasks and batches on the state *)

Section runtime.
Import Exec Json Runtime.

(** A pool from which a scan returns a tab. *)
Definition pool_ready (bs : list Pool.BrowserInfo) : Prop :=
  (∀ j b, bs !! j = Some b →
          0 ≤ Pool.tabs_available b - Z.of_nat (length (Pool.tabs b))) ∧
  (0 < Pool.free_count bs)%nat.

Lemma init_browsers_ready (mb mt : Z) (launch_ok : nat → bool) (tab_ok : nat → nat → bool) :
  (0 < Pool.free_count (Pool.init_browsers mb mt launch_ok tab_ok))%nat →
  pool_ready (Pool.init_browsers mb mt launch_ok tab_ok).
Proof. intros H. split; [by apply init_browsers_counter|done]. Qed.

Lemma acquire_release_ready (bs bs' : list Pool.BrowserInfo) (t : Pool.Tab) (i : nat) :
  pool_ready bs → Pool.get_available_tab bs = (Some (t, i), bs') →
  pool_ready (Pool.release_tab t i bs').
Proof.
  intros [Hcnt Hfree] Hget.
  destruct (free_count_acquire bs bs' t i Hget) as (Hfc & Hlen & Hlt & Hdiff).
  rewrite <- Hlen in Hlt.
  destruct (free_count_release bs' t i Hlt) as (Hfc' & _ & Hdiff').
  split; [|lia].
  intros j b Hj. destruct (Hdiff' j b Hj) as (b1 & Hb1 & ->).
  destruct (Hdiff j b1 Hb1) as (b0 & Hb0 & ->). by eapply Hcnt.
Qed.

(** What running tasks may change: the tick, the pool, and the trace, by
    extraction events only. *)
Definition task_step (s s' : State) : Prop :=
  locks s' = locks s ∧ files s' = files s ∧ data s' = data s ∧
  processed_count s' = processed_count s ∧ error_count s' = error_count s ∧
  files_processed_count s' = files_processed_count s ∧
  global_progress s' = global_progress s ∧
  current_file s' = current_file s ∧
  current_file_progress s' = current_file_progress s ∧
  (tick s ≤ tick s')%nat ∧
  (∃ urls, trace s' = trace s ++ (EvExtract <$> urls)) ∧
  (pool_ready (browsers s) → pool_ready (browsers s')).

Lemma task_step_refl (s : State) : task_step s s.
Proof.
  unfold task_step. split_and!; try done. exists []. simpl. by rewrite (right_id_L [] (++)).
Qed.

Lemma task_step_trans (s1 s2 s3 : State) :
  task_step s1 s2 → task_step s2 s3 → task_step s1 s3.
Proof.
  intros (? & ? & ? & ? & ? & ? & ? & ? & ? & ? & [u1 Hu1] & ?)
         (? & ? & ? & ? & ? & ? & ? & ? & ? & ? & [u2 Hu2] & ?).
  unfold task_step. split_and!; try congruence; try lia; [|tauto].
  exists (u1 ++ u2). rewrite Hu2, Hu1, fmap_app. by rewrite (assoc_L (++)).
Qed.

(** A result a task can return: [None] or a truthy string. *)
Definition usable_or_none (v : option string) : Prop :=
  v = None ∨ truthy v = true.

Lemma extract_iframe_url_spec (env : Env) (u : string) (s : State) :
  ∃ v, extract_iframe_url env u s
         = (Val v, set_trace (λ t, t ++ [EvExtract u]) (set_tick S s))
       ∧ usable_or_none v.
Proof.
  unfold extract_iframe_url, bind, fresh, emit, modify, ret. simpl.
  destruct (page env (tick s) u) as [x| |msg].
  - eexists. split; [done|]. unfold usable_or_none. case_bool_decide as Hx; [by left|].
    right. simpl. by rewrite bool_decide_eq_false_2.
  - eexists. split; [done|]. by left.
  - eexists. split; [done|]. by left.
Qed.

(** The result [gather] reports for a task: a value a task can return, or
    the message of an exception raised in the task. *)
Definition task_result_ok (env : Env) (x : option string + string) : Prop :=
  match x with
  | inl v => usable_or_none v
  | inr msg => ∃ k, task_fault env k = Some msg
  end.

Lemma process_single_episode_spec (env : Env) (r : nat) (s : State) :
  ∀ res s', process_single_episode env r s = (res, s') →
  task_step s s' ∧
  (length (trace s') ≤ S (length (trace s)))%nat ∧
  match res with
  | Val v => usable_or_none v
  | Exc msg => ∃ k, task_fault env k = Some msg
  | Cancelled => False
  | Hang => ¬ pool_ready (browsers s)
  end.
Proof.
  intros res s'. unfold process_single_episode, bind, acquire.
  destruct (Pool.get_available_tab (browsers s)) as [[[t i]|] bs'] eqn:Hget.
  - unfold try_finally, bind, fresh, modify, raise, gets, ret. simpl.
    assert (Hready : pool_ready (browsers s) → pool_ready (Pool.release_tab t i bs'))
      by (intros ?; by eapply acquire_release_ready).
    destruct (task_fault env (tick s)) as [msg|] eqn:Hfault.
    + intros [= <- <-]. split_and!; [|simpl; lia|by eauto]. unfold task_step. simpl.
      split_and!; try done; [lia|]. exists []. simpl. by rewrite (right_id_L [] (++)).
    + simpl. destruct (url (deref (data s) r)) as [u|].
      * case_bool_decide.
        -- simpl. intros [= <- <-]. split_and!; [|simpl; lia|by left].
           unfold task_step. simpl.
           split_and!; try done; [lia|]. exists []. simpl. by rewrite (right_id_L [] (++)).
        -- destruct (extract_iframe_url_spec env u
             (set_tick S (set_browsers (λ _, bs') s))) as (v & Hv & Hok).
           rewrite Hv. simpl. intros [= <- <-].
           split_and!; [|simpl; rewrite length_app; simpl; lia|done].
           unfold task_step. simpl. split_and!; try done; [lia|]. by exists [u].
      * simpl. intros [= <- <-]. split_and!; [|simpl; lia|by left].
        unfold task_step. simpl.
        split_and!; try done; [lia|]. exists []. simpl. by rewrite (right_id_L [] (++)).
  - intros [= <- <-]. split_and!; [apply task_step_refl|lia|].
    intros [Hcnt Hfree]. destruct (get_available_tab_finds _ Hcnt Hfree) as (t & i & bs'' & H).
    congruence.
Qed.

Lemma gather_cons {S A : Type} (task : M S A) (rest : list (M S A)) (s : S) :
  gather (task :: rest) s =
    match task s with
    | (Val a, s') => bind (gather rest) (λ rs, ret (inl a :: rs)) s'
    | (Exc msg, s') => bind (gather rest) (λ rs, ret (inr msg :: rs)) s'
    | (Cancelled, s') => (Cancelled, s')
    | (Hang, s') => (Hang, s')
    end.
Proof. reflexivity. Qed.

Lemma gather_tasks_spec (env : Env) (batch : list nat) :
  ∀ s res s', gather (process_single_episode env <$> batch) s = (res, s') →
  task_step s s' ∧
  (length (trace s') ≤ length (trace s) + length batch)%nat ∧
  match res with
  | Val results => length results = length batch ∧
                   Forall (task_result_ok env) results
  | Exc _ => False
  | Cancelled => False
  | Hang => ¬ pool_ready (browsers s)
  end.
Proof.
  induction batch as [|r batch IH]; intros s res s' H.
  - injection H as <- <-. (split; [|split]); [apply task_step_refl|simpl; lia|].
    split; [done|]. apply Forall_nil_2.
  - rewrite fmap_cons, gather_cons in H.
    destruct (process_single_episode env r s) as [[v|msg| |] s1] eqn:Hone;
      pose proof (process_single_episode_spec env r s _ _ Hone) as (Hstep & Hlen1 & Hres).
    + unfold bind in H.
      destruct (gather (process_single_episode env <$> batch) s1) as [[rs|?| |] s2] eqn:Hrest;
        pose proof (IH _ _ _ Hrest) as (Hstep' & Hlen2 & Hres'); try done.
      * injection H as <- <-. (split; [|split]); [by eapply task_step_trans|simpl; lia|].
        destruct Hres' as [Hlen Hall]. split; [simpl; by rewrite Hlen|].
        apply Forall_cons. by split.
      * injection H as <- <-. (split; [|split]); [by eapply task_step_trans|simpl; lia|].
        intros Hr. apply Hres'. by apply Hstep.
    + unfold bind in H.
      destruct (gather (process_single_episode env <$> batch) s1) as [[rs|?| |] s2] eqn:Hrest;
        pose proof (IH _ _ _ Hrest) as (Hstep' & Hlen2 & Hres'); try done.
      * injection H as <- <-. (split; [|split]); [by eapply task_step_trans|simpl; lia|].
        destruct Hres' as [Hlen Hall]. split; [simpl; by rewrite Hlen|].
        apply Forall_cons. by split.
      * injection H as <- <-. (split; [|split]); [by eapply task_step_trans|simpl; lia|].
        intros Hr. apply Hres'. by apply Hstep.
    + done.
    + injection H as <- <-. (split; [|split]); [done|simpl; lia|done].
Qed.

(** The [gather] of a batch: it returns one result per episode unless it is
    cancelled, which leaves everything but the tick as it was, or the pool
    has no tab. *)
Lemma run_tasks_spec (env : Env) (batch : list nat) (s : State) :
  ∀ res s', run_tasks env batch s = (res, s') →
  task_step s s' ∧
  (length (trace s') ≤ length (trace s) + length batch)%nat ∧
  match res with
  | Val results => cancel env (tick s) = false ∧
                   length results = length batch ∧
                   Forall (task_result_ok env) results
  | Exc _ => False
  | Cancelled => cancel env (tick s) = true ∧ trace s' = trace s
                 ∧ browsers s' = browsers s
  | Hang => ¬ pool_ready (browsers s)
  end.
Proof.
  intros res s'. unfold run_tasks, bind, fresh. simpl.
  assert (Htick : task_step s (set_tick S s)).
  { unfold task_step. simpl. split_and!; try done; [lia|]. exists []. simpl.
    by rewrite (right_id_L [] (++)). }
  destruct (cancel env (tick s)) eqn:Hc.
  - intros [= <- <-]. (split; [|split]); [done|simpl; lia|done].
  - intros H. destruct (gather_tasks_spec env batch _ _ _ H) as (Hstep & Hlen & Hres).
    (split; [|split]); [by eapply task_step_trans|exact Hlen|].
    destruct res as [results|?| |]; try done.
Qed.

End runtime.

(** ** Locks and checkpoints of [process_file] *)

Section process_file.
Import Exec Json Runtime.

Lemma unlock_file_lookup (file_path : string) (l : Coordinator.LockStore) :
  Coordinator.unlock_file file_path l !! Coordinator.lock_name file_path = None.
Proof.
  unfold Coordinator.unlock_file.
  destruct (l !! Coordinator.lock_name file_path) eqn:H; [apply lookup_delete_eq|done].
Qed.

(** Whatever the body does, if [try: body finally: unlock_file] ends, the
    marker is gone. *)
Lemma try_finally_unlock {A : Type} (body : M State A) (file_path : string)
    (s s' : State) (res : Res A) :
  try_finally body (unlock_file file_path) s = (res, s') →
  res ≠ Hang →
  locks s' !! Coordinator.lock_name file_path = None ∧
  ∃ s1, body s = (res, s1) ∧ s' = set_locks (Coordinator.unlock_file file_path) s1.
Proof.
  unfold try_finally, unlock_file, modify.
  destruct (body s) as [[a|msg| |] s1]; intros [= <- <-] Hres; try done;
    (split; [simpl; apply unlock_file_lookup|by exists s1]).
Qed.

(** The events of one wave that is checkpointed: extractions, then one
    write of the work item. *)
Definition wave_segment (file_path : string) (seg : list Event) : Prop :=
  ∃ urls snapshot, seg = (EvExtract <$> urls) ++ [EvWrite file_path snapshot].

Definition checkpointed (file_path : string) (n : nat) (evs : list Event) : Prop :=
  ∃ segs, evs = concat segs ∧ Forall (wave_segment file_path) segs ∧ length segs = n.

(** The file on disk is the work item in memory. *)
Definition in_sync (file_path : string) (s : State) : Prop :=
  files s !! file_path = Some (Some (dump (data s))).

Lemma writes_app (p : string) (t1 t2 : list Event) :
  writes p (t1 ++ t2) = writes p t1 ++ writes p t2.
Proof. unfold writes. apply omap_app. Qed.

Lemma writes_extracts (p : string) (urls : list string) :
  writes p (EvExtract <$> urls) = [].
Proof. induction urls as [|u urls IH]; [done|]. exact IH. Qed.

Lemma checkpointed_writes (p : string) (n : nat) (evs : list Event) :
  checkpointed p n evs → length (writes p evs) = n.
Proof.
  intros (segs & -> & Hall & <-). induction Hall as [|seg segs Hseg _ IH]; [done|].
  simpl. rewrite writes_app, length_app, IH.
  destruct Hseg as (urls & snap & ->).
  rewrite writes_app, writes_extracts. simpl. by rewrite decide_True.
Qed.

Lemma V_record_results_frame (xs : list (nat * (option string + string))) :
  ∀ s,
  locks (foldl V.record_result s xs) = locks s ∧
  files (foldl V.record_result s xs) = files s ∧
  trace (foldl V.record_result s xs) = trace s ∧
  tick (foldl V.record_result s xs) = tick s ∧
  browsers (foldl V.record_result s xs) = browsers s ∧
  global_progress (foldl V.record_result s xs) = global_progress s.
Proof.
  induction xs as [|x xs IH]; intros s; simpl; [done|].
  destruct (IH (V.record_result s x)) as (-> & -> & -> & -> & -> & ->).
  unfold V.record_result. destruct x.2 as [v|msg]; [destruct (truthy v)|]; done.
Qed.

Lemma V_process_episode_batch_spec (env : Env) (batch : list nat) (s : State) :
  ∀ res s', V.process_episode_batch env batch s = (res, s') →
  locks s' = locks s ∧ files s' = files s ∧
  (pool_ready (browsers s) → pool_ready (browsers s')) ∧
  (∃ urls, trace s' = trace s ++ (EvExtract <$> urls)) ∧
  match res with
  | Val _ => cancel env (tick s) = false
  | Exc _ => False
  | Cancelled => cancel env (tick s) = true ∧ data s' = data s ∧ trace s' = trace s
  | Hang => ¬ pool_ready (browsers s)
  end.
Proof.
  intros res s'. unfold V.process_episode_batch, bind.
  destruct (run_tasks env batch s) as [[results|msg| |] s1] eqn:Hrun;
    pose proof (run_tasks_spec env batch s _ _ Hrun) as (Hstep & _ & Hres);
    destruct Hstep as (Hl & Hf & Hd & _ & _ & _ & _ & _ & _ & _ & Htr & Hp).
  - unfold modify, ret. intros [= <- <-].
    destruct (V_record_results_frame (zip batch results) s1) as (-> & -> & -> & _ & -> & _).
    by destruct Hres as (? & _).
  - done.
  - intros [= <- <-]. by destruct Hres as (? & ? & _).
  - by intros [= <- <-].
Qed.

Lemma write_json_spec (env : Env) (file_path : string) (s : State) :
  ∀ res s', write_json env file_path s = (res, s') →
  locks s' = locks s ∧ browsers s' = browsers s ∧ data s' = data s ∧
  global_progress s' = global_progress s ∧
  match res with
  | Val _ => write_fault env (tick s) = false ∧
             trace s' = trace s ++ [EvWrite file_path (dump (data s))] ∧
             files s' = <[file_path := Some (dump (data s))]> (files s)
  | Exc _ => write_fault env (tick s) = true ∧ trace s' = trace s ∧ files s' = files s
  | Cancelled => False
  | Hang => False
  end.
Proof.
  intros res s'. unfold write_json, bind, fresh, raise, modify. simpl.
  destruct (write_fault env (tick s)) eqn:Hw; intros [= <- <-]; done.
Qed.

Lemma V_process_batches_spec (env : Env) (file_path : string)
    (batches : list (list nat)) :
  ∀ s res s', V.process_batches env file_path batches s = (res, s') →
  locks s' = locks s ∧
  (pool_ready (browsers s) → pool_ready (browsers s') ∧ res ≠ Hang) ∧
  match res with
  | Val _ =>
      checkpointed file_path (length batches) (drop (length (trace s)) (trace s')) ∧
      take (length (trace s)) (trace s') = trace s ∧
      (in_sync file_path s → in_sync file_path s')
  | Cancelled =>
      (∃ n, (n < length batches)%nat ∧
            checkpointed file_path n (drop (length (trace s)) (trace s'))) ∧
      take (length (trace s)) (trace s') = trace s ∧
      (in_sync file_path s → in_sync file_path s')
  | Exc _ => ∃ k, write_fault env k = true
  | Hang => True
  end.
Proof.
  induction batches as [|batch batches IH]; intros s res s' H; simpl in H.
  - injection H as <- <-. split; [done|]. split; [done|].
    rewrite drop_all, take_ge by done. split_and!; [|done..].
    exists []. done.
  - unfold bind in H.
    destruct (V.process_episode_batch env batch s) as [[b|msg| |] s1] eqn:Hb;
      pose proof (V_process_episode_batch_spec env batch s _ _ Hb)
        as (Hl1 & Hf1 & Hp1 & [urls Ht1] & Hres1); try done.
    + destruct (write_json env file_path s1) as [[u|msg| |] s2] eqn:Hw;
        pose proof (write_json_spec env file_path s1 _ _ Hw)
          as (Hl2 & Hb2 & Hd2 & _ & Hres2); try done.
      * destruct Hres2 as (_ & Ht2 & Hf2).
        pose proof (IH s2 res s' H) as (Hl3 & Hp3 & Hres3).
        assert (Hsync2 : in_sync file_path s2).
        { unfold in_sync. rewrite Hf2, Hd2. apply lookup_insert_eq. }
        assert (Hpre : trace s2 = trace s ++ (EvExtract <$> urls)
                                  ++ [EvWrite file_path (dump (data s1))])
          by (by rewrite Ht2, Ht1, (assoc_L (++))).
        split; [congruence|]. split.
        { intros Hr. rewrite <- Hb2 in Hp1. by apply Hp3, Hp1. }
        assert (Hglue : ∀ n,
          checkpointed file_path n (drop (length (trace s2)) (trace s')) →
          take (length (trace s2)) (trace s') = trace s2 →
          checkpointed file_path (S n) (drop (length (trace s)) (trace s')) ∧
          take (length (trace s)) (trace s') = trace s).
        { intros n (segs & Hsegs & Hall & Hn) Htake.
          rewrite <- (take_drop (length (trace s2)) (trace s')).
          rewrite Htake, Hsegs, Hpre.
          rewrite <- !(assoc_L (++)).
          rewrite drop_app_length, take_app_length. split; [|done].
          exists (((EvExtract <$> urls) ++ [EvWrite file_path (dump (data s1))]) :: segs).
          split_and!.
          - simpl. by rewrite <- !(assoc_L (++)).
          - apply Forall_cons. split; [by eexists _, _|done].
          - simpl. by rewrite Hn. }
        destruct res as [v|msg| |]; [| | |done].
        -- destruct Hres3 as (Hcp & Htake & Hs).
           destruct (Hglue _ Hcp Htake) as [Hcp' Htake'].
           split_and!; [done|done|]. intros _. by apply Hs.
        -- done.
        -- destruct Hres3 as ((n & Hn & Hcp) & Htake & Hs).
           destruct (Hglue _ Hcp Htake) as [Hcp' Htake'].
           split_and!; [|done|].
           ++ exists (S n). split; [simpl; lia|done].
           ++ intros _. by apply Hs.
      * injection H as <- <-. destruct Hres2 as (Hk & _).
        split; [congruence|]. split; [|by eauto].
        intros Hr. split; [|done]. rewrite Hb2. by apply Hp1.
    + injection H as <- <-. destruct Hres1 as (_ & Hd1 & Htr1).
      split; [done|]. split; [by intros ?; split; [apply Hp1|]|].
      rewrite Htr1, drop_all, take_ge by done. split_and!.
      * exists 0%nat. split; [simpl; lia|]. by exists [].
      * done.
      * unfold in_sync. by rewrite Hf1, Hd1.
    + injection H as <- <-. split; [done|]. split; [|done].
      intros Hr. by destruct Hres1.
Qed.

(** *** Loading and dumping *)

Lemma omap_lookup_seq (e : list Episode) :
  ∀ pre post, omap (λ r, (pre ++ e ++ post) !! r) (seq (length pre) (length e)) = e.
Proof.
  induction e as [|x e IH]; intros pre post; [done|].
  simpl. rewrite list_lookup_middle by done. simpl. f_equal.
  specialize (IH (pre ++ [x]) post). rewrite length_app in IH. simpl in IH.
  rewrite Nat.add_1_r, <- (assoc_L (++)) in IH. exact IH.
Qed.

Lemma number_dump (d : Data) :
  ∀ pre, (λ episodes : list nat, omap (λ r, (pre ++ concat d) !! r) episodes)
           <$> number (length pre) d = d.
Proof.
  induction d as [|e d IH]; intros pre; [done|].
  simpl. rewrite omap_lookup_seq. f_equal.
  specialize (IH (pre ++ e)). rewrite length_app, <- (assoc_L (++)) in IH. exact IH.
Qed.

(** What is written back without any change is what was read. *)
Lemma dump_load (d : Data) : dump (load d) = d.
Proof. unfold dump, load. simpl. apply (number_dump d []). Qed.

Lemma concat_number (d : Data) :
  ∀ k, concat (number k d) = seq k (length (concat d)).
Proof.
  induction d as [|e d IH]; intros k; [done|].
  simpl. by rewrite IH, length_app, seq_app.
Qed.

(** The references [process_file] collects are those of the pending
    episodes of the file, in file order. *)
Lemma pending_load (d : Data) :
  deref (load d) <$> pending (load d) = pending_of d.
Proof.
  unfold pending, pending_of, load, deref. simpl. rewrite concat_number.
  generalize (concat d). intros l.
  assert (H : ∀ pre,
    (λ r, default no_episode ((pre ++ l) !! r)) <$>
      filter (λ r, truthy (iframe_url (default no_episode ((pre ++ l) !! r))) = false)
             (seq (length pre) (length l))
    = filter (λ e, truthy (iframe_url e) = false) l).
  { induction l as [|x l IH]; intros pre; [done|].
    simpl. rewrite !filter_cons. rewrite list_lookup_middle by done. simpl.
    specialize (IH (pre ++ [x])). rewrite length_app in IH. simpl in IH.
    rewrite Nat.add_1_r, <- (assoc_L (++)) in IH. simpl in IH.
    destruct (decide (truthy (iframe_url x) = false)).
    - rewrite fmap_cons, list_lookup_middle by done. simpl. by rewrite IH.
    - exact IH. }
  apply (H []).
Qed.

Lemma pending_load_nil (d : Data) :
  Forall (λ e, truthy (iframe_url e) = true) (concat d) → pending (load d) = [].
Proof.
  intros Hall. apply fmap_nil_inv with (f := deref (load d)).
  rewrite pending_load. unfold pending_of.
  induction Hall as [|x l Hx _ IH]; [done|].
  rewrite filter_cons, decide_False by congruence. exact IH.
Qed.

End process_file.

Section claims_v.
Import Exec Json Runtime.

(** The body of v.py [process_file] after the lock is taken and a readable
    file is loaded. *)
Lemma V_process_file_unfold (cfg : Config) (env : Env) (file_path : string)
    (s : State) (d : Data) :
  files s !! file_path = Some (Some d) →
  let s0 := set_data (λ _, load d)
              (set_locks (Coordinator.lock_file (time env (tick s))
                            (coordinator_id cfg) file_path)
                 (set_tick S s)) in
  V.process_file cfg env file_path s =
    match pending (load d) with
    | [] => (Val true,
             set_locks (Coordinator.unlock_file file_path)
               (set_files_processed_count Z.succ s0))
    | _ =>
        if bool_decide (V.batch_size cfg = 0)
        then (Val false, set_locks (Coordinator.unlock_file file_path) s0)
        else
          match V.process_batches env file_path
                  (Batch.waves (pending (load d)) (V.batch_size cfg)) s0 with
          | (Val _, s1) =>
              (Val true, set_locks (Coordinator.unlock_file file_path)
                           (set_files_processed_count Z.succ s1))
          | (Exc _, s1) => (Val false, set_locks (Coordinator.unlock_file file_path) s1)
          | (Cancelled, s1) =>
              (Cancelled, set_locks (Coordinator.unlock_file file_path) s1)
          | (Hang, s1) => (Hang, s1)
          end
    end.
Proof.
  intros Hfile s0.
  unfold V.process_file, try_finally, try_except, bind, lock_file, read_json,
    unlock_file, fresh, modify, gets, ret, raise.
  simpl. rewrite Hfile. simpl. fold s0.
  destruct (pending (load d)) as [|r rest] eqn:Hp; [done|].
  case_bool_decide; [done|].
  destruct (V.process_batches env file_path _ s0) as [[u|msg| |] s1]; done.
Qed.

Lemma checkpointed_nil (file_path : string) : checkpointed file_path 0 [].
Proof. by exists []. Qed.

Lemma waves_nil {A : Type} (batch_size : Z) : Batch.waves (@nil A) batch_size = [].
Proof. unfold Batch.waves, Batch.py_range. by case_bool_decide. Qed.

(** v.py checkpoints every wave. *)
Lemma v_checkpoints (cfg : Config) (env : Env) (file_path : string)
    (s s' : State) (d : Data) (res : Res bool) :
  files s !! file_path = Some (Some d) →
  (∀ k, write_fault env k = false) →
  V.process_file cfg env file_path s = (res, s') →
  res ≠ Hang →
  in_sync file_path s' ∧
  take (length (trace s)) (trace s') = trace s ∧
  ∃ n, checkpointed file_path n (drop (length (trace s)) (trace s')) ∧
       (res = Val true →
        n = length (Batch.waves (pending (load d)) (V.batch_size cfg))) ∧
       (res = Cancelled →
        (n < length (Batch.waves (pending (load d)) (V.batch_size cfg)))%nat).
Proof.
  intros Hfile Hnofault H Hres.
  rewrite (V_process_file_unfold cfg env file_path s d Hfile) in H.
  set (s0 := set_data _ _) in H.
  assert (Hsync0 : in_sync file_path s0)
    by (unfold in_sync; simpl; by rewrite dump_load).
  assert (Hnil : ∀ s1, trace s1 = trace s →
            take (length (trace s)) (trace s1) = trace s ∧
            checkpointed file_path 0 (drop (length (trace s)) (trace s1))).
  { intros s1 ->. rewrite take_ge, drop_all by done. split; [done|apply checkpointed_nil]. }
  destruct (pending (load d)) as [|r rest] eqn:Hp.
  - injection H as <- <-. destruct (Hnil s0 eq_refl) as [Ht Hc].
    split_and!; [exact Hsync0|exact Ht|]. exists 0%nat.
    split_and!; [exact Hc| |done]. intros _. by rewrite waves_nil.
  - case_bool_decide as Hbs.
    + injection H as <- <-. destruct (Hnil s0 eq_refl) as [Ht Hc].
      split_and!; [exact Hsync0|exact Ht|]. exists 0%nat. split_and!; [exact Hc|done|done].
    + destruct (V.process_batches env file_path _ s0) as [[u|msg| |] s1] eqn:Hb;
        pose proof (V_process_batches_spec env file_path _ _ _ _ Hb) as (_ & _ & Hspec).
      * injection H as <- <-. destruct Hspec as (Hc & Ht & Hs).
        split_and!; [exact (Hs Hsync0)|exact Ht|]. eexists. split_and!; [exact Hc|done|done].
      * destruct Hspec as [k Hk]. rewrite Hnofault in Hk. done.
      * injection H as <- <-. destruct Hspec as ((n & Hn & Hc) & Ht & Hs).
        split_and!; [exact (Hs Hsync0)|exact Ht|]. exists n. split_and!; [exact Hc|done|done].
      * by injection H as <- <-.
Qed.

End claims_v.

Section claims_ser.
Import Exec Json Runtime.

(** The part of [GlobalProgress] the file-level calls work on. *)
Definition gp_files (s : State) : option (gset string * gmap string string * Z) :=
  (λ g, (Progress.completed_files g, Progress.currently_processing g,
         Progress.total_files g)) <$> global_progress s.

Definition is_write (e : Event) : bool :=
  match e with EvWrite _ _ => true | _ => false end.

(** What a batch of ser.py leaves alone: the markers, the files, the pool
    readiness, the file-level progress; the trace grows by events that are
    not writes. *)
Definition batch_step (s s' : State) : Prop :=
  locks s' = locks s ∧ files s' = files s ∧ gp_files s' = gp_files s ∧
  (is_Some (global_progress s') ↔ is_Some (global_progress s)) ∧
  (pool_ready (browsers s) → pool_ready (browsers s')) ∧
  ∃ evs, trace s' = trace s ++ evs ∧ Forall (λ e, is_write e = false) evs.

Lemma batch_step_refl (s : State) : batch_step s s.
Proof.
  unfold batch_step. split_and!; try done. exists []. split; [|done].
  by rewrite (right_id_L [] (++)).
Qed.

Lemma batch_step_trans (s1 s2 s3 : State) :
  batch_step s1 s2 → batch_step s2 s3 → batch_step s1 s3.
Proof.
  intros (? & ? & ? & ? & ? & e1 & He1 & Hw1) (? & ? & ? & ? & ? & e2 & He2 & Hw2).
  unfold batch_step. split_and!; try congruence; [tauto|tauto|].
  exists (e1 ++ e2). split; [by rewrite He2, He1, (assoc_L (++))|by apply Forall_app].
Qed.

Lemma task_step_batch_step (s s' : State) : task_step s s' → batch_step s s'.
Proof.
  intros (? & ? & ? & ? & ? & ? & Hg & ? & ? & ? & [urls Hu] & ?).
  unfold batch_step, gp_files. rewrite Hg. split_and!; try done.
  exists (EvExtract <$> urls). split; [done|].
  apply Forall_fmap, Forall_forall. done.
Qed.

Lemma Ser_record_result_step (cfg : Config) (env : Env)
    (acc : State * (Z * Z)) (x : nat * (option string + string)) :
  batch_step acc.1 (Ser.record_result cfg env acc x).1.
Proof.
  assert (Hlog : ∀ e why s, batch_step s (Ser.log_failure env e why s)).
  { intros e why s. unfold batch_step, gp_files. simpl. split_and!; try done.
    eexists. split; [done|]. by apply Forall_singleton. }
  assert (Hplain : ∀ s s', locks s' = locks s → files s' = files s →
            gp_files s' = gp_files s →
            (is_Some (global_progress s') ↔ is_Some (global_progress s)) →
            browsers s' = browsers s → trace s' = trace s → batch_step s s').
  { intros s s' ? ? ? ? Hb Ht. unfold batch_step. rewrite Hb.
    split_and!; try done. exists []. split; [|done]. by rewrite (right_id_L [] (++)). }
  unfold Ser.record_result. destruct x.2 as [v|msg].
  - destruct (truthy v).
    + simpl. apply Hplain; try done.
      * unfold gp_files. simpl. by destruct (global_progress acc.1).
      * simpl. rewrite !fmap_is_Some. done.
    + destruct (failure_logger cfg); simpl.
      * eapply batch_step_trans; [|apply Hlog]. by apply Hplain.
      * by apply Hplain.
  - destruct (failure_logger cfg); simpl.
    + eapply batch_step_trans; [|apply Hlog]. by apply Hplain.
    + by apply Hplain.
Qed.

Lemma Ser_record_results_step (cfg : Config) (env : Env)
    (xs : list (nat * (option string + string))) :
  ∀ acc, batch_step acc.1 (foldl (Ser.record_result cfg env) acc xs).1.
Proof.
  induction xs as [|x xs IH]; intros acc; simpl; [apply batch_step_refl|].
  eapply batch_step_trans; [apply Ser_record_result_step|apply IH].
Qed.

Lemma Ser_process_episode_batch_spec (cfg : Config) (env : Env)
    (batch : list nat) (s : State) :
  ∀ res s', Ser.process_episode_batch cfg env batch s = (res, s') →
  batch_step s s' ∧
  match res with
  | Val _ => cancel env (tick s) = false
  | Exc _ => False
  | Cancelled => cancel env (tick s) = true ∧ data s' = data s ∧ trace s' = trace s
  | Hang => ¬ pool_ready (browsers s)
  end.
Proof.
  intros res s'. unfold Ser.process_episode_batch, bind.
  destruct (run_tasks env batch s) as [[results|msg| |] s1] eqn:Hrun;
    pose proof (run_tasks_spec env batch s _ _ Hrun) as (Hstep & _ & Hres).
  - intros [= <- <-]. split; [|by destruct Hres].
    eapply batch_step_trans; [by apply task_step_batch_step|].
    apply (Ser_record_results_step cfg env _ (s1, (0, 0))).
  - done.
  - intros [= <- <-]. split; [by apply task_step_batch_step|].
    destruct Hres as (? & ? & _). split_and!; [done| |done].
    by destruct Hstep as (_ & _ & ? & _).
  - intros [= <- <-]. split; [by apply task_step_batch_step|done].
Qed.

Lemma Ser_process_batches_spec (cfg : Config) (env : Env)
    (batches : list (list nat)) :
  ∀ s res s', Ser.process_batches cfg env batches s = (res, s') →
  batch_step s s' ∧
  match res with
  | Val _ => True
  | Exc _ => False
  | Cancelled => True
  | Hang => ¬ pool_ready (browsers s)
  end.
Proof.
  induction batches as [|batch batches IH]; intros s res s' H; simpl in H.
  - injection H as <- <-. split; [apply batch_step_refl|done].
  - unfold bind in H.
    destruct (Ser.process_episode_batch cfg env batch s) as [[r|msg| |] s1] eqn:Hb;
      pose proof (Ser_process_episode_batch_spec cfg env batch s _ _ Hb) as [Hstep Hres];
      try done.
    + unfold modify in H. simpl in H.
      match type of H with Ser.process_batches _ _ _ ?s2 = _ =>
        assert (Hmid : batch_step s1 s2) end.
      { unfold batch_step, gp_files. simpl. split_and!; try done.
        exists []. split; [|done]. by rewrite (right_id_L [] (++)). }
      pose proof (IH _ _ _ H) as [Hstep' Hres'].
      split; [eapply batch_step_trans; [exact Hstep|];
              eapply batch_step_trans; [exact Hmid|exact Hstep']|].
      destruct res as [u|msg| |]; try done.
      intros Hr. apply Hres'. simpl. by apply Hstep.
    + injection H as <- <-. done.
    + injection H as <- <-. done.
Qed.

(** ser.py [process_file], path by path. [ser_started] is the state after
    [mark_file_started], [ser_finish] what both the success path and the
    [except] clause do before they return: [mark_file_completed] and the reset
    of the per-file progress. *)
Definition ser_started (cfg : Config) (file_path : string) (s : State) : State :=
  set_global_progress (fmap (Progress.mark_file_started file_path (instance_id cfg)))
    (set_current_file (λ _, Some (Path.basename file_path)) s).

Definition ser_finish (file_path : string) (s : State) : State :=
  set_current_file_progress
    (λ p, {| file_name := "Idle";
             total_episodes := total_episodes p;
             processed := processed p;
             skipped := skipped p;
             remaining := remaining p |})
    (set_current_file (λ _, None)
       (set_global_progress (fmap (Progress.mark_file_completed file_path)) s)).

Definition ser_locked (cfg : Config) (env : Env) (file_path : string) (s : State) : State :=
  set_locks (Coordinator.lock_file (time env (tick s)) (coordinator_id cfg) file_path)
    (set_tick S (ser_started cfg file_path s)).

Definition ser_loaded (cfg : Config) (env : Env) (file_path : string) (d : Data)
    (s : State) : State :=
  set_current_file_progress
    (λ _, {| file_name := Path.basename file_path;
             total_episodes := Z.of_nat (length (concat d));
             processed := 0;
             skipped := Z.of_nat (length (concat d))
                        - Z.of_nat (length (pending (load d)));
             remaining := Z.of_nat (length (pending (load d))) |})
    (set_data (λ _, load d) (ser_locked cfg env file_path s)).

Definition ser_written (file_path : string) (s : State) : State :=
  set_trace (λ t, t ++ [EvWrite file_path (dump (data s))])
    (set_files (insert file_path (Some (dump (data s)))) (set_tick S s)).

Lemma Ser_process_file_unfold (cfg : Config) (env : Env) (file_path : string) (s : State) :
  Ser.process_file cfg env file_path s =
    match files s !! file_path with
    | Some (Some d) =>
        match Ser.process_batches cfg env
                (Batch.waves (pending (load d)) Ser.batch_size)
                (ser_loaded cfg env file_path d s) with
        | (Val _, s1) =>
            if write_fault env (tick s1)
            then (Val false,
                  set_locks (Coordinator.unlock_file file_path)
                    (ser_finish file_path (set_tick S s1)))
            else (Val true,
                  set_locks (Coordinator.unlock_file file_path)
                    (ser_finish file_path (ser_written file_path s1)))
        | (Exc _, s1) =>
            (Val false,
             set_locks (Coordinator.unlock_file file_path) (ser_finish file_path s1))
        | (Cancelled, s1) =>
            (Cancelled, set_locks (Coordinator.unlock_file file_path) s1)
        | (Hang, s1) => (Hang, s1)
        end
    | _ =>
        (Val false,
         set_locks (Coordinator.unlock_file file_path)
           (ser_finish file_path (ser_locked cfg env file_path s)))
    end.
Proof.
  unfold Ser.process_file, try_finally, try_except, bind, lock_file, read_json,
    unlock_file, Ser.mark_file_completed, Ser.reset_progress, write_json,
    fresh, modify, gets, ret, raise, bind.
  simpl. destruct (files s !! file_path) as [[d|]|] eqn:Hfile; simpl; [|done|done].
  change (Ser.process_batches cfg env (Batch.waves (pending (load d)) Ser.batch_size) ?x)
    with (Ser.process_batches cfg env (Batch.waves (pending (load d)) Ser.batch_size)
            (ser_loaded cfg env file_path d s)).
  destruct (Ser.process_batches cfg env _ (ser_loaded cfg env file_path d s))
    as [[u|msg| |] s1]; simpl; [|done..].
  destruct (write_fault env (tick s1)); done.
Qed.

End claims_ser.

(** ** The claims about [process_file] *)



(** C3, amended. A work item whose sub-items all have a truthy
    ['iframe_url'] (neither null nor empty) is processed again without any
    extraction call and [process_file] returns [True]: v.py returns right
    after the scan, counts the file as processed and writes nothing; ser.py
    (when its write succeeds) writes the unchanged work item back once. *)
Theorem rerun_of_complete_item
    (cfg : Runtime.Config) (env : Runtime.Env) (file_path : string)
    (s : Runtime.State) (d : Json.Data) :
  Runtime.files s !! file_path = Some (Some d) →
  Forall (λ e, Json.truthy (Json.iframe_url e) = true) (concat d) →
  (∃ s', V.process_file cfg env file_path s = (Exec.Val true, s') ∧
         Runtime.trace s' = Runtime.trace s ∧
         Runtime.files s' = Runtime.files s ∧
         Runtime.files_processed_count s' = Z.succ (Runtime.files_processed_count s)) ∧
  (Runtime.write_fault env (S (Runtime.tick s)) = false →
   ∃ s', Ser.process_file cfg env file_path s = (Exec.Val true, s') ∧
         Runtime.trace s' = Runtime.trace s ++ [Runtime.EvWrite file_path d] ∧
         Runtime.files s' = Runtime.files s).
Proof.
  intros Hfile Hall. pose proof (pending_load_nil d Hall) as Hnil. split.
  - rewrite (V_process_file_unfold cfg env file_path s d Hfile), Hnil.
    eexists. split; [done|]. done.
  - intros Hw. rewrite Ser_process_file_unfold, Hfile, Hnil, waves_nil. simpl.
    rewrite Hw. eexists. split; [done|]. simpl. rewrite dump_load.
    split; [done|]. by apply insert_id.
Qed.

(** *** A work item with seven pending sub-items *)

Definition demo_episode (u : string) : Json.Episode :=
  {| Json.url := Some u; Json.iframe_url := None |}.

Definition demo_item : Json.Data :=
  [[demo_episode "https://site/play/a/1"; demo_episode "https://site/play/a/2";
    demo_episode "https://site/play/a/3"];
   [demo_episode "https://site/play/b/1"; demo_episode "https://site/play/b/2";
    demo_episode "https://site/play/b/3"; demo_episode "https://site/play/b/4"]].

(** Every page yields a player url; no fault, no cancellation. *)
Definition demo_env : Runtime.Env :=
  {| Runtime.page := λ _ u, Runtime.Found ("https://kwik/e/" +:+ u);
     Runtime.task_fault := λ _, None;
     Runtime.write_fault := λ _, false;
     Runtime.cancel := λ _, false;
     Runtime.time := λ k, 1000 + Z.of_nat k |}.

(** The same, cancelled when the second batch is awaited. *)
Definition demo_env_cancelled : Runtime.Env :=
  {| Runtime.page := λ _ u, Runtime.Found ("https://kwik/e/" +:+ u);
     Runtime.task_fault := λ _, None;
     Runtime.write_fault := λ _, false;
     Runtime.cancel := λ k, bool_decide (k = 12%nat);
     Runtime.time := λ k, 1000 + Z.of_nat k |}.

Definition demo_cfg_3 : Runtime.Config :=
  {| Runtime.instance_id := "INST-01";
     Runtime.coordinator_id := "9f3a6c1e";
     Runtime.max_browsers := 1;
     Runtime.max_tabs_per_browser := 3;
     Runtime.failure_logger := true |}.

Definition demo_progress : Progress.GlobalProgress :=
  {| Progress.completed_files := ∅;
     Progress.currently_processing := ∅;
     Progress.total_files := 1;
     Progress.total_episodes := 7;
     Progress.completed_episodes := 0 |}.

Definition demo_state_with (file_path : string) (content : option Json.Data)
    : Runtime.State :=
  {| Runtime.locks := ∅;
     Runtime.files := {[file_path := content]};
     Runtime.trace := [];
     Runtime.tick := 0;
     Runtime.browsers := Pool.init_browsers 1 3 (λ _, true) (λ _ _, true);
     Runtime.processed_count := 0;
     Runtime.error_count := 0;
     Runtime.files_processed_count := 0;
     Runtime.global_progress := Some demo_progress;
     Runtime.current_file := None;
     Runtime.current_file_progress :=
       {| Runtime.file_name := "Idle"; Runtime.total_episodes := 0;
          Runtime.processed := 0; Runtime.skipped := 0; Runtime.remaining := 0 |};
     Runtime.data := Json.load [] |}.

Definition demo_state : Runtime.State :=
  demo_state_with "anime_1.json" (Some demo_item).



(** *** A work item that is already complete *)

Definition demo_done_item : Json.Data :=
  [[{| Json.url := Some "https://site/play/a/1";
       Json.iframe_url := Some "https://kwik/e/a1" |};
    {| Json.url := Some "https://site/play/a/2";
       Json.iframe_url := Some "https://kwik/e/a2" |}]].

(** A sub-item whose result is the empty string: not null, yet not truthy. *)
Definition demo_empty_result_item : Json.Data :=
  [[{| Json.url := Some "https://site/play/a/1";
       Json.iframe_url := Some "" |}]].

Lemma rerun_of_complete_item_witness :
  Runtime.files (demo_state_with "anime_2.json" (Some demo_done_item)) !! "anime_2.json"
    = Some (Some demo_done_item) ∧
  Forall (λ e, Json.truthy (Json.iframe_url e) = true) (concat demo_done_item) ∧
  ∃ s', V.process_file demo_cfg_3 demo_env "anime_2.json"
          (demo_state_with "anime_2.json" (Some demo_done_item)) = (Exec.Val true, s') ∧
        Runtime.trace s' = [] ∧
        Runtime.files s' = {["anime_2.json" := Some demo_done_item]}.
Proof.
  assert (Hfile : Runtime.files (demo_state_with "anime_2.json" (Some demo_done_item))
                    !! "anime_2.json" = Some (Some demo_done_item)) by by vm_compute.
  assert (Hall : Forall (λ e, Json.truthy (Json.iframe_url e) = true)
                   (concat demo_done_item)).
  { apply (bool_decide_unpack _). by vm_compute. }
  split; [exact Hfile|]. split; [exact Hall|].
  destruct (rerun_of_complete_item demo_cfg_3 demo_env "anime_2.json" _ _ Hfile Hall)
    as [(s' & Hrun & Ht & Hf & _) _].
  exists s'. split; [exact Hrun|]. split; [exact Ht|exact Hf].
Defined.

(** ser.py writes the complete work item back; and in v.py a sub-item
    whose result is the empty string is extracted again. *)
Lemma rerun_is_not_always_silent :
  Runtime.writes "anime_2.json"
    (Runtime.trace (Ser.process_file demo_cfg_3 demo_env "anime_2.json"
                      (demo_state_with "anime_2.json" (Some demo_done_item))).2)
    = [demo_done_item] ∧
  Runtime.extracts
    (Runtime.trace (V.process_file demo_cfg_3 demo_env "anime_2.json"
                      (demo_state_with "anime_2.json" (Some demo_empty_result_item))).2)
    = ["https://site/play/a/1"].
Proof. split; by vm_compute. Qed.

(** ** GlobalProgress on the error path of ser.py *)

Section progress.
Import Progress.

Lemma started_then_completed (file_path instance_id : string) (g g1 : GlobalProgress) :
  completed_files g1 = completed_files g →
  currently_processing g1 = <[file_path := instance_id]> (currently_processing g) →
  total_files g1 = total_files g →
  file_path ∈ completed_files (mark_file_completed file_path g1) ∧
  currently_processing (mark_file_completed file_path g1) !! file_path = None ∧
  remaining (mark_file_completed file_path g1)
    = remaining g
      - (if decide (file_path ∈ completed_files g) then 0 else 1)
      + (match currently_processing g !! file_path with Some _ => 1 | None => 0 end).
Proof.
  intros Hc Hp Ht. unfold mark_file_completed, remaining. simpl.
  rewrite Hc, Hp, Ht, lookup_insert_eq, delete_insert_eq.
  split_and!.
  - apply elem_of_union. left. by apply elem_of_singleton.
  - apply lookup_delete_eq.
  - rewrite map_size_delete.
    assert (Hsize : size ({[file_path]} ∪ completed_files g)
              = if decide (file_path ∈ completed_files g) then size (completed_files g)
                else S (size (completed_files g))).
    { case_decide as Hin.
      - f_equal. apply subseteq_union_1_L. by apply singleton_subseteq_l.
      - rewrite size_union by by apply disjoint_singleton_l. by rewrite size_singleton. }
    rewrite Hsize.
    destruct (currently_processing g !! file_path) as [x|] eqn:Hlook; simpl.
    + assert (0 < size (currently_processing g))%nat.
      { destruct (decide (size (currently_processing g) = 0%nat)) as [Hz|]; [|lia].
        apply map_size_empty_inv in Hz. rewrite Hz in Hlook. done. }
      case_decide; lia.
    + case_decide; lia.
Qed.

End progress.



(** The state in which the same file has failed once already. *)
Definition demo_state_failed_before : Runtime.State :=
  Runtime.set_global_progress
    (λ _, Some {| Progress.completed_files := {["anime_3.json"]};
                  Progress.currently_processing := ∅;
                  Progress.total_files := 1;
                  Progress.total_episodes := 7;
                  Progress.completed_episodes := 0 |})
    (demo_state_with "anime_3.json" None).


(** ** The scan loop *)

Section worker.
Context {W : Type}.
Variable get_available_files : W → list string * W.
Variable random : W → nat * W.
Variable process_file : string → W → W.
Variable sleep : Z → W → W.

Local Abbreviation turn := (Worker.turn get_available_files random process_file sleep).
Local Abbreviation run_instance :=
  (Worker.run_instance get_available_files random process_file sleep).
Local Abbreviation at_turn := (Worker.at_turn get_available_files random process_file sleep).
Local Abbreviation leave := (Worker.leave get_available_files sleep).

(** The two scans of a turn. *)
Definition first_scan (w : W) : list string := (get_available_files w).1.
Definition second_scan (w : W) : list string :=
  (get_available_files (sleep 30 (get_available_files w).2)).1.

Lemma turn_break (w : W) :
  turn w = None ↔ first_scan w = [] ∧ second_scan w = [].
Proof.
  unfold Worker.turn, first_scan, second_scan.
  destruct (get_available_files w) as [[|f1 o1] w1]; simpl.
  - destruct (get_available_files (sleep 30 w1)) as [[|f2 o2] w2]; simpl.
    + done.
    + split; [done|]. by intros [_ ?].
  - split; [done|]. by intros [? _].
Qed.

Lemma claim_processes_listed (first : string) (others : list string) (w : W) :
  ∃ f w', f ∈ first :: others ∧
          Worker.claim random process_file sleep first others w
            = sleep 5 (process_file f w').
Proof.
  unfold Worker.claim. destruct (random w) as [n w'].
  eexists _, w'. split; [|done].
  apply list_elem_of_In, nth_In, Nat.mod_upper_bound. simpl. lia.
Qed.

Lemma turn_continue (w w' : W) :
  turn w = Some w' →
  ∃ available f w1,
    (available = first_scan w ∨ (first_scan w = [] ∧ available = second_scan w)) ∧
    f ∈ available ∧ w' = sleep 5 (process_file f w1).
Proof.
  unfold Worker.turn, first_scan, second_scan.
  destruct (get_available_files w) as [[|f1 o1] w1]; simpl.
  - destruct (get_available_files (sleep 30 w1)) as [[|f2 o2] w2]; simpl; [done|].
    intros [= <-]. destruct (claim_processes_listed f2 o2 w2) as (f & w0 & Hin & ->).
    exists (f2 :: o2), f, w0. split_and!; [by right|done|done].
  - intros [= <-]. destruct (claim_processes_listed f1 o1 w1) as (f & w0 & Hin & ->).
    exists (f1 :: o1), f, w0. split_and!; [by left|done|done].
Qed.

Lemma run_instance_terminated (turns : nat) :
  ∀ w w', run_instance turns w = Worker.Terminated w' ↔
          ∃ k w0, (k < turns)%nat ∧ at_turn k w = Some w0 ∧
                  turn w0 = None ∧ w' = leave w0.
Proof.
  induction turns as [|turns IH]; intros w w'; simpl.
  - split; [done|]. intros (k & _ & ? & _). lia.
  - destruct (turn w) as [w1|] eqn:Hturn.
    + rewrite IH. split.
      * intros (k & w0 & Hk & Hat & Hnone & ->).
        exists (S k), w0. simpl. rewrite Hturn. split_and!; [lia|done..].
      * intros (k & w0 & Hk & Hat & Hnone & ->). destruct k as [|k]; simpl in Hat.
        -- injection Hat as <-. congruence.
        -- rewrite Hturn in Hat. exists k, w0. split_and!; [lia|done..].
    + split.
      * intros [= <-]. exists 0%nat, w. split_and!; [lia|done..].
      * intros (k & w0 & Hk & Hat & Hnone & ->). destruct k as [|k]; simpl in Hat.
        -- by injection Hat as <-.
        -- by rewrite Hturn in Hat.
Qed.

Lemma run_instance_still_running (turns : nat) :
  ∀ w, (∀ k w0, at_turn k w = Some w0 → first_scan w0 ≠ [] ∨ second_scan w0 ≠ []) →
       ∃ w', run_instance turns w = Worker.StillRunning w'.
Proof.
  induction turns as [|turns IH]; intros w Hwork; simpl; [by eauto|].
  destruct (turn w) as [w1|] eqn:Hturn.
  - apply IH. intros k w0 Hat. apply (Hwork (S k)). simpl. by rewrite Hturn.
  - apply turn_break in Hturn as [H1 H2].
    destruct (Hwork 0%nat w eq_refl); done.
Qed.

End worker.


(** ** Results and failure records of a batch *)

Section batch_results.
Import Exec Json Runtime.

Lemma deref_set_iframe_url_ne (r r' : nat) (v : option string) (m : Loaded) :
  r ≠ r' → deref (set_iframe_url r v m) r' = deref m r'.
Proof. intros Hne. unfold deref, set_iframe_url. simpl. by rewrite list_lookup_alter_ne. Qed.

Lemma deref_set_iframe_url_eq (r : nat) (v : option string) (m : Loaded) :
  (r < length (heap m))%nat →
  deref (set_iframe_url r v m) r = {| url := url (deref m r); iframe_url := v |}.
Proof.
  intros Hlt. unfold deref, set_iframe_url. simpl. rewrite list_lookup_alter_eq.
  destruct (lookup_lt_is_Some_2 _ _ Hlt) as [e ->]. done.
Qed.

Lemma url_deref_set_iframe_url (r r' : nat) (v : option string) (m : Loaded) :
  url (deref (set_iframe_url r v m) r') = url (deref m r').
Proof.
  destruct (decide (r = r')) as [->|Hne]; [|by rewrite deref_set_iframe_url_ne].
  unfold deref, set_iframe_url. simpl. rewrite list_lookup_alter_eq.
  by destruct (heap m !! r').
Qed.

(** The episode a failure is logged with: the result has just been set,
    to a value that is not truthy. *)
Lemma deref_after_null (r : nat) (m : Loaded) :
  deref (set_iframe_url r None m) r = {| url := url (deref m r); iframe_url := None |}.
Proof.
  unfold deref, set_iframe_url. simpl. rewrite list_lookup_alter_eq.
  by destruct (heap m !! r).
Qed.

(** Whether a task result counts as an error, and what it leaves in
    ['iframe_url']. *)
Definition failing (res : option string + string) : bool :=
  match res with inl v => negb (truthy v) | inr _ => true end.

Definition value_of (res : option string + string) : option string :=
  match res with inl v => v | inr _ => None end.

Definition apply_results (m : Loaded) (xs : list (nat * (option string + string)))
    : Loaded :=
  foldl (λ m x, set_iframe_url x.1 (value_of x.2) m) m xs.

Lemma apply_results_length (xs : list (nat * (option string + string))) :
  ∀ m, length (heap (apply_results m xs)) = length (heap m).
Proof.
  induction xs as [|x xs IH]; intros m; simpl; [done|].
  unfold apply_results in IH. rewrite IH. simpl. apply length_alter.
Qed.

Lemma apply_results_notin (xs : list (nat * (option string + string))) :
  ∀ m r, r ∉ xs.*1 → deref (apply_results m xs) r = deref m r.
Proof.
  induction xs as [|x xs IH]; intros m r Hr; simpl; [done|].
  apply not_elem_of_cons in Hr as [Hne Hr]. unfold apply_results in IH.
  rewrite IH by done. by apply deref_set_iframe_url_ne.
Qed.

Lemma apply_results_in (xs : list (nat * (option string + string))) :
  ∀ m r res, NoDup xs.*1 → (r, res) ∈ xs → (r < length (heap m))%nat →
  iframe_url (deref (apply_results m xs) r) = value_of res.
Proof.
  induction xs as [|x xs IH]; intros m r res Hnd Hin Hlt; [by apply elem_of_nil in Hin|].
  simpl in Hnd. apply NoDup_cons in Hnd as [Hx Hnd].
  apply elem_of_cons in Hin as [<-|Hin]; simpl.
  - unfold apply_results in *. pose proof (apply_results_notin xs) as Hn.
    unfold apply_results in Hn. rewrite Hn by done.
    by rewrite deref_set_iframe_url_eq.
  - unfold apply_results in *. apply IH; [done|done|]. simpl. by rewrite length_alter.
Qed.

Lemma url_apply_results (xs : list (nat * (option string + string))) :
  ∀ m r, url (deref (apply_results m xs) r) = url (deref m r).
Proof.
  induction xs as [|x xs IH]; intros m r; simpl; [done|].
  unfold apply_results in IH. rewrite IH. apply url_deref_set_iframe_url.
Qed.

(** A record is logged with the exception's message or with the fixed text
    of the "no result" case. *)
Definition captured_reason (env : Env) (f : FailureRecord) : Prop :=
  reason f = "No iframe found (None result)" ∨ ∃ k, task_fault env k = Some (reason f).

Definition logged_episode (m : Loaded) (r : nat) : Episode :=
  {| url := url (deref m r); iframe_url := None |}.

Lemma Ser_record_result_spec (cfg : Config) (env : Env)
    (acc : State * (Z * Z)) (x : nat * (option string + string)) :
  failure_logger cfg = true → task_result_ok env x.2 →
  ∃ records,
    data (Ser.record_result cfg env acc x).1
      = set_iframe_url x.1 (value_of x.2) (data acc.1) ∧
    trace (Ser.record_result cfg env acc x).1 = trace acc.1 ++ (EvFailure <$> records) ∧
    episode <$> records
      = (if failing x.2 then [logged_episode (data acc.1) x.1] else []) ∧
    Forall (captured_reason env) records ∧
    (Ser.record_result cfg env acc x).2.2
      = acc.2.2 + (if failing x.2 then 1 else 0) ∧
    (Ser.record_result cfg env acc x).2.1
      = acc.2.1 + (if failing x.2 then 0 else 1) ∧
    error_count (Ser.record_result cfg env acc x).1
      = error_count acc.1 + (if failing x.2 then 1 else 0) ∧
    processed_count (Ser.record_result cfg env acc x).1
      = processed_count acc.1 + (if failing x.2 then 0 else 1).
Proof.
  intros Hlog Hok. unfold Ser.record_result. rewrite Hlog.
  destruct x as [r [v|msg]]; simpl in *.
  - destruct (truthy v) eqn:Hv; simpl.
    + exists []. simpl. rewrite (right_id_L [] (++)). split_and!; try done; lia.
    + destruct Hok as [->|Hok]; [|congruence].
      eexists [_]. simpl. split_and!; try done; try lia.
      * by rewrite deref_after_null.
      * apply Forall_singleton. by left.
  - eexists [_]. simpl. split_and!; try done; try lia.
    + by rewrite deref_after_null.
    + apply Forall_singleton. right. simpl. exact Hok.
Qed.

Lemma Ser_record_results_spec (cfg : Config) (env : Env)
    (xs : list (nat * (option string + string))) :
  failure_logger cfg = true → Forall (λ x, task_result_ok env x.2) xs →
  ∀ acc, ∃ records,
    data (foldl (Ser.record_result cfg env) acc xs).1 = apply_results (data acc.1) xs ∧
    trace (foldl (Ser.record_result cfg env) acc xs).1
      = trace acc.1 ++ (EvFailure <$> records) ∧
    episode <$> records
      = (λ x, logged_episode (data acc.1) x.1) <$> filter (λ x, failing x.2 = true) xs ∧
    Forall (captured_reason env) records ∧
    (foldl (Ser.record_result cfg env) acc xs).2.2
      = acc.2.2 + Z.of_nat (length (filter (λ x, failing x.2 = true) xs)) ∧
    (foldl (Ser.record_result cfg env) acc xs).2.1
        + (foldl (Ser.record_result cfg env) acc xs).2.2
      = acc.2.1 + acc.2.2 + Z.of_nat (length xs) ∧
    error_count (foldl (Ser.record_result cfg env) acc xs).1
      = error_count acc.1 + Z.of_nat (length (filter (λ x, failing x.2 = true) xs)) ∧
    processed_count (foldl (Ser.record_result cfg env) acc xs).1
        + error_count (foldl (Ser.record_result cfg env) acc xs).1
      = processed_count acc.1 + error_count acc.1 + Z.of_nat (length xs).
Proof.
  intros Hlog Hall. induction Hall as [|x xs Hx _ IH]; intros acc.
  - exists []. simpl. rewrite (right_id_L [] (++)). split_and!; try done; lia.
  - simpl.
    destruct (Ser_record_result_spec cfg env acc x Hlog Hx)
      as (rec1 & Hd1 & Ht1 & He1 & Hr1 & Hc1 & Hp1 & Hec1 & Hpc1).
    destruct (IH (Ser.record_result cfg env acc x))
      as (recs & Hd & Ht & He & Hr & Hc & Hp & Hec & Hpc).
    exists (rec1 ++ recs). rewrite filter_cons.
    assert (Hlen : Z.of_nat (length (if decide (failing x.2 = true)
                     then x :: filter (λ x, failing x.2 = true) xs
                     else filter (λ x, failing x.2 = true) xs))
              = (if failing x.2 then 1 else 0)
                + Z.of_nat (length (filter (λ x, failing x.2 = true) xs))).
    { destruct (failing x.2) eqn:Hf.
      - rewrite decide_True by done. simpl. lia.
      - rewrite decide_False by congruence. lia. }
    split_and!.
    + by rewrite Hd, Hd1.
    + by rewrite Ht, Ht1, fmap_app, (assoc_L (++)).
    + rewrite fmap_app, He1, He, Hd1.
      assert (Hurl : ∀ y : nat * (option string + string),
                logged_episode (set_iframe_url x.1 (value_of x.2) (data acc.1)) y.1
                = logged_episode (data acc.1) y.1).
      { intros y. unfold logged_episode. by rewrite url_deref_set_iframe_url. }
      rewrite (list_fmap_ext _ _ _ (λ _ y _, Hurl y)).
      destruct (failing x.2) eqn:Hf.
      * by rewrite decide_True.
      * by rewrite decide_False by congruence.
    + by apply Forall_app.
    + rewrite Hc, Hc1, Hlen. lia.
    + rewrite Hp. simpl. destruct (failing x.2); lia.
    + rewrite Hec, Hec1, Hlen. lia.
    + rewrite Hpc. simpl. destruct (failing x.2); lia.
Qed.

End batch_results.

Section batch_claim.
Import Exec Json Runtime.

Lemma V_record_results_spec (env : Env) (xs : list (nat * (option string + string))) :
  ∀ s,
    data (foldl V.record_result s xs) = apply_results (data s) xs ∧
    error_count (foldl V.record_result s xs)
      = error_count s + Z.of_nat (length (filter (λ x, failing x.2 = true) xs)) ∧
    processed_count (foldl V.record_result s xs) + error_count (foldl V.record_result s xs)
      = processed_count s + error_count s + Z.of_nat (length xs).
Proof.
  induction xs as [|x xs IH]; intros s; simpl.
  - split_and!; [done|lia|lia].
  - destruct (IH (V.record_result s x)) as (Hd & He & Hp).
    rewrite Hd, Hp, He, filter_cons.
    assert (H1 : data (V.record_result s x) = set_iframe_url x.1 (value_of x.2) (data s) ∧
                 error_count (V.record_result s x)
                   = error_count s + (if failing x.2 then 1 else 0) ∧
                 processed_count (V.record_result s x)
                   = processed_count s + (if failing x.2 then 0 else 1)).
    { unfold V.record_result. destruct x as [r [v|msg]]; simpl.
      - destruct (truthy v); simpl; split_and!; try done; lia.
      - split_and!; try done; lia. }
    destruct H1 as (-> & -> & ->). split_and!; [done| |].
    + destruct (failing x.2) eqn:Hf.
      * rewrite decide_True by done. simpl. lia.
      * rewrite decide_False by congruence. lia.
    + destruct (failing x.2); lia.
Qed.

Lemma filter_fst_corresponds {B : Type} (P : nat → Prop) `{!∀ r, Decision (P r)}
    (Q : nat * B → Prop) `{!∀ x, Decision (Q x)} (xs : list (nat * B)) :
  (∀ x, x ∈ xs → (P x.1 ↔ Q x)) → filter P xs.*1 = (filter Q xs).*1.
Proof.
  induction xs as [|x xs IH]; intros Hpq; [done|].
  rewrite fmap_cons, !filter_cons.
  assert (Hx : P x.1 ↔ Q x) by (apply Hpq; by left).
  rewrite IH by (intros y Hy; apply Hpq; by right).
  destruct (decide (P x.1)), (decide (Q x)); try tauto; by rewrite ?fmap_cons.
Qed.

(** The sub-items of the batch that are left without a truthy result. *)
Definition failed_in (m : Loaded) (batch : list nat) : list nat :=
  filter (λ r, truthy (iframe_url (deref m r)) = false) batch.

(** The events a call added to the trace. *)
Definition new_events (s s' : State) : list Event :=
  drop (length (trace s)) (trace s').

Lemma failed_in_results (env : Env) (m : Loaded) (batch : list nat)
    (results : list (option string + string)) :
  NoDup batch → length results = length batch →
  Forall (λ r, (r < length (heap m))%nat) batch →
  Forall (task_result_ok env) results →
  failed_in (apply_results m (zip batch results)) batch
    = (filter (λ x, failing x.2 = true) (zip batch results)).*1 ∧
  Forall (λ r, iframe_url (deref (apply_results m (zip batch results)) r) = None)
         (failed_in (apply_results m (zip batch results)) batch).
Proof.
  intros Hnd Hlen Hrange Hok.
  assert (Hfst : (zip batch results).*1 = batch) by (apply fst_zip; lia).
  assert (Hval : ∀ x, x ∈ zip batch results →
            iframe_url (deref (apply_results m (zip batch results)) x.1) = value_of x.2).
  { intros [r res] Hin. simpl. apply apply_results_in; [by rewrite Hfst|done|].
    apply (Forall_forall (λ r, (r < length (heap m))%nat) batch); [done|].
    rewrite <- Hfst. apply list_elem_of_fmap. by exists (r, res). }
  assert (Hokx : ∀ x, x ∈ zip batch results → task_result_ok env x.2).
  { intros [r res] Hin. simpl. apply (Forall_forall (task_result_ok env) results); [done|].
    by eapply elem_of_zip_r. }
  split.
  - unfold failed_in.
    pose proof (filter_fst_corresponds
      (λ r, truthy (iframe_url (deref (apply_results m (zip batch results)) r)) = false)
      (λ x : nat * (option string + string), failing x.2 = true)
      (zip batch results)) as Hf.
    rewrite Hfst in Hf. apply Hf. intros x Hx. rewrite (Hval x Hx).
    destruct x as [r [v|msg]]; simpl; [|done].
    destruct (truthy v); simpl; split; congruence.
  - apply Forall_forall. intros r Hr. unfold failed_in in Hr.
    apply list_elem_of_filter in Hr as [Hfalse Hr].
    rewrite <- Hfst in Hr. apply list_elem_of_fmap in Hr as ([r' res] & -> & Hin).
    pose proof (Hval _ Hin) as Hv. pose proof (Hokx _ Hin) as Hk. simpl in Hv, Hk, Hfalse |- *.
    rewrite Hv in Hfalse |- *.
    destruct res as [v|msg]; [|done]. simpl in *.
    destruct Hk as [->|Ht]; [done|]. congruence.
Qed.

End batch_claim.

Section batch_theorem.
Import Exec Json Runtime.

Lemma failures_app (t1 t2 : list Event) :
  failures (t1 ++ t2) = failures t1 ++ failures t2.
Proof. unfold failures. apply omap_app. Qed.

Lemma extracts_app (t1 t2 : list Event) :
  extracts (t1 ++ t2) = extracts t1 ++ extracts t2.
Proof. unfold extracts. apply omap_app. Qed.

Lemma failures_of_extracts (urls : list string) : failures (EvExtract <$> urls) = [].
Proof. induction urls as [|u urls IH]; [done|exact IH]. Qed.

Lemma failures_of_failures (records : list FailureRecord) :
  failures (EvFailure <$> records) = records.
Proof. unfold failures. induction records as [|f fs IH]; [done|]. simpl. by f_equal. Qed.

Lemma extracts_of_extracts (urls : list string) : extracts (EvExtract <$> urls) = urls.
Proof. unfold extracts. induction urls as [|u urls IH]; [done|]. simpl. by f_equal. Qed.

Lemma extracts_of_failures (records : list FailureRecord) :
  extracts (EvFailure <$> records) = [].
Proof. induction records as [|f fs IH]; [done|exact IH]. Qed.

(** The [gather] of a batch that is not cancelled, on a pool with a tab. *)
Lemma run_tasks_returns (env : Env) (batch : list nat) (s : State) :
  cancel env (tick s) = false → pool_ready (browsers s) →
  ∃ results s1 urls,
    run_tasks env batch s = (Val results, s1) ∧
    length results = length batch ∧
    Forall (task_result_ok env) results ∧
    data s1 = data s ∧ error_count s1 = error_count s ∧
    processed_count s1 = processed_count s ∧
    trace s1 = trace s ++ (EvExtract <$> urls) ∧
    (length urls ≤ length batch)%nat.
Proof.
  intros Hc Hready.
  destruct (run_tasks env batch s) as [[results|msg| |] s1] eqn:Hrun;
    destruct (run_tasks_spec env batch s _ _ Hrun) as (Hstep & Hlen & Hres).
  - destruct Hres as (_ & Hl & Hok).
    destruct Hstep as (_ & _ & Hd & Hp & He & _ & _ & _ & _ & _ & [urls Hu] & _).
    exists results, s1, urls. split_and!; try done.
    rewrite Hu, length_app, length_fmap in Hlen. lia.
  - done.
  - destruct Hres as (Hc' & _). congruence.
  - done.
Qed.

Lemma batch_of_results (env : Env) (batch : list nat)
    (results : list (option string + string)) :
  length results = length batch → Forall (task_result_ok env) results →
  Forall (λ x : nat * (option string + string), task_result_ok env x.2)
         (zip batch results).
Proof.
  intros Hlen Hok. apply Forall_forall. intros [r res] Hin. simpl.
  apply (Forall_forall (task_result_ok env) results); [done|]. by eapply elem_of_zip_r.
Qed.

End batch_theorem.


(** *** A batch with a success, a page without player and a task that raises *)

Definition demo_env_mixed : Runtime.Env :=
  {| Runtime.page := λ _ u, if bool_decide (u = "https://site/play/a/2")
                            then Runtime.NotFound
                            else Runtime.Found ("https://kwik/e/" +:+ u);
     Runtime.task_fault := λ k, if bool_decide (k = 5%nat)
                                then Some "Target page, context or browser has been closed"
                                else None;
     Runtime.write_fault := λ _, false;
     Runtime.cancel := λ _, false;
     Runtime.time := λ k, 1000 + Z.of_nat k |}.

(** No page has a player. *)
Definition demo_env_nothing : Runtime.Env :=
  {| Runtime.page := λ _ _, Runtime.NotFound;
     Runtime.task_fault := λ _, None;
     Runtime.write_fault := λ _, false;
     Runtime.cancel := λ _, false;
     Runtime.time := λ k, 1000 + Z.of_nat k |}.

Definition demo_loaded : Runtime.State :=
  Runtime.set_data (λ _, Json.load demo_item) demo_state.



(** * Further properties of the code *)

(** ** An instance on its own never leaves its scan loop *)

Section instance.
Import Exec Json Runtime.

(** A scan never creates a marker, and reports every file that has none. *)
Lemma scan_files_free (clock : nat → Z) (d : string) (json_files : list string) :
  ∀ (k : nat) (locks : Coordinator.LockStore),
  (∀ key, locks !! key = None →
          (Coordinator.scan_files clock k d json_files locks).2 !! key = None) ∧
  (∀ f, f ∈ json_files →
        locks !! Coordinator.lock_name (Path.join d f) = None →
        Path.join d f ∈ (Coordinator.scan_files clock k d json_files locks).1).
Proof.
  induction json_files as [|g rest IH]; intros k locks.
  - split; [done|]. by intros f ?%elem_of_nil.
  - simpl.
    destruct (Coordinator.is_file_being_processed (clock k) (Path.join d g) locks)
      as [busy locks1] eqn:Hcheck.
    destruct (Coordinator.scan_files clock (S k) d rest locks1)
      as [available locks2] eqn:Hscan.
    destruct (IH (S k) locks1) as [IHstore IHlist]. rewrite Hscan in IHstore, IHlist.
    assert (Hkeep : ∀ key, locks !! key = None → locks1 !! key = None).
    { intros key Hkey. unfold Coordinator.is_file_being_processed in Hcheck.
      destruct (locks !! Coordinator.lock_name (Path.join d g)) as [m|].
      - case_bool_decide; injection Hcheck as <- <-; [|done].
        rewrite lookup_delete_None. by right.
      - by injection Hcheck as <- <-. }
    split.
    + intros key Hkey. simpl. by apply IHstore, Hkeep.
    + intros f Hf Hfree. simpl. apply elem_of_cons in Hf as [->|Hf].
      * unfold Coordinator.is_file_being_processed in Hcheck. rewrite Hfree in Hcheck.
        injection Hcheck as <- <-. apply elem_of_cons. by left.
      * assert (Path.join d f ∈ available) by by apply IHlist; [|apply Hkeep].
        destruct busy; [done|]. apply elem_of_cons. by right.
Qed.

(** Without a cancellation the batches of v.py are not cancelled. *)
Lemma V_process_batches_not_cancelled (env : Env) (file_path : string)
    (batches : list (list nat)) :
  (∀ k, cancel env k = false) →
  ∀ s s', V.process_batches env file_path batches s ≠ (Cancelled, s').
Proof.
  intros Hnc. induction batches as [|batch batches IH]; intros s s' H; simpl in H.
  - done.
  - unfold bind in H.
    destruct (V.process_episode_batch env batch s) as [[b|msg| |] s1] eqn:Hb;
      pose proof (V_process_episode_batch_spec env batch s _ _ Hb)
        as (_ & _ & _ & _ & Hres); try done.
    + destruct (write_json env file_path s1) as [[u|msg| |] s2] eqn:Hw;
        pose proof (write_json_spec env file_path s1 _ _ Hw) as (_ & _ & _ & _ & Hres2);
        try done.
      by eapply IH.
    + destruct Hres as [Hc _]. by rewrite Hnc in Hc.
Qed.

Lemma Ser_process_batches_not_cancelled (cfg : Config) (env : Env)
    (batches : list (list nat)) :
  (∀ k, cancel env k = false) →
  ∀ s s', Ser.process_batches cfg env batches s ≠ (Cancelled, s').
Proof.
  intros Hnc. induction batches as [|batch batches IH]; intros s s' H; simpl in H.
  - done.
  - unfold bind in H.
    destruct (Ser.process_episode_batch cfg env batch s) as [[r|msg| |] s1] eqn:Hb;
      pose proof (Ser_process_episode_batch_spec cfg env batch s _ _ Hb) as [_ Hres];
      try done.
    + unfold modify in H. simpl in H. by eapply IH.
    + destruct Hres as [Hc _]. by rewrite Hnc in Hc.
Qed.

(** What [process_file] leaves of the coordination directory: the marker of
    its file is gone, the other markers are untouched. *)
Definition released (file_path : string) (s s' : State) : Prop :=
  locks s' !! Coordinator.lock_name file_path = None ∧
  ∀ key, key ≠ Coordinator.lock_name file_path → locks s' !! key = locks s !! key.

Lemma released_intro (file_path : string) (now : Z) (who : string) (s s' : State) :
  locks s' = Coordinator.unlock_file file_path
               (Coordinator.lock_file now who file_path (locks s)) →
  released file_path s s'.
Proof.
  intros H. split.
  - rewrite H. apply unlock_file_lookup.
  - intros key Hkey. rewrite H. unfold Coordinator.unlock_file, Coordinator.lock_file.
    rewrite lookup_insert_eq. rewrite lookup_delete_ne by done.
    by rewrite lookup_insert_ne.
Qed.

(** Without a cancellation and with a tab in the pool, [process_file]
    returns, with the pool as ready as before. *)
Lemma V_process_file_returns (cfg : Config) (env : Env) (file_path : string) (s : State) :
  (∀ k, cancel env k = false) → pool_ready (browsers s) →
  ∃ b s', V.process_file cfg env file_path s = (Val b, s') ∧
          pool_ready (browsers s') ∧ released file_path s s'.
Proof.
  intros Hnc Hready.
  destruct (files s !! file_path) as [[d|]|] eqn:Hfile.
  - rewrite (V_process_file_unfold cfg env file_path s d Hfile).
    set (s0 := set_data _ _).
    assert (Hl0 : locks s0 = Coordinator.lock_file (time env (tick s))
                               (coordinator_id cfg) file_path (locks s)) by done.
    destruct (pending (load d)) as [|r rest].
    { eexists _, _. split; [done|]. split; [done|]. by apply (released_intro _ (time env (tick s)) (coordinator_id cfg)). }
    case_bool_decide.
    { eexists _, _. split; [done|]. split; [done|]. by apply (released_intro _ (time env (tick s)) (coordinator_id cfg)). }
    destruct (V.process_batches env file_path _ s0) as [[u|msg| |] s1] eqn:Hb;
      pose proof (V_process_batches_spec env file_path _ _ _ _ Hb) as (Hl & Hp & _);
      destruct (Hp Hready) as [Hready1 Hnh].
    + eexists _, _. split; [done|]. split; [done|].
      apply (released_intro _ (time env (tick s)) (coordinator_id cfg)). simpl. by rewrite Hl.
    + eexists _, _. split; [done|]. split; [done|].
      apply (released_intro _ (time env (tick s)) (coordinator_id cfg)). simpl. by rewrite Hl.
    + by apply V_process_batches_not_cancelled in Hb.
    + done.
  - unfold V.process_file, try_finally, try_except, bind, lock_file, read_json,
      unlock_file, fresh, modify, gets, ret, raise. simpl. rewrite Hfile. simpl.
    eexists _, _. split; [done|]. split; [done|]. by apply (released_intro _ (time env (tick s)) (coordinator_id cfg)).
  - unfold V.process_file, try_finally, try_except, bind, lock_file, read_json,
      unlock_file, fresh, modify, gets, ret, raise. simpl. rewrite Hfile. simpl.
    eexists _, _. split; [done|]. split; [done|]. by apply (released_intro _ (time env (tick s)) (coordinator_id cfg)).
Qed.

Lemma Ser_process_file_returns (cfg : Config) (env : Env) (file_path : string) (s : State) :
  (∀ k, cancel env k = false) → pool_ready (browsers s) →
  ∃ b s', Ser.process_file cfg env file_path s = (Val b, s') ∧
          pool_ready (browsers s') ∧ released file_path s s'.
Proof.
  intros Hnc Hready. rewrite Ser_process_file_unfold.
  assert (Hl0 : locks (ser_locked cfg env file_path s)
                = Coordinator.lock_file (time env (tick s))
                    (coordinator_id cfg) file_path (locks s)) by done.
  destruct (files s !! file_path) as [[d|]|] eqn:Hfile.
  - destruct (Ser.process_batches cfg env _ (ser_loaded cfg env file_path d s))
      as [[u|msg| |] s1] eqn:Hb;
      pose proof (Ser_process_batches_spec cfg env _ _ _ _ Hb)
        as [(Hl & _ & _ & _ & Hp & _) Hres].
    + destruct (write_fault env (tick s1)).
      * eexists _, _. split; [done|]. split; [by apply Hp|].
        apply (released_intro _ (time env (tick s)) (coordinator_id cfg)). simpl. by rewrite Hl.
      * eexists _, _. split; [done|]. split; [by apply Hp|].
        apply (released_intro _ (time env (tick s)) (coordinator_id cfg)). simpl. by rewrite Hl.
    + done.
    + by apply Ser_process_batches_not_cancelled in Hb.
    + done.
  - eexists _, _. split; [done|]. split; [done|]. by apply (released_intro _ (time env (tick s)) (coordinator_id cfg)).
  - eexists _, _. split; [done|]. split; [done|]. by apply (released_intro _ (time env (tick s)) (coordinator_id cfg)).
Qed.

(** The loop of [run_instance] with a file that is always listed and has no
    marker: every turn finds a file, processes one and goes on. *)
Lemma loop_goes_on (cfg : Config) (env : Env)
    (listdir : nat → option (list string)) (choice : nat → nat) (catches : bool)
    (process_file : string → M State bool) (directory f0 : string) :
  (∀ k, cancel env k = false) →
  (∀ k, ∃ listing, listdir k = Some listing ∧ f0 ∈ listing) →
  Coordinator.is_anime_json f0 = true →
  (∀ p s, pool_ready (browsers s) →
          ∃ b s', process_file p s = (Val b, s') ∧
                  pool_ready (browsers s') ∧ released p s s') →
  ∀ turns s,
  pool_ready (browsers s) →
  locks s !! Coordinator.lock_name (Path.join directory f0) = None →
  ∃ s', Instance.loop env listdir choice catches process_file directory turns s
          = (Val Instance.OutOfTurns, s') ∧
        pool_ready (browsers s') ∧
        locks s' !! Coordinator.lock_name (Path.join directory f0) = None.
Proof.
  intros Hnc Hlist Hname Hpf. induction turns as [|turns IH]; intros s Hready Hfree.
  - by exists s.
  - simpl. unfold bind at 1. unfold Instance.get_available_files at 1.
    unfold bind at 1. unfold fresh at 1.
    destruct (Hlist (tick s)) as (listing & -> & Hin).
    cbn beta iota zeta.
    set (r := Coordinator.get_available_files _ directory listing _).
    set (s1 := set_locks (λ _, r.2) _).
    assert (Hfiltered : f0 ∈ filter (λ f, Coordinator.is_anime_json f = true) listing)
      by by apply list_elem_of_filter.
    destruct (scan_files_free (λ i, time env (tick (set_tick S s) + i)) directory
                (filter (λ f, Coordinator.is_anime_json f = true) listing)
                0%nat (locks (set_tick S s))) as [Hstore Havail].
    assert (Hr : Path.join directory f0 ∈ r.1) by by apply Havail.
    assert (Hfree1 : locks s1 !! Coordinator.lock_name (Path.join directory f0) = None)
      by by apply Hstore.
    destruct r.1 as [|first others] eqn:Hav; [by apply elem_of_nil in Hr|].
    unfold bind at 1. unfold ret at 1. unfold bind at 1. unfold fresh at 1.
    cbn beta iota zeta.
    match goal with |- context [process_file ?f] => set (file_to_process := f) end.
    destruct (Hpf file_to_process (set_tick S s1)) as (b & s2 & Hrun & Hready2 & Hrel);
      [done|].
    unfold bind at 1. rewrite Hrun.
    unfold bind at 1. unfold Instance.sleep at 1. unfold bind at 1. unfold fresh at 1.
    cbn beta iota zeta. rewrite Hnc. unfold ret at 1.
    apply IH; [done|].
    simpl. destruct Hrel as [Hgone Hother].
    destruct (decide (Coordinator.lock_name (Path.join directory f0)
                      = Coordinator.lock_name file_to_process)) as [->|Hne]; [done|].
    rewrite Hother by done. done.
Qed.

End instance.

(** X1. An instance of v.py or of ser.py that runs alone never leaves its scan
    loop while the directory lists an [anime_*.json] file that has no marker:
    [get_available_files] looks at the markers only, never at what is left to
    do in a file, and [process_file] removes its own marker before it
    returns. Whatever the number of turns, the loop has not reached its
    [break] (nor an exception) after them. *)
Theorem instance_never_shuts_down
    (cfg : Runtime.Config) (env : Runtime.Env)
    (launch_ok : nat → bool) (tab_ok : nat → nat → bool)
    (listdir : nat → option (list string)) (choice : nat → nat)
    (directory f0 : string) (s : Runtime.State) (turns : nat) :
  (∀ k, Runtime.cancel env k = false) →
  (∀ k, ∃ listing, listdir k = Some listing ∧ f0 ∈ listing) →
  Coordinator.is_anime_json f0 = true →
  Runtime.locks s !! Coordinator.lock_name (Path.join directory f0) = None →
  (0 < Pool.free_count
         (Pool.init_browsers (Runtime.max_browsers cfg) (Runtime.max_tabs_per_browser cfg)
            launch_ok tab_ok))%nat →
  (∃ s', Instance.v_run_instance cfg env launch_ok tab_ok listdir choice directory turns s
           = (Exec.Val Instance.OutOfTurns, s')) ∧
  (∃ s', Instance.ser_run_instance cfg env launch_ok tab_ok listdir choice directory turns s
           = (Exec.Val Instance.OutOfTurns, s')).
Proof.
  intros Hnc Hlist Hname Hfree Hpool.
  pose proof (init_browsers_ready _ _ _ _ Hpool) as Hready.
  split.
  - destruct (loop_goes_on cfg env listdir choice true (V.process_file cfg env)
                directory f0 Hnc Hlist Hname
                (λ p s0 Hr, V_process_file_returns cfg env p s0 Hnc Hr) turns
                (Runtime.set_browsers
                   (λ _, Pool.init_browsers (Runtime.max_browsers cfg)
                           (Runtime.max_tabs_per_browser cfg) launch_ok tab_ok) s)
                Hready Hfree) as (s' & Hloop & _).
    exists s'. unfold Instance.v_run_instance, Instance.run_instance,
      Instance.init_browsers, Instance.cleanup, Exec.bind, Exec.modify,
      Exec.try_finally, Exec.try_except, Exec.ret.
    by rewrite Hloop.
  - destruct (loop_goes_on cfg env listdir choice false (Ser.process_file cfg env)
                directory f0 Hnc Hlist Hname
                (λ p s0 Hr, Ser_process_file_returns cfg env p s0 Hnc Hr) turns
                (Runtime.set_browsers
                   (λ _, Pool.init_browsers (Runtime.max_browsers cfg)
                           (Runtime.max_tabs_per_browser cfg) launch_ok tab_ok) s)
                Hready Hfree) as (s' & Hloop & _).
    exists s'. unfold Instance.ser_run_instance, Instance.run_instance,
      Instance.init_browsers, Instance.cleanup, Exec.bind, Exec.modify,
      Exec.try_finally, Exec.try_except, Exec.ret.
    by rewrite Hloop.
Qed.

(** One file whose seven sub-items all get a result in the first turn: the
    instance is still in its loop after three turns. *)
Lemma instance_never_shuts_down_witness :
  (Instance.v_run_instance demo_cfg_3 demo_env (λ _, true) (λ _ _, true)
     (λ _, Some ["anime_1.json"]) (λ k, k) "." 3
     (demo_state_with "./anime_1.json" (Some demo_item))).1
  = Exec.Val Instance.OutOfTurns.
Proof.
  destruct (instance_never_shuts_down demo_cfg_3 demo_env (λ _, true) (λ _ _, true)
              (λ _, Some ["anime_1.json"]) (λ k, k) "." "anime_1.json"
              (demo_state_with "./anime_1.json" (Some demo_item)) 3)
    as [[s' Hv] _].
  - reflexivity.
  - intros k. exists ["anime_1.json"]. split; [reflexivity|]. apply list_elem_of_here.
  - reflexivity.
  - reflexivity.
  - vm_compute. lia.
  - by rewrite Hv.
Defined.

(** X2. When the directory does not exist, v.py catches the error in
    [get_available_files], finds no file twice and shuts down after its 30
    second wait; ser.py lets the error reach [run_instance], whose [except]
    clause logs it. Neither touches a marker, a file or the trace. *)
Theorem missing_directory_ends_instance
    (cfg : Runtime.Config) (env : Runtime.Env)
    (launch_ok : nat → bool) (tab_ok : nat → nat → bool)
    (listdir : nat → option (list string)) (choice : nat → nat)
    (directory : string) (s : Runtime.State) (turns : nat) :
  (∀ k, listdir k = None) →
  (∀ k, Runtime.cancel env k = false) →
  (∃ s', Instance.v_run_instance cfg env launch_ok tab_ok listdir choice directory
           (S turns) s = (Exec.Val Instance.Shutdown, s') ∧
         Runtime.tick s' = (3 + Runtime.tick s)%nat ∧
         Runtime.locks s' = Runtime.locks s ∧ Runtime.files s' = Runtime.files s ∧
         Runtime.trace s' = Runtime.trace s) ∧
  (∃ s', Instance.ser_run_instance cfg env launch_ok tab_ok listdir choice directory
           (S turns) s = (Exec.Val (Instance.InstanceError "FileNotFoundError"), s') ∧
         Runtime.tick s' = (1 + Runtime.tick s)%nat ∧
         Runtime.locks s' = Runtime.locks s ∧ Runtime.files s' = Runtime.files s ∧
         Runtime.trace s' = Runtime.trace s).
Proof.
  intros Hdir Hnc. split.
  - unfold Instance.v_run_instance, Instance.run_instance, Instance.init_browsers,
      Instance.cleanup, Instance.loop, Instance.get_available_files, Instance.sleep,
      Exec.bind, Exec.modify, Exec.try_finally, Exec.try_except, Exec.ret,
      Exec.raise, Runtime.fresh.
    cbn beta iota zeta. rewrite !Hdir. cbn beta iota zeta. rewrite !Hnc.
    cbn beta iota zeta. rewrite !Hdir. eexists. split; [reflexivity|]. done.
  - unfold Instance.ser_run_instance, Instance.run_instance, Instance.init_browsers,
      Instance.cleanup, Instance.loop, Instance.get_available_files, Instance.sleep,
      Exec.bind, Exec.modify, Exec.try_finally, Exec.try_except, Exec.ret,
      Exec.raise, Runtime.fresh.
    cbn beta iota zeta. rewrite !Hdir. eexists. split; [reflexivity|]. done.
Qed.

Lemma missing_directory_ends_instance_witness :
  (Instance.v_run_instance demo_cfg_3 demo_env (λ _, true) (λ _ _, true)
     (λ _, None) (λ k, k) "gone" 1 demo_state).1 = Exec.Val Instance.Shutdown ∧
  (Instance.ser_run_instance demo_cfg_3 demo_env (λ _, true) (λ _ _, true)
     (λ _, None) (λ k, k) "gone" 1 demo_state).1
    = Exec.Val (Instance.InstanceError "FileNotFoundError").
Proof.
  destruct (missing_directory_ends_instance demo_cfg_3 demo_env (λ _, true) (λ _ _, true)
              (λ _, None) (λ k, k) "gone" demo_state 0 (λ _, eq_refl) (λ _, eq_refl))
    as [(s1 & H1 & _) (s2 & H2 & _)].
  by rewrite H1, H2.
Defined.

(** ** v.py with no capacity *)

(** X3. v.py takes the numbers of browsers and of tabs as they are typed in.
    With a product of zero, [process_file] fails on every file that has a
    pending sub-item (the division by the batch size raises) and returns
    [False]; with a negative product the range of batches is empty and it
    returns [True] and counts the file as processed. In both cases no page is
    extracted, nothing is written, the sub-items stay pending and the marker
    is removed. *)
Theorem v_process_file_without_capacity
    (cfg : Runtime.Config) (env : Runtime.Env) (file_path : string)
    (s : Runtime.State) (d : Json.Data) :
  Runtime.files s !! file_path = Some (Some d) →
  Json.pending (Json.load d) ≠ [] →
  Runtime.max_browsers cfg * Runtime.max_tabs_per_browser cfg ≤ 0 →
  ∃ s', V.process_file cfg env file_path s
          = (Exec.Val (bool_decide
                         (Runtime.max_browsers cfg * Runtime.max_tabs_per_browser cfg < 0)),
             s') ∧
        Runtime.trace s' = Runtime.trace s ∧
        Runtime.files s' = Runtime.files s ∧
        Json.dump (Runtime.data s') = d ∧
        Runtime.locks s' !! Coordinator.lock_name file_path = None ∧
        Runtime.files_processed_count s' =
          (if bool_decide (Runtime.max_browsers cfg * Runtime.max_tabs_per_browser cfg < 0)
           then Z.succ (Runtime.files_processed_count s)
           else Runtime.files_processed_count s).
Proof.
  intros Hfile Hpending Hcap.
  rewrite (V_process_file_unfold cfg env file_path s d Hfile).
  destruct (Json.pending (Json.load d)) as [|r rest] eqn:Hp; [done|].
  unfold V.batch_size. case_bool_decide as Hzero.
  - rewrite bool_decide_eq_false_2 by lia.
    eexists. split; [done|]. simpl. split_and!; try done.
    + apply dump_load.
    + apply unlock_file_lookup.
  - rewrite bool_decide_eq_true_2 by lia.
    unfold Batch.waves, Batch.py_range. rewrite bool_decide_eq_false_2 by lia.
    simpl. eexists. split; [done|]. simpl. split_and!; try done.
    + apply dump_load.
    + apply unlock_file_lookup.
Qed.

Lemma v_process_file_without_capacity_witness :
  (V.process_file
     {| Runtime.instance_id := "INST-01"; Runtime.coordinator_id := "9f3a6c1e";
        Runtime.max_browsers := 0; Runtime.max_tabs_per_browser := 3;
        Runtime.failure_logger := false |}
     demo_env "anime_1.json" demo_state).1 = Exec.Val false ∧
  (V.process_file
     {| Runtime.instance_id := "INST-01"; Runtime.coordinator_id := "9f3a6c1e";
        Runtime.max_browsers := -1; Runtime.max_tabs_per_browser := 3;
        Runtime.failure_logger := false |}
     demo_env "anime_1.json" demo_state).1 = Exec.Val true.
Proof.
  split.
  - destruct (v_process_file_without_capacity
                {| Runtime.instance_id := "INST-01"; Runtime.coordinator_id := "9f3a6c1e";
                   Runtime.max_browsers := 0; Runtime.max_tabs_per_browser := 3;
                   Runtime.failure_logger := false |}
                demo_env "anime_1.json" demo_state demo_item)
      as (s' & H & _); [reflexivity|by vm_compute|simpl; lia|].
    by rewrite H.
  - destruct (v_process_file_without_capacity
                {| Runtime.instance_id := "INST-01"; Runtime.coordinator_id := "9f3a6c1e";
                   Runtime.max_browsers := -1; Runtime.max_tabs_per_browser := 3;
                   Runtime.failure_logger := false |}
                demo_env "anime_1.json" demo_state demo_item)
      as (s' & H & _); [reflexivity|by vm_compute|simpl; lia|].
    by rewrite H.
Defined.

(** ** The write-back loop of ser.py *)

Section write_back.
Import Json.

Lemma replace_first_length (h : list Episode) (updated : nat) (episodes : list nat) :
  length (Ser.replace_first h updated episodes) = length episodes.
Proof.
  induction episodes as [|r rest IH]; [done|]. simpl.
  case_decide; simpl; by rewrite ?IH.
Qed.

Lemma replace_first_same (h : list Episode) (updated : nat) (episodes : list nat) :
  (∀ r, r ∈ episodes →
        url (default no_episode (h !! r)) = url (default no_episode (h !! updated)) →
        r = updated) →
  Ser.replace_first h updated episodes = episodes.
Proof.
  induction episodes as [|r rest IH]; intros Hinj; [done|]. simpl.
  case_decide as Hurl.
  - f_equal. symmetry. apply Hinj; [apply list_elem_of_here|done].
  - f_equal. apply IH. intros r' Hr'. apply Hinj. by apply list_elem_of_further.
Qed.

(** Distinct references of a heap with distinct urls have distinct urls. *)
Lemma url_inj (h : list Episode) (r r' : nat) :
  NoDup (url <$> h) → (r < length h)%nat → (r' < length h)%nat →
  url (default no_episode (h !! r)) = url (default no_episode (h !! r')) → r = r'.
Proof.
  intros Hnd Hr Hr' Hurl.
  destruct (lookup_lt_is_Some_2 h r Hr) as [e He].
  destruct (lookup_lt_is_Some_2 h r' Hr') as [e' He'].
  rewrite He, He' in Hurl. simpl in Hurl.
  eapply NoDup_lookup; [exact Hnd| |].
  - rewrite list_lookup_fmap, He. reflexivity.
  - rewrite list_lookup_fmap, He'. simpl. by rewrite Hurl.
Qed.

End write_back.

(** X4. In a work item whose episodes have pairwise distinct urls, the loop
    "Update the episodes in the data" of ser.py [process_file] replaces every
    episode of a batch by itself: it changes nothing, the results are in the
    work item because the batch holds references to its episodes. *)
Theorem ser_write_back_is_identity (updated_batch : list nat) (m : Json.Loaded) :
  NoDup (Json.url <$> Json.heap m) →
  Forall (λ r, (r < length (Json.heap m))%nat) (concat (Json.anime m)) →
  Forall (λ r, (r < length (Json.heap m))%nat) updated_batch →
  Ser.relink updated_batch m = m.
Proof.
  intros Hnd Hrefs. revert m Hnd Hrefs.
  induction updated_batch as [|u rest IH]; intros m Hnd Hrefs Hbatch; [done|].
  apply Forall_cons in Hbatch as [Hu Hrest].
  unfold Ser.relink. simpl. fold (Ser.relink rest).
  assert (Hsame : Ser.replace_first (Json.heap m) u <$> Json.anime m = Json.anime m).
  { rewrite <- (list_fmap_id (Json.anime m)) at 2. apply list_fmap_ext.
    intros i episodes Hi. apply replace_first_same. intros r Hr Hurl.
    apply (url_inj (Json.heap m)); [done| |done|done].
    rewrite Forall_forall in Hrefs. apply Hrefs.
    apply list_elem_of_In, in_concat. exists episodes.
    split; apply list_elem_of_In; [by eapply list_elem_of_lookup_2|done]. }
  rewrite Hsame.
  assert (Hm : {| Json.heap := Json.heap m; Json.anime := Json.anime m |} = m)
    by by destruct m.
  rewrite Hm. by apply IH.
Qed.

Lemma ser_write_back_is_identity_witness :
  Ser.relink [0; 2]%nat (Json.load demo_item) = Json.load demo_item.
Proof.
  apply ser_write_back_is_identity.
  - apply (bool_decide_unpack _). by vm_compute.
  - apply (bool_decide_unpack _). by vm_compute.
  - apply (bool_decide_unpack _). by vm_compute.
Defined.

(** X5. The same loop finds the place of an updated episode by its url alone:
    in each anime the first episode with that url (or, for an episode
    without url, the first one without url) is replaced by the updated
    episode, whether or not it is the same episode. *)
Theorem ser_write_back_overwrites_first_match
    (h : list Json.Episode) (updated : nat) (episodes : list nat) (j original : nat) :
  episodes !! j = Some original →
  Json.url (default Json.no_episode (h !! original))
    = Json.url (default Json.no_episode (h !! updated)) →
  (∀ i r, (i < j)%nat → episodes !! i = Some r →
          Json.url (default Json.no_episode (h !! r))
            ≠ Json.url (default Json.no_episode (h !! updated))) →
  Ser.replace_first h updated episodes = <[j := updated]> episodes.
Proof.
  revert j. induction episodes as [|r rest IH]; intros j Hj Hurl Hfirst; [done|].
  simpl. destruct j as [|j].
  - injection Hj as ->. by rewrite decide_True.
  - rewrite decide_False by (apply (Hfirst 0%nat r); [lia|done]).
    simpl. f_equal. apply IH; [done|done|].
    intros i r' Hi Hr'. apply (Hfirst (S i) r'); [lia|done].
Qed.

(** Two episodes with the same url, the first one resolved, the second one
    pending. *)
Definition demo_duplicate_item : Json.Data :=
  [[{| Json.url := Some "https://site/play/a/1";
       Json.iframe_url := Some "https://kwik/e/a1" |};
    {| Json.url := Some "https://site/play/a/1"; Json.iframe_url := None |}]].

(** The pending duplicate fails; written back over the resolved episode, it
    takes the result that was in the file away. *)
Lemma ser_write_back_overwrites_first_match_witness :
  Ser.replace_first (Json.heap (Json.load demo_duplicate_item)) 1 [0; 1]%nat
    = [1; 1]%nat ∧
  Runtime.files
    (Ser.process_file demo_cfg_3 demo_env_nothing "anime_3.json"
       (demo_state_with "anime_3.json" (Some demo_duplicate_item))).2 !! "anime_3.json"
    = Some (Some [[{| Json.url := Some "https://site/play/a/1"; Json.iframe_url := None |};
                   {| Json.url := Some "https://site/play/a/1"; Json.iframe_url := None |}]]).
Proof.
  split; [|by vm_compute].
  apply (ser_write_back_overwrites_first_match _ 1 [0; 1]%nat 0 0).
  - reflexivity.
  - reflexivity.
  - intros i r Hi. lia.
Defined.

(** ** The per-file progress of ser.py *)

Section file_progress.
Import Exec Json Runtime.

(** The counters of the instance and the counts of the batch move together. *)
Lemma Ser_record_results_counts (cfg : Config) (env : Env)
    (xs : list (nat * (option string + string))) :
  ∀ acc,
  let r := foldl (Ser.record_result cfg env) acc xs in
  current_file_progress r.1 = current_file_progress acc.1 ∧
  current_file r.1 = current_file acc.1 ∧
  r.2.1 - acc.2.1 = processed_count r.1 - processed_count acc.1 ∧
  r.2.2 - acc.2.2 = error_count r.1 - error_count acc.1 ∧
  acc.2.1 ≤ r.2.1 ∧ acc.2.2 ≤ r.2.2 ∧
  r.2.1 + r.2.2 = acc.2.1 + acc.2.2 + Z.of_nat (length xs).
Proof.
  induction xs as [|x xs IH]; intros acc; simpl.
  - split_and!; try done; lia.
  - destruct (IH (Ser.record_result cfg env acc x)) as (Hf & Hc & Hp & He & Hp' & He' & Hsum).
    assert (H1 : let r1 := Ser.record_result cfg env acc x in
              current_file_progress r1.1 = current_file_progress acc.1 ∧
              current_file r1.1 = current_file acc.1 ∧
              r1.2.1 - acc.2.1 = processed_count r1.1 - processed_count acc.1 ∧
              r1.2.2 - acc.2.2 = error_count r1.1 - error_count acc.1 ∧
              acc.2.1 ≤ r1.2.1 ∧ acc.2.2 ≤ r1.2.2 ∧
              r1.2.1 + r1.2.2 = acc.2.1 + acc.2.2 + 1).
    { unfold Ser.record_result. destruct x as [r [v|msg]]; simpl.
      - destruct (truthy v); [|destruct (failure_logger cfg)]; simpl;
          split_and!; try done; lia.
      - destruct (failure_logger cfg); simpl; split_and!; try done; lia. }
    destruct H1 as (Hf1 & Hc1 & Hp1 & He1 & Hp1' & He1' & Hsum1).
    split_and!; try congruence; lia.
Qed.

(** What the batches that ran to their end did to the progress of the file
    and to the counters of the instance. *)
Lemma Ser_process_batches_progress (cfg : Config) (env : Env)
    (batches : list (list nat)) :
  ∀ s u s', Ser.process_batches cfg env batches s = (Val u, s') →
  current_file s' = current_file s ∧
  file_name (current_file_progress s') = file_name (current_file_progress s) ∧
  total_episodes (current_file_progress s') = total_episodes (current_file_progress s) ∧
  skipped (current_file_progress s') = skipped (current_file_progress s) ∧
  remaining (current_file_progress s')
    = remaining (current_file_progress s) - Z.of_nat (length (concat batches)) ∧
  processed (current_file_progress s') - processed (current_file_progress s)
    = processed_count s' - processed_count s ∧
  processed_count s ≤ processed_count s' ∧
  error_count s ≤ error_count s' ∧
  processed_count s' + error_count s'
    = processed_count s + error_count s + Z.of_nat (length (concat batches)).
Proof.
  induction batches as [|batch batches IH]; intros s u s' H; simpl in H.
  - injection H as _ <-. simpl. split_and!; try done; lia.
  - unfold bind in H.
    destruct (Ser.process_episode_batch cfg env batch s) as [[r|msg| |] s1] eqn:Hb;
      try done.
    unfold modify in H. simpl in H.
    apply IH in H as (Hc & Hn & Ht & Hs & Hr & Hp & Hpc & Hec & Hsum).
    simpl in Hc, Hn, Ht, Hs, Hr, Hp, Hpc, Hec, Hsum.
    unfold Ser.process_episode_batch, bind in Hb.
    destruct (run_tasks env batch s) as [[results|msg| |] s0] eqn:Hrun; try done.
    destruct (run_tasks_spec env batch s _ _ Hrun)
      as ((_ & _ & _ & Hp0 & He0 & _ & _ & Hc0 & Hf0 & _) & _ & (_ & Hlen & _)).
    injection Hb as <- <-.
    destruct (Ser_record_results_counts cfg env (zip batch results) (s0, (0, 0)))
      as (Hf1 & Hc1 & Hp1 & He1 & Hp1' & He1' & Hsum1).
    simpl in Hf1, Hc1, Hp1, He1, Hp1', He1', Hsum1.
    rewrite length_zip, Hlen, Nat.min_id in Hsum1.
    rewrite Hf1, Hf0 in Hn, Ht, Hs, Hr, Hp. rewrite Hc1, Hc0 in Hc.
    simpl in Hr, Hp.
    change (concat (batch :: batches)) with (batch ++ concat batches).
    rewrite length_app. split_and!; try done; lia.
Qed.

End file_progress.

(** X6. When ser.py [process_file] returns [True], the progress it leaves for
    the monitor is: no current file, the file name "Idle", all episodes of the
    file counted, those that had a result counted as skipped, nothing
    remaining. The episodes counted as processed are those the instance
    counted in [processed_count] over the call, the others of the pending
    ones are those it counted in [error_count]. *)
Theorem ser_file_progress_on_success
    (cfg : Runtime.Config) (env : Runtime.Env) (file_path : string)
    (s s' : Runtime.State) (d : Json.Data) :
  Runtime.files s !! file_path = Some (Some d) →
  Ser.process_file cfg env file_path s = (Exec.Val true, s') →
  let p := Runtime.current_file_progress s' in
  let pending := Z.of_nat (length (Json.pending_of d)) in
  Runtime.current_file s' = None ∧
  Runtime.file_name p = "Idle" ∧
  Runtime.total_episodes p = Z.of_nat (length (concat d)) ∧
  Runtime.skipped p = Z.of_nat (length (concat d)) - pending ∧
  Runtime.remaining p = 0 ∧
  0 ≤ Runtime.processed p ≤ pending ∧
  Runtime.processed_count s' = Runtime.processed_count s + Runtime.processed p ∧
  Runtime.error_count s' = Runtime.error_count s + (pending - Runtime.processed p).
Proof.
  intros Hfile Hrun p pending. subst p pending.
  rewrite Ser_process_file_unfold, Hfile in Hrun.
  assert (Hlen : length (Json.pending (Json.load d)) = length (Json.pending_of d))
    by (by rewrite <- pending_load, length_fmap).
  destruct (Ser.process_batches cfg env _ (ser_loaded cfg env file_path d s))
    as [[u|msg| |] s1] eqn:Hb; try done.
  apply Ser_process_batches_progress in Hb
    as (Hc & Hn & Ht & Hs & Hr & Hp & Hpc & Hec & Hsum).
  destruct (waves_partitioned (Json.pending (Json.load d)) Ser.batch_size) as [Hcat _];
    [done|].
  rewrite Hcat, Hlen in Hr, Hsum. simpl in Hc, Hn, Ht, Hs, Hr, Hp, Hpc, Hec, Hsum.
  rewrite Hlen in Hr, Hs.
  destruct (Runtime.write_fault env (Runtime.tick s1)); [done|].
  injection Hrun as <-. simpl. split_and!; try done; lia.
Qed.

Lemma ser_file_progress_on_success_witness :
  Runtime.current_file_progress
    (Ser.process_file demo_cfg_3 demo_env_mixed "anime_1.json" demo_state).2
  = {| Runtime.file_name := "Idle"; Runtime.total_episodes := 7;
       Runtime.processed := 6; Runtime.skipped := 0; Runtime.remaining := 0 |} ∧
  Runtime.processed_count
    (Ser.process_file demo_cfg_3 demo_env_mixed "anime_1.json" demo_state).2 = 6 ∧
  Runtime.error_count
    (Ser.process_file demo_cfg_3 demo_env_mixed "anime_1.json" demo_state).2 = 1.
Proof.
  destruct (ser_file_progress_on_success demo_cfg_3 demo_env_mixed "anime_1.json"
              demo_state
              (Ser.process_file demo_cfg_3 demo_env_mixed "anime_1.json" demo_state).2
              demo_item)
    as (_ & _ & _ & _ & _ & _ & Hp & He).
  - reflexivity.
  - by vm_compute.
  - split; [by vm_compute|]. split; [rewrite Hp|rewrite He]; by vm_compute.
Defined.

(** ** The markers of the coordination directory *)

(** X7. [lock_file] and [unlock_file] take no notice of the holder. For two
    paths with the same file name (the marker is named after
    [os.path.basename]): a second [lock_file] replaces the marker of the first
    silently; the [unlock_file] of the first holder then removes the marker of
    the second, and the file is reported free while the second holder is
    still at work. *)
Theorem lock_file_is_not_exclusive
    (t1 t2 now : Z) (first second p q : string) (locks : Coordinator.LockStore) :
  Path.basename p = Path.basename q →
  let taken := Coordinator.lock_file t1 first p locks in
  let retaken := Coordinator.lock_file t2 second q taken in
  retaken = Coordinator.lock_file t2 second q locks ∧
  retaken !! Coordinator.lock_name p
    = Some {| Coordinator.holder := second; Coordinator.mtime := t2 |} ∧
  Coordinator.unlock_file p retaken = delete (Coordinator.lock_name q) locks ∧
  Coordinator.is_file_being_processed now q (Coordinator.unlock_file p retaken)
    = (false, delete (Coordinator.lock_name q) locks).
Proof.
  intros Hname taken retaken. subst taken retaken.
  unfold Coordinator.lock_file, Coordinator.unlock_file,
    Coordinator.is_file_being_processed, Coordinator.lock_name.
  rewrite Hname. rewrite insert_insert_eq, lookup_insert_eq, delete_insert_eq.
  by rewrite lookup_delete_eq.
Qed.

Lemma lock_file_is_not_exclusive_witness :
  Coordinator.is_file_being_processed 1010 "b/anime_a.json"
    (Coordinator.unlock_file "a/anime_a.json"
       (Coordinator.lock_file 1005 "5e0c77aa" "b/anime_a.json"
          (Coordinator.lock_file 1000 "9f3a6c1e" "a/anime_a.json" ∅)))
  = (false, ∅).
Proof.
  destruct (lock_file_is_not_exclusive 1000 1005 1010 "9f3a6c1e" "5e0c77aa"
              "a/anime_a.json" "b/anime_a.json" ∅ eq_refl) as (_ & _ & _ & H).
  rewrite H. by rewrite delete_empty.
Defined.

(** X8. [process_file] writes its marker once and never touches it again: however
    many batches have been processed (and, in v.py, saved), the marker still
    has the modification time of the [lock_file] call. A scan made more than
    600 seconds after that call reports the file free and removes the marker,
    although its holder is still at work. *)
Theorem marker_is_never_refreshed
    (cfg : Runtime.Config) (env : Runtime.Env) (file_path : string)
    (batches : list (list nat)) (s : Runtime.State) (t0 now : Z) :
  Runtime.locks s !! Coordinator.lock_name file_path
    = Some {| Coordinator.holder := Runtime.coordinator_id cfg; Coordinator.mtime := t0 |} →
  now - t0 > 600 →
  (∀ res s1, V.process_batches env file_path batches s = (res, s1) →
     Runtime.locks s1 = Runtime.locks s ∧
     Coordinator.is_file_being_processed now file_path (Runtime.locks s1)
       = (false, delete (Coordinator.lock_name file_path) (Runtime.locks s))) ∧
  (∀ res s1, Ser.process_batches cfg env batches s = (res, s1) →
     Runtime.locks s1 = Runtime.locks s ∧
     Coordinator.is_file_being_processed now file_path (Runtime.locks s1)
       = (false, delete (Coordinator.lock_name file_path) (Runtime.locks s))).
Proof.
  intros Hmarker Hold.
  assert (Hscan : Coordinator.is_file_being_processed now file_path (Runtime.locks s)
                  = (false, delete (Coordinator.lock_name file_path) (Runtime.locks s))).
  { unfold Coordinator.is_file_being_processed. rewrite Hmarker. simpl.
    by rewrite bool_decide_eq_true_2. }
  split.
  - intros res s1 H.
    destruct (V_process_batches_spec env file_path batches s res s1 H) as (Hl & _).
    by rewrite Hl.
  - intros res s1 H.
    destruct (Ser_process_batches_spec cfg env batches s res s1 H) as [(Hl & _) _].
    by rewrite Hl.
Qed.

(** The marker taken at second 1001; the seven sub-items processed; a scan
    at second 1700. *)
Lemma marker_is_never_refreshed_witness :
  Coordinator.is_file_being_processed 1700 "anime_1.json"
    (Runtime.locks
       (V.process_batches demo_env "anime_1.json"
          (Batch.waves (Json.pending (Json.load demo_item)) 3)
          (Runtime.set_locks
             (Coordinator.lock_file 1001 "9f3a6c1e" "anime_1.json") demo_loaded)).2)
  = (false, ∅).
Proof.
  destruct (marker_is_never_refreshed demo_cfg_3 demo_env "anime_1.json"
              (Batch.waves (Json.pending (Json.load demo_item)) 3)
              (Runtime.set_locks
                 (Coordinator.lock_file 1001 "9f3a6c1e" "anime_1.json") demo_loaded)
              1001 1700) as [HV _].
  - reflexivity.
  - lia.
  - destruct (HV _ _ (surjective_pairing _)) as [_ H]. rewrite H. by vm_compute.
Defined.

(** ** The pool that [init_browsers] builds *)

Section capacity.
Import Pool.

Lemma filter_all {A : Type} (P : A → Prop) `{!∀ x, Decision (P x)} (l : list A) :
  Forall P l → filter P l = l.
Proof.
  induction 1 as [|x l Hx _ IH]; [done|]. by rewrite filter_cons_True, IH.
Qed.

Lemma init_browsers_shape (mb mt : Z) (launch_ok : nat → bool) (tab_ok : nat → nat → bool) :
  ∀ j b, init_browsers mb mt launch_ok tab_ok !! j = Some b →
  tabs_available b = mt ∧ (length (tabs b) ≤ Z.to_nat mt)%nat ∧
  ((∀ t, tab_ok j t = true) → length (tabs b) = Z.to_nat mt).
Proof.
  intros j b Hj. unfold init_browsers in Hj. rewrite list_lookup_imap in Hj.
  destruct (filter _ (seq 0 (Z.to_nat mb)) !! j) as [x|]; [|done].
  simpl in Hj. injection Hj as <-. simpl. rewrite length_fmap. split_and!.
  - done.
  - etrans; [apply length_filter|]. by rewrite length_seq.
  - intros Hok. rewrite filter_all; [by rewrite length_seq|].
    apply Forall_forall. intros t _. apply Hok.
Qed.

Lemma free_count_bound (bs : list BrowserInfo) (n : nat) :
  (∀ j b, bs !! j = Some b → (length (tabs b) ≤ n)%nat) →
  (free_count bs ≤ length bs * n)%nat.
Proof.
  induction bs as [|b bs IH]; intros Hb; [done|].
  unfold free_count, free_tabs in *. rewrite fmap_cons.
  change (concat (tabs b :: (tabs <$> bs))) with (tabs b ++ concat (tabs <$> bs)).
  rewrite length_app. change (length (b :: bs)) with (S (length bs)).
  pose proof (Hb 0%nat b eq_refl).
  assert (length (concat (tabs <$> bs)) ≤ length bs * n)%nat
    by (apply IH; intros j b' Hj; apply (Hb (S j) b' Hj)).
  lia.
Qed.

Lemma free_count_full (bs : list BrowserInfo) (n : nat) :
  (∀ j b, bs !! j = Some b → length (tabs b) = n) →
  free_count bs = (length bs * n)%nat.
Proof.
  induction bs as [|b bs IH]; intros Hb; [done|].
  unfold free_count, free_tabs in *. rewrite fmap_cons.
  change (concat (tabs b :: (tabs <$> bs))) with (tabs b ++ concat (tabs <$> bs)).
  rewrite length_app. change (length (b :: bs)) with (S (length bs)).
  rewrite (Hb 0%nat b eq_refl).
  rewrite IH by (intros j b' Hj; apply (Hb (S j) b' Hj)). lia.
Qed.

End capacity.

(** X9. [init_browsers] never builds more than it is asked for: at most
    [max_browsers] browsers, each with the counter [tabs_available] set to
    [max_tabs_per_browser] and at most that many tabs in its free list, so at
    most [max_browsers * max_tabs_per_browser] tabs in all (none for a
    number that is not positive); exactly that many when every launch and
    every page creation succeeds. The batch size of v.py is the configured
    product, which a pool with a tab never exceeds but may fall short of. *)
Theorem init_browsers_capacity
    (cfg : Runtime.Config) (launch_ok : nat → bool) (tab_ok : nat → nat → bool) :
  let bs := Pool.init_browsers (Runtime.max_browsers cfg)
              (Runtime.max_tabs_per_browser cfg) launch_ok tab_ok in
  let configured := (Z.to_nat (Runtime.max_browsers cfg)
                     * Z.to_nat (Runtime.max_tabs_per_browser cfg))%nat in
  (length bs ≤ Z.to_nat (Runtime.max_browsers cfg))%nat ∧
  Forall (λ b, Pool.tabs_available b = Runtime.max_tabs_per_browser cfg ∧
               (length (Pool.tabs b) ≤ Z.to_nat (Runtime.max_tabs_per_browser cfg))%nat) bs ∧
  (Pool.free_count bs ≤ configured)%nat ∧
  ((∀ i, launch_ok i = true) → (∀ b t, tab_ok b t = true) →
   Pool.free_count bs = configured) ∧
  ((0 < Pool.free_count bs)%nat → Z.of_nat (Pool.free_count bs) ≤ V.batch_size cfg).
Proof.
  intros bs configured.
  assert (Hlen : (length bs ≤ Z.to_nat (Runtime.max_browsers cfg))%nat).
  { subst bs. unfold Pool.init_browsers. rewrite length_imap.
    etrans; [apply length_filter|]. by rewrite length_seq. }
  assert (Hbound : (Pool.free_count bs ≤ configured)%nat).
  { etrans; [apply (free_count_bound bs (Z.to_nat (Runtime.max_tabs_per_browser cfg)))|].
    - intros j b Hj. by destruct (init_browsers_shape _ _ _ _ j b Hj) as (_ & ? & _).
    - by apply Nat.mul_le_mono_r. }
  split_and!.
  - exact Hlen.
  - apply Forall_lookup. intros j b Hj.
    by destruct (init_browsers_shape _ _ _ _ j b Hj) as (? & ? & _).
  - exact Hbound.
  - intros Hlaunch Htab.
    rewrite (free_count_full bs (Z.to_nat (Runtime.max_tabs_per_browser cfg))).
    + subst bs configured. unfold Pool.init_browsers.
      rewrite length_imap, filter_all; [by rewrite length_seq|].
      apply Forall_forall. intros i _. apply Hlaunch.
    + intros j b Hj. destruct (init_browsers_shape _ _ _ _ j b Hj) as (_ & _ & Hfull).
      apply Hfull. intros t. apply Htab.
  - intros Hpos. subst configured. unfold V.batch_size. nia.
Qed.

(** ** allanime.py *)

(** Every entry is in relation with all the entries behind it. *)
Fixpoint ordered {A : Type} (rel : A → A → Prop) (l : list A) : Prop :=
  match l with
  | [] => True
  | x :: rest => Forall (rel x) rest ∧ ordered rel rest
  end.

Section sorting.
Context {A : Type} (before : A → A → bool).
Hypothesis before_total : ∀ x y, before x y = false → before y x = true.
Hypothesis before_trans :
  ∀ x y z, before x y = true → before y z = true → before x z = true.

Lemma insert_sorted_perm (x : A) (l : list A) :
  Allanime.insert_sorted before x l ≡ₚ x :: l.
Proof.
  induction l as [|y l IH]; [done|]. simpl. destruct (before x y); [done|].
  rewrite IH. apply Permutation_swap.
Qed.

Lemma stable_sort_perm (l : list A) : Allanime.stable_sort before l ≡ₚ l.
Proof.
  induction l as [|x l IH]; [done|]. simpl.
  fold (Allanime.stable_sort before l). by rewrite insert_sorted_perm, IH.
Qed.

Lemma insert_sorted_ordered (x : A) (l : list A) :
  ordered (λ a b, before a b = true) l →
  ordered (λ a b, before a b = true) (Allanime.insert_sorted before x l).
Proof.
  induction l as [|y l IH]; intros Hl; simpl.
  - split; [apply Forall_nil_2|done].
  - destruct Hl as [Hy Hl]. destruct (before x y) eqn:Hxy; simpl.
    + split; [|done]. apply Forall_cons. split; [done|].
      eapply Forall_impl; [exact Hy|]. intros z Hz. by eapply before_trans.
    + split; [|by apply IH].
      rewrite insert_sorted_perm. apply Forall_cons. split; [by apply before_total|done].
Qed.

Lemma stable_sort_ordered (l : list A) :
  ordered (λ a b, before a b = true) (Allanime.stable_sort before l).
Proof.
  induction l as [|x l IH]; [done|]. simpl. by apply insert_sorted_ordered.
Qed.

(** Stability: the entries of a class that [before] does not separate keep
    the order they had. *)
Lemma insert_sorted_filter (P : A → Prop) `{!∀ a, Decision (P a)} (x : A) (l : list A) :
  (∀ y, P x → P y → before x y = true) →
  filter P (Allanime.insert_sorted before x l) = filter P (x :: l).
Proof.
  intros Hclass. induction l as [|y l IH]; [done|]. simpl.
  destruct (before x y) eqn:Hxy; [done|].
  rewrite !filter_cons in *. destruct (decide (P x)) as [Hx|Hx].
  - destruct (decide (P y)) as [Hy|Hy].
    + rewrite Hclass in Hxy by done. done.
    + exact IH.
  - destruct (decide (P y)); by rewrite IH.
Qed.

Lemma stable_sort_filter (P : A → Prop) `{!∀ a, Decision (P a)} (l : list A) :
  (∀ x y, P x → P y → before x y = true) →
  filter P (Allanime.stable_sort before l) = filter P l.
Proof.
  intros Hclass. induction l as [|x l IH]; [done|]. simpl.
  fold (Allanime.stable_sort before l).
  rewrite insert_sorted_filter by (intros y; apply Hclass).
  by rewrite !filter_cons, IH.
Qed.

End sorting.

Section available_work.
Import Allanime.

Lemma insert_sorted_fmap {A B : Type} (g : A → B) (before : B → B → bool)
    (x : A) (l : list A) :
  insert_sorted before (g x) (g <$> l)
    = g <$> insert_sorted (λ a b, before (g a) (g b)) x l.
Proof.
  induction l as [|y l IH]; [done|]. rewrite fmap_cons. cbn [insert_sorted].
  destruct (before (g x) (g y)); [by rewrite !fmap_cons|].
  rewrite fmap_cons. by f_equal.
Qed.

Lemma stable_sort_fmap {A B : Type} (g : A → B) (before : B → B → bool) (l : list A) :
  stable_sort before (g <$> l) = g <$> stable_sort (λ a b, before (g a) (g b)) l.
Proof.
  induction l as [|x l IH]; [done|]. rewrite fmap_cons. unfold stable_sort in *.
  cbn [foldr]. by rewrite IH, insert_sorted_fmap.
Qed.

(** The anime of an index file that are still to do; none when the file
    cannot be read as an index. *)
Definition work_left (w : World) (filename : string) : nat :=
  match index w !! Path.join anime_index_folder filename with
  | Some (Some content) => unprocessed_count (coordination w) content
  | _ => 0%nat
  end.

(** An index file that is not locked and has anime to do. *)
Definition has_work (w : World) (filename : string) : bool :=
  is_index_file filename
  && bool_decide (locked_files (coordination w) !! filename = None)
  && bool_decide (0 < work_left w filename)%nat.

Lemma candidate_has_work (w : World) (filename : string) :
  candidate w filename
    = if has_work w filename then Some (filename, work_left w filename) else None.
Proof.
  unfold candidate, has_work, work_left, is_file_locked.
  destruct (is_index_file filename); simpl; [|done].
  destruct (locked_files (coordination w) !! filename) as [holder|] eqn:Hl; simpl.
  - done.
  - by destruct (index w !! Path.join anime_index_folder filename) as [[content|]|].
Qed.

Lemma get_available_work_sorted_filter (listing : list string) (w : World) :
  get_available_work listing w
    = stable_sort (λ f g, bool_decide (work_left w g ≤ work_left w f)%nat)
        (filter (λ f, has_work w f = true) listing).
Proof.
  unfold get_available_work.
  assert (Hcands : omap (candidate w) listing
                   = (λ f, (f, work_left w f)) <$> filter (λ f, has_work w f = true) listing).
  { induction listing as [|f l IH]; [done|]. simpl. rewrite candidate_has_work, filter_cons.
    destruct (has_work w f) eqn:Hf.
    - rewrite decide_True by done. rewrite fmap_cons. by f_equal.
    - rewrite decide_False by done. exact IH. }
  rewrite Hcands, stable_sort_fmap. simpl.
  rewrite <- list_fmap_compose. apply list_fmap_id.
Qed.

End available_work.

(** X10. [get_available_work] returns the files of the listing that pass the
    name filter, are not in ["locked_files"], can be read and hold at least
    one anime whose id is not in ["processed_anime"], each as often as the
    listing has it; most work first; files with the same amount of work in
    the order of the listing. *)
Theorem get_available_work_spec (listing : list string) (w : Allanime.World) :
  Allanime.get_available_work listing w ≡ₚ filter (λ f, has_work w f = true) listing ∧
  ordered (λ f g, (work_left w g ≤ work_left w f)%nat)
    (Allanime.get_available_work listing w) ∧
  ∀ n, filter (λ f, work_left w f = n) (Allanime.get_available_work listing w)
       = filter (λ f, work_left w f = n) (filter (λ f, has_work w f = true) listing).
Proof.
  rewrite get_available_work_sorted_filter. split_and!.
  - apply stable_sort_perm.
  - pose proof (stable_sort_ordered
      (λ f g, bool_decide (work_left w g ≤ work_left w f)%nat)) as Hs.
    assert (Hrel : ∀ l, ordered (λ a b, bool_decide (work_left w b ≤ work_left w a)%nat = true) l
                        → ordered (λ f g, (work_left w g ≤ work_left w f)%nat) l).
    { induction l as [|x l IH]; [done|]. intros [Hx Hl]. split; [|by apply IH].
      eapply Forall_impl; [exact Hx|]. intros y Hy. by apply bool_decide_eq_true in Hy. }
    apply Hrel, Hs.
    + intros x y Hxy. apply bool_decide_eq_false in Hxy. apply bool_decide_eq_true. lia.
    + intros x y z Hxy Hyz. apply bool_decide_eq_true in Hxy, Hyz.
      apply bool_decide_eq_true. lia.
  - intros n. apply stable_sort_filter. intros x y Hx Hy.
    apply bool_decide_eq_true. lia.
Qed.

Section navigation.
Import Exec Allanime.

(** The world after [n] ticks and the events [evs]. *)
Definition later (w : World) (n : nat) (evs : list Event) : World :=
  set_events (λ t, t ++ evs) (set_tick (λ k, (k + n)%nat) w).

Lemma later_later (w : World) (n m : nat) (e1 e2 : list Event) :
  later (later w n e1) m e2 = later w (n + m) (e1 ++ e2).
Proof.
  unfold later, set_events, set_tick. simpl. f_equal; [lia|by rewrite (assoc_L (++))].
Qed.

Lemma later_zero (w : World) : later w 0 [] = w.
Proof.
  unfold later, set_events, set_tick. destruct w. simpl. f_equal; [lia|].
  by rewrite (right_id_L [] (++)).
Qed.

Lemma navigate_step (env : Env) (url : string) (m : Z) (attempt fuel : nat) (w : World) :
  navigate env url m attempt (S fuel) w =
    if goto_ok env (tick w) then (Val (Some true), later w 1 [Goto url; Sleep 2])
    else if bool_decide (Z.of_nat attempt < m - 1)
         then navigate env url m (S attempt) fuel (later w 1 [Goto url; Sleep 5])
         else (Val (Some false), later w 1 [Goto url]).
Proof.
  assert (H2 : ∀ e1 e2, set_events (λ t, t ++ [e2]) (set_events (λ t, t ++ [e1]) (set_tick S w))
                        = later w 1 [e1; e2]).
  { intros e1 e2. unfold later, set_events, set_tick. simpl. f_equal; [lia|].
    by rewrite <- (assoc_L (++)). }
  assert (H1 : ∀ e1, set_events (λ t, t ++ [e1]) (set_tick S w) = later w 1 [e1]).
  { intros e1. unfold later, set_events, set_tick. simpl. f_equal. lia. }
  cbn [navigate]. unfold bind, fresh, emit, modify, ret. cbn [tick set_tick].
  destruct (goto_ok env (tick w)).
  - by rewrite H2.
  - case_bool_decide; [by rewrite H2|by rewrite H1].
Qed.

Lemma navigate_succeeds (env : Env) (url : string) (m : Z) :
  ∀ j attempt fuel w,
  (attempt + fuel = Z.to_nat m)%nat → (j < fuel)%nat →
  goto_ok env (tick w + j) = true →
  (∀ i, (i < j)%nat → goto_ok env (tick w + i) = false) →
  navigate env url m attempt fuel w
    = (Val (Some true),
       later w (S j) (concat (replicate j [Goto url; Sleep 5]) ++ [Goto url; Sleep 2])).
Proof.
  induction j as [|j IH]; intros attempt fuel w Hfuel Hj Hok Hfail;
    (destruct fuel as [|fuel]; [lia|]); rewrite navigate_step.
  - rewrite Nat.add_0_r in Hok. by rewrite Hok.
  - pose proof (Hfail 0%nat ltac:(lia)) as H0. rewrite Nat.add_0_r in H0. rewrite H0.
    rewrite bool_decide_eq_true_2 by lia.
    rewrite (IH (S attempt) fuel); [|lia|lia| |].
    + rewrite later_later. done.
    + simpl. rewrite <- Hok. f_equal. lia.
    + intros i Hi. simpl. rewrite <- (Hfail (S i)) by lia. f_equal. lia.
Qed.

Lemma navigate_gives_up (env : Env) (url : string) (m : Z) :
  ∀ fuel attempt w,
  (attempt + S fuel = Z.to_nat m)%nat →
  (∀ i, (i < S fuel)%nat → goto_ok env (tick w + i) = false) →
  navigate env url m attempt (S fuel) w
    = (Val (Some false),
       later w (S fuel) (concat (replicate fuel [Goto url; Sleep 5]) ++ [Goto url])).
Proof.
  induction fuel as [|fuel IH]; intros attempt w Hfuel Hfail; rewrite navigate_step.
  - pose proof (Hfail 0%nat ltac:(lia)) as H0. rewrite Nat.add_0_r in H0. rewrite H0.
    by rewrite bool_decide_eq_false_2 by lia.
  - pose proof (Hfail 0%nat ltac:(lia)) as H0. rewrite Nat.add_0_r in H0. rewrite H0.
    rewrite bool_decide_eq_true_2 by lia.
    rewrite (IH (S attempt)); [|lia|].
    + rewrite later_later. done.
    + intros i Hi. simpl. rewrite <- (Hfail (S i)) by lia. f_equal. lia.
Qed.

Lemma safe_navigate_retries_first (env : Env) (url : string) (w : World) :
  goto_ok env (tick w) = true →
  safe_navigate env url 3 w = (Val (Some true), later w 1 [Goto url; Sleep 2]).
Proof.
  intros Hok. unfold safe_navigate.
  rewrite (navigate_succeeds env url 3 0 0 (Z.to_nat 3) w); [done|done|simpl; lia| |].
  - by rewrite Nat.add_0_r.
  - intros i Hi. lia.
Qed.

End navigation.

(** X11. [safe_navigate] makes at most [max_retries] attempts and stops at the
    first one that succeeds, after a pause of 2 seconds, with [True]; a failed
    attempt is followed by a pause of 5 seconds, except the last one, after
    which it returns [False] at once. With a [max_retries] that is not
    positive it makes no attempt and returns [None]. It never raises. *)
Theorem safe_navigate_retries
    (env : Allanime.Env) (url : string) (max_retries : Z) (w : Allanime.World) :
  let n := Z.to_nat max_retries in
  (∀ j, (j < n)%nat →
     Allanime.goto_ok env (Allanime.tick w + j) = true →
     (∀ i, (i < j)%nat → Allanime.goto_ok env (Allanime.tick w + i) = false) →
     Allanime.safe_navigate env url max_retries w
       = (Exec.Val (Some true),
          later w (S j)
            (concat (replicate j [Allanime.Goto url; Allanime.Sleep 5])
             ++ [Allanime.Goto url; Allanime.Sleep 2]))) ∧
  ((0 < n)%nat →
   (∀ i, (i < n)%nat → Allanime.goto_ok env (Allanime.tick w + i) = false) →
   Allanime.safe_navigate env url max_retries w
     = (Exec.Val (Some false),
        later w n
          (concat (replicate (n - 1) [Allanime.Goto url; Allanime.Sleep 5])
           ++ [Allanime.Goto url]))) ∧
  (max_retries ≤ 0 → Allanime.safe_navigate env url max_retries w = (Exec.Val None, w)).
Proof.
  intros n. unfold Allanime.safe_navigate. fold n. split_and!.
  - intros j Hj Hok Hfail. apply navigate_succeeds; [lia|done..].
  - intros Hn Hfail. destruct n as [|n'] eqn:Hn'; [lia|].
    replace (S n' - 1)%nat with n' by lia. apply navigate_gives_up; [lia|done].
  - intros Hm. replace n with 0%nat by lia. done.
Qed.

Section episode_lists.
Import Exec Allanime.

(** An episode of the list that no earlier episode shares its url with. *)
Definition first_of_its_url (episodes : list EpisodeInfo) (e : EpisodeInfo) : Prop :=
  ∃ i, episodes !! i = Some e ∧
       ∀ j e', (j < i)%nat → episodes !! j = Some e' → ep_url e' ≠ ep_url e.

Lemma unique_episodes_spec (episodes : list EpisodeInfo) :
  ∀ seen,
  NoDup (ep_url <$> unique_episodes seen episodes) ∧
  (∀ e, e ∈ unique_episodes seen episodes →
        (ep_url e ∉ seen) ∧ first_of_its_url episodes e) ∧
  (∀ e, e ∈ episodes →
        ep_url e ∈ seen ∨ ep_url e ∈ (ep_url <$> unique_episodes seen episodes)).
Proof.
  induction episodes as [|x rest IH]; intros seen.
  - simpl. split_and!; [apply NoDup_nil_2| |].
    + by intros e ?%elem_of_nil.
    + by intros e ?%elem_of_nil.
  - simpl. case_bool_decide as Hseen.
    + destruct (IH seen) as (Hnd & Hsub & Hcov). split_and!; [done| |].
      * intros e He. destruct (Hsub e He) as [Hne (i & Hi & Hfirst)]. split; [done|].
        exists (S i). split; [done|]. intros [|j] e' Hj He'.
        -- injection He' as <-. by intros Heq; rewrite Heq in Hseen.
        -- apply (Hfirst j); [lia|done].
      * intros e [->|He]%elem_of_cons; [by left|by apply Hcov].
    + destruct (IH (ep_url x :: seen)) as (Hnd & Hsub & Hcov). split_and!.
      * rewrite fmap_cons. apply NoDup_cons. split; [|done].
        intros Hin. apply list_elem_of_fmap in Hin as (e & Heq & He).
        destruct (Hsub e He) as [Hne _]. apply Hne. rewrite Heq. apply list_elem_of_here.
      * intros e [->|He]%elem_of_cons.
        -- split; [done|]. exists 0%nat. split; [done|]. intros j e' Hj. lia.
        -- destruct (Hsub e He) as [Hne (i & Hi & Hfirst)].
           apply not_elem_of_cons in Hne as [Hx Hne]. split; [done|].
           exists (S i). split; [done|]. intros [|j] e' Hj He'.
           ++ injection He' as <-. done.
           ++ apply (Hfirst j); [lia|done].
      * intros e [->|He]%elem_of_cons.
        -- right. rewrite fmap_cons. apply list_elem_of_here.
        -- destruct (Hcov e He) as [[Heq|Hin]%elem_of_cons|Hin].
           ++ right. rewrite fmap_cons, Heq. apply list_elem_of_here.
           ++ by left.
           ++ right. rewrite fmap_cons. by apply list_elem_of_further.
Qed.

(** What visiting pages leaves alone: the coordination data, the index
    files and the locals of [process_file]. *)
Definition quiet (w w' : World) : Prop :=
  coordination w' = coordination w ∧ index w' = index w ∧ frame w' = frame w.

Lemma quiet_refl (w : World) : quiet w w.
Proof. done. Qed.

Lemma quiet_trans (w1 w2 w3 : World) : quiet w1 w2 → quiet w2 w3 → quiet w1 w3.
Proof. intros (? & ? & ?) (? & ? & ?). unfold quiet. split_and!; congruence. Qed.

Lemma quiet_later (w : World) (n : nat) (evs : list Event) : quiet w (later w n evs).
Proof. done. Qed.

Lemma navigate_quiet (env : Env) (url : string) (m : Z) :
  ∀ fuel attempt w, ∃ r w',
    navigate env url m attempt fuel w = (Val r, w') ∧ quiet w w' ∧ cache w' = cache w.
Proof.
  induction fuel as [|fuel IH]; intros attempt w.
  - by exists None, w.
  - rewrite navigate_step. destruct (goto_ok env (tick w)).
    + by eexists _, _.
    + case_bool_decide.
      * destruct (IH (S attempt) (later w 1 [Goto url; Sleep 5])) as (r & w' & -> & Hq & Hc).
        exists r, w'. split; [done|]. split; [|done].
        eapply quiet_trans; [apply quiet_later|exact Hq].
      * by eexists _, _.
Qed.

(** [extract_episodes_simple] returns or raises, and is quiet. *)
Lemma extract_episodes_simple_quiet (env : Env) (anime_url anime_id : string) (w : World) :
  ∃ res w', extract_episodes_simple env anime_url anime_id w = (res, w') ∧
            quiet w w' ∧ ((∃ found, res = Val found) ∨ (∃ msg, res = Exc msg)).
Proof.
  unfold extract_episodes_simple, bind at 1, gets at 1.
  assert (Hmiss :
    ∃ res w',
      (let* reached := safe_navigate env anime_url 3 in
       match reached with
       | Some true =>
           emit (Sleep 3) ;;;
           let* k := fresh in
           match evaluate env k anime_url with
           | None => raise "Error"
           | Some episodes =>
               let unique := unique_episodes [] episodes in
               let sorted := stable_sort (λ x y, bool_decide (sort_key x ≤ sort_key y))
                               unique in
               let* k' := fresh in
               (if cache_write_ok env k'
                then modify (set_cache (insert anime_id (Some sorted)))
                else ret tt) ;;;
               ret sorted
           end
       | _ => ret []
       end) w = (res, w') ∧
      quiet w w' ∧ ((∃ found, res = Val found) ∨ (∃ msg, res = Exc msg))).
  { unfold bind at 1, safe_navigate.
    destruct (navigate_quiet env anime_url 3 (Z.to_nat 3) 0 w) as (r & w1 & -> & Hq & _).
    destruct r as [[|]|]; [|by eexists _, _; split; [done|]; split; [done|]; left; eexists..].
    unfold bind, emit, fresh, modify, ret, raise. cbn beta iota zeta.
    destruct (evaluate env _ anime_url) as [episodes|].
    - cbn beta iota zeta. destruct (cache_write_ok env _); cbn beta iota zeta.
      + eexists _, _. split; [done|]. split; [|left; by eexists].
        eapply quiet_trans; [exact Hq|done].
      + eexists _, _. split; [done|]. split; [|left; by eexists].
        eapply quiet_trans; [exact Hq|done].
    - eexists _, _. split; [done|]. split; [|right; by eexists].
      eapply quiet_trans; [exact Hq|done]. }
  destruct (cache w !! anime_id) as [[cached|]|]; [|exact Hmiss..].
  eexists _, _. split; [done|]. split; [done|]. left. by eexists.
Qed.

End episode_lists.


(** X12. [extract_episodes_simple] without a readable cache file, when the page
    is reached at the first attempt and its script returns [episodes] (with
    numbers made of the characters 0 to 9, as the script makes them): the
    list returned has no two episodes with the same url, each of its episodes
    is the first one of the page with its url, every url of the page is in
    it, it is in the order of the numbers, episodes with the same number in
    the order of the page. When the write of the cache file succeeds, the
    next call returns the same list from the cache, without a visit. *)
Theorem extract_episodes_simple_fresh
    (env : Allanime.Env) (anime_url anime_id : string) (w : Allanime.World)
    (episodes : list Allanime.EpisodeInfo) :
  (∀ cached, Allanime.cache w !! anime_id ≠ Some (Some cached)) →
  Forall (λ e, Allanime.isdigit (Allanime.number e) = true) episodes →
  Allanime.goto_ok env (Allanime.tick w) = true →
  Allanime.evaluate env (Allanime.tick w + 1) anime_url = Some episodes →
  ∃ found w',
    Allanime.extract_episodes_simple env anime_url anime_id w = (Exec.Val found, w') ∧
    NoDup (Allanime.ep_url <$> found) ∧
    (∀ e, e ∈ found → first_of_its_url episodes e) ∧
    (∀ e, e ∈ episodes → Allanime.ep_url e ∈ (Allanime.ep_url <$> found)) ∧
    ordered (λ x y, Allanime.sort_key x ≤ Allanime.sort_key y) found ∧
    (∀ n, filter (λ e, Allanime.sort_key e = n) found
          = filter (λ e, Allanime.sort_key e = n) (Allanime.unique_episodes [] episodes)) ∧
    Allanime.events w'
      = Allanime.events w
        ++ [Allanime.Goto anime_url; Allanime.Sleep 2; Allanime.Sleep 3] ∧
    (Allanime.cache_write_ok env (Allanime.tick w + 2) = true →
     Allanime.extract_episodes_simple env anime_url anime_id w' = (Exec.Val found, w')).
Proof.
  intros Hcache _ Hgoto Heval.
  pose (before := λ x y : Allanime.EpisodeInfo,
          bool_decide (Allanime.sort_key x ≤ Allanime.sort_key y)).
  pose (found := Allanime.stable_sort before (Allanime.unique_episodes [] episodes)).
  assert (Hperm : found ≡ₚ Allanime.unique_episodes [] episodes)
    by apply stable_sort_perm.
  destruct (unique_episodes_spec episodes []) as (Hnd & Hsub & Hcov).
  assert (Hnav : Allanime.safe_navigate env anime_url 3 w
                 = (Exec.Val (Some true),
                    later w 1 [Allanime.Goto anime_url; Allanime.Sleep 2])).
  { by apply safe_navigate_retries_first. }
  assert (Hrun : ∃ w', Allanime.extract_episodes_simple env anime_url anime_id w
                         = (Exec.Val found, w') ∧
                       Allanime.events w'
                         = Allanime.events w
                           ++ [Allanime.Goto anime_url; Allanime.Sleep 2; Allanime.Sleep 3] ∧
                       (Allanime.cache_write_ok env (Allanime.tick w + 2) = true →
                        Allanime.cache w' !! anime_id = Some (Some found))).
  { unfold Allanime.extract_episodes_simple, Exec.bind at 1, Exec.gets at 1.
    destruct (Allanime.cache w !! anime_id) as [[cached|]|] eqn:Hc; [by destruct (Hcache cached)| |].
    all: unfold Exec.bind at 1; rewrite Hnav;
      unfold Exec.bind, Allanime.emit, Allanime.fresh, Exec.modify, Exec.ret;
      cbn beta iota zeta;
      cbn [Allanime.tick Allanime.set_events Allanime.set_tick later];
      rewrite Heval; cbn beta iota zeta;
      cbn [Allanime.tick Allanime.set_events Allanime.set_tick later];
      replace (S (Allanime.tick w + 1)) with (Allanime.tick w + 2)%nat by lia;
      destruct (Allanime.cache_write_ok env (Allanime.tick w + 2)) eqn:Hw;
      cbn beta iota zeta; eexists; (split; [reflexivity|]); simpl;
      (split; [by rewrite <- (assoc_L (++))|]); intros; try done;
      by rewrite lookup_insert_eq. }
  destruct Hrun as (w' & Hrun & Hev & Hcached).
  exists found, w'. split_and!; try done.
  - by rewrite Hperm.
  - intros e He. rewrite Hperm in He. by apply Hsub.
  - intros e He. destruct (Hcov e He) as [?%elem_of_nil|Hin]; [done|].
    by rewrite Hperm.
  - pose proof (stable_sort_ordered before) as Hs.
    assert (Hrel : ∀ l, ordered (λ a b, before a b = true) l →
                        ordered (λ x y, Allanime.sort_key x ≤ Allanime.sort_key y) l).
    { induction l as [|x l IH]; [done|]. intros [Hx Hl]. split; [|by apply IH].
      eapply Forall_impl; [exact Hx|]. intros y Hy. by apply bool_decide_eq_true in Hy. }
    apply Hrel, Hs.
    + intros x y Hxy. apply bool_decide_eq_false in Hxy. apply bool_decide_eq_true. lia.
    + intros x y z Hxy Hyz. apply bool_decide_eq_true in Hxy, Hyz.
      apply bool_decide_eq_true. lia.
  - intros n. apply stable_sort_filter. intros x y Hx Hy. apply bool_decide_eq_true. lia.
  - intros Hw. unfold Allanime.extract_episodes_simple, Exec.bind at 1, Exec.gets at 1.
    by rewrite (Hcached Hw).
Qed.

(** *** A small index *)

Definition demo_page : list Allanime.EpisodeInfo :=
  [{| Allanime.number := "2"; Allanime.ep_title := "Episode 2";
      Allanime.ep_url := "https://animepahe.si/play/x/2"; Allanime.episode_id := "2" |};
   {| Allanime.number := "10"; Allanime.ep_title := "Episode 10";
      Allanime.ep_url := "https://animepahe.si/play/x/10"; Allanime.episode_id := "10" |};
   {| Allanime.number := "2"; Allanime.ep_title := "Watch 2";
      Allanime.ep_url := "https://animepahe.si/play/x/2"; Allanime.episode_id := "2" |};
   {| Allanime.number := "1"; Allanime.ep_title := "Episode 1";
      Allanime.ep_url := "https://animepahe.si/play/x/1"; Allanime.episode_id := "1" |}].

(** Every page is reached and has the same four links; every write
    succeeds. *)
Definition demo_site : Allanime.Env :=
  {| Allanime.goto_ok := λ _, true;
     Allanime.evaluate := λ _ _, Some demo_page;
     Allanime.cache_write_ok := λ _, true;
     Allanime.index_write_ok := λ _, true;
     Allanime.setup_ok := λ _, true;
     Allanime.close_ok := λ _, true;
     Allanime.time := λ k, 2000 + Z.of_nat k |}.

Definition demo_anime (n : string) : Allanime.Anime :=
  {| Allanime.anime_id := "id-" +:+ n;
     Allanime.anime_title := "Title " +:+ n;
     Allanime.anime_url := "https://animepahe.si/anime/" +:+ n;
     Allanime.episodes := None;
     Allanime.episodes_count := None |}.

Definition demo_world : Allanime.World :=
  {| Allanime.coordination := Allanime.init_coordination 2000 None;
     Allanime.index :=
       {[ "anime_index/anime_a.json" :=
            Some (Allanime.Index (Some "A") [demo_anime "a1"; demo_anime "a2"]) ]};
     Allanime.cache := ∅;
     Allanime.tick := 0;
     Allanime.events := [];
     Allanime.frame := {| Allanime.data := None; Allanime.animes := [];
                          Allanime.processed_in_file := None |} |}.

Lemma extract_episodes_simple_fresh_witness :
  (Allanime.extract_episodes_simple demo_site "https://animepahe.si/anime/a1" "id-a1"
     demo_world).1
  = Exec.Val [{| Allanime.number := "1"; Allanime.ep_title := "Episode 1";
                 Allanime.ep_url := "https://animepahe.si/play/x/1";
                 Allanime.episode_id := "1" |};
              {| Allanime.number := "2"; Allanime.ep_title := "Episode 2";
                 Allanime.ep_url := "https://animepahe.si/play/x/2";
                 Allanime.episode_id := "2" |};
              {| Allanime.number := "10"; Allanime.ep_title := "Episode 10";
                 Allanime.ep_url := "https://animepahe.si/play/x/10";
                 Allanime.episode_id := "10" |}] ∧
  ∃ found w',
    Allanime.extract_episodes_simple demo_site "https://animepahe.si/anime/a1" "id-a1"
      demo_world = (Exec.Val found, w') ∧
    NoDup (Allanime.ep_url <$> found) ∧
    Allanime.extract_episodes_simple demo_site "https://animepahe.si/anime/a1" "id-a1" w'
      = (Exec.Val found, w').
Proof.
  split; [by vm_compute|].
  destruct (extract_episodes_simple_fresh demo_site "https://animepahe.si/anime/a1" "id-a1"
              demo_world demo_page)
    as (found & w' & Hrun & Hnd & _ & _ & _ & _ & _ & Hagain).
  - intros cached. by vm_compute.
  - apply (bool_decide_unpack _). by vm_compute.
  - reflexivity.
  - reflexivity.
  - exists found, w'. split; [exact Hrun|]. split; [exact Hnd|]. by apply Hagain.
Defined.

Section index_file.
Import Exec Allanime.

(** The entries of the list the loop goes through, without what the loop
    sets. *)
Definition entries (f : Frame) : list (string * string * string) :=
  (λ a, (anime_id a, anime_title a, anime_url a)) <$> animes f.

(** What the turns of the loop of [process_file] do, when the writes of the
    index file succeed: the anime marked ([new]) and the failures recorded
    ([extra]) are appended, [processed_in_file] counts the anime marked, and
    [data] is left alone until a failure binds it to the coordination data
    read just before that failure was recorded. *)
Definition turns (path : string) (w w' : World) : Prop :=
  locked_files (coordination w') = locked_files (coordination w) ∧
  (∀ key, key ≠ path → index w' !! key = index w !! key) ∧
  entries (frame w') = entries (frame w) ∧
  ∃ new extra,
    processed_anime (coordination w') = processed_anime (coordination w) ++ new ∧
    total_processed (coordination w')
      = total_processed (coordination w) + Z.of_nat (length new) ∧
    failed_anime (coordination w') = failed_anime (coordination w) ++ extra ∧
    processed_in_file (frame w')
      = (λ n, n + Z.of_nat (length new)) <$> processed_in_file (frame w) ∧
    (extra = [] → data (frame w') = data (frame w)) ∧
    (extra ≠ [] →
     ∃ read entry, data (frame w') = Some (Other read) ∧
                   failed_anime (coordination w') = failed_anime read ++ [entry]).

Lemma turns_refl (path : string) (w : World) : turns path w w.
Proof.
  split_and!; try done. exists [], []. rewrite !(right_id_L [] (++)). simpl.
  split_and!; try done; [lia|].
  destruct (processed_in_file (frame w)) as [n|]; simpl; [f_equal; lia|done].
Qed.

Lemma turns_trans (path : string) (w1 w2 w3 : World) :
  turns path w1 w2 → turns path w2 w3 → turns path w1 w3.
Proof.
  intros (Hl1 & Hi1 & He1 & new1 & extra1 & Hp1 & Ht1 & Hf1 & Hn1 & Hd1 & Hx1)
         (Hl2 & Hi2 & He2 & new2 & extra2 & Hp2 & Ht2 & Hf2 & Hn2 & Hd2 & Hx2).
  split_and!; [congruence| |congruence|].
  { intros key Hkey. rewrite Hi2, Hi1 by done. done. }
  exists (new1 ++ new2), (extra1 ++ extra2). split_and!.
  - by rewrite Hp2, Hp1, (assoc_L (++)).
  - rewrite Ht2, Ht1, length_app. lia.
  - by rewrite Hf2, Hf1, (assoc_L (++)).
  - rewrite Hn2, Hn1. destruct (processed_in_file (frame w1)) as [n|]; simpl; [|done].
    f_equal. rewrite length_app. lia.
  - intros [-> ->]%app_eq_nil. rewrite Hd2, Hd1 by done. done.
  - intros Hne. destruct extra2 as [|x extra2].
    + rewrite (right_id_L [] (++)) in Hne. destruct (Hx1 Hne) as (read & entry & Hd & Hf).
      exists read, entry. rewrite Hd2 by done. split; [done|].
      by rewrite Hf2, (right_id_L [] (++)).
    + by apply Hx2.
Qed.

Lemma save_ok (env : Env) (path : string) (w : World) (content : Content) :
  index_write_ok env (tick w) = true → dumped (frame w) = Some content →
  save env path w = (Val tt, set_index (insert path (Some content)) (set_tick S w)).
Proof.
  intros Hw Hd. unfold save, bind, fresh. cbn [tick set_tick]. rewrite Hw.
  cbn [frame set_tick]. by rewrite Hd.
Qed.

Lemma dumped_is_Some (f : Frame) : is_Some (data f) → is_Some (dumped f).
Proof. intros [d Hd]. unfold dumped. rewrite Hd. destruct d; by eexists. Qed.

Lemma entries_set_episodes (i : nat) (found : list EpisodeInfo) (f : Frame) :
  entries (count_processed (set_episodes i found f)) = entries f.
Proof.
  unfold entries. simpl. apply list_eq. intros j. rewrite !list_lookup_fmap.
  destruct (decide (i = j)) as [->|Hne].
  - rewrite list_lookup_alter_eq. by destruct (animes f !! j).
  - by rewrite list_lookup_alter_ne.
Qed.

Lemma turns_marked (path : string) (w w' : World) (a : Anime) (instance_id : string)
    (i : nat) (found : list EpisodeInfo) :
  anime_id a ∉ processed_anime (coordination w) →
  coordination w' = mark_anime_processed (anime_id a) instance_id (coordination w) →
  frame w' = count_processed (set_episodes i found (frame w)) →
  (∀ key, key ≠ path → index w' !! key = index w !! key) →
  turns path w w'.
Proof.
  intros Hnew Hc Hf Hi. split_and!.
  - by rewrite Hc.
  - exact Hi.
  - rewrite Hf. apply entries_set_episodes.
  - exists [anime_id a], []. rewrite Hc, Hf. simpl.
    rewrite bool_decide_eq_false_2 by done. rewrite (right_id_L [] (++)).
    split_and!; try done;
      destruct (processed_in_file (frame w)); simpl; try done; f_equal; lia.
Qed.

Lemma turns_failed (path : string) (w w' : World) (entry : Failure) :
  coordination w' = record_failure entry (coordination w) →
  frame w' = {| data := Some (Other (coordination w)); animes := animes (frame w);
                processed_in_file := processed_in_file (frame w) |} →
  index w' = index w →
  turns path w w'.
Proof.
  intros Hc Hf Hi. split_and!.
  - by rewrite Hc.
  - intros key _. by rewrite Hi.
  - by rewrite Hf.
  - exists [], [entry]. rewrite Hc, Hf. simpl. rewrite (right_id_L [] (++)).
    split_and!; try done; [lia| |].
    + destruct (processed_in_file (frame w)); simpl; [f_equal; lia|done].
    + intros _. by exists (coordination w), entry.
Qed.

(** One turn of the loop. *)
Lemma process_anime_spec (env : Env) (instance_id filename : string) (i : nat) (w : World) :
  (∀ k, index_write_ok env k = true) →
  is_Some (data (frame w)) → is_Some (processed_in_file (frame w)) →
  ∃ w', process_anime env instance_id filename i w = (Val tt, w') ∧
        turns (Path.join anime_index_folder filename) w w' ∧
        is_Some (data (frame w')) ∧ is_Some (processed_in_file (frame w')) ∧
        (∀ a, animes (frame w) !! i = Some a →
              anime_id a ∈ processed_anime (coordination w') ∨
              failed_anime (coordination w') ≠ failed_anime (coordination w)) ∧
        ((∀ k u, evaluate env k u ≠ None) →
         failed_anime (coordination w') = failed_anime (coordination w)).
Proof.
  intros Hwrite Hdata Hcount. unfold process_anime, bind at 1, gets at 1.
  destruct (animes (frame w) !! i) as [a|] eqn:Ha.
  2:{ exists w. split; [done|]. split; [apply turns_refl|]. by split_and!. }
  unfold bind at 1, gets at 1.
  destruct (is_anime_processed (anime_id a) (coordination w)) eqn:Hskip.
  { exists w. split; [done|]. split; [apply turns_refl|]. split_and!; try done.
    intros a' [= <-]. left. by apply bool_decide_eq_true in Hskip. }
  apply bool_decide_eq_false in Hskip.
  unfold try_except, bind at 1.
  destruct (extract_episodes_simple_quiet env (anime_url a) (anime_id a) w)
    as (res & w1 & Hx & (Hqc & Hqi & Hqf) & [[found ->]|[msg ->]]); rewrite Hx.
  - unfold bind, modify, gets, emit, ret. cbn beta iota zeta.
    set (w2 := set_frame count_processed _).
    assert (Hc2 : coordination w2
                  = mark_anime_processed (anime_id a) instance_id (coordination w))
      by (subst w2; simpl; by rewrite Hqc).
    assert (Hf2 : frame w2 = count_processed (set_episodes i found (frame w)))
      by (subst w2; simpl; by rewrite Hqf).
    assert (Hi2 : index w2 = index w) by (subst w2; simpl; by rewrite Hqi).
    assert (Hd2 : is_Some (data (frame w2))) by (by rewrite Hf2).
    assert (Hn2 : is_Some (processed_in_file (frame w2))).
    { rewrite Hf2. simpl. destruct Hcount as [n ->]. by eexists. }
    assert (Hin : anime_id a ∈ processed_anime (coordination w2)).
    { rewrite Hc2. simpl. rewrite bool_decide_eq_false_2 by done.
      apply elem_of_app. right. apply list_elem_of_here. }
    assert (Hfa : failed_anime (coordination w2) = failed_anime (coordination w))
      by (by rewrite Hc2).
    clearbody w2. case_bool_decide.
    + destruct (dumped_is_Some (frame w2) Hd2) as [content Hcontent].
      rewrite (save_ok env _ w2 content (Hwrite _) Hcontent). cbn beta iota zeta.
      eexists. split; [reflexivity|]. split_and!; try done.
      * eapply (turns_marked _ w _ a instance_id i found); try done.
        intros key Hkey. simpl. rewrite lookup_insert_ne by done. by rewrite Hi2.
      * intros a' [= <-]. by left.
    + eexists. split; [reflexivity|]. split_and!; try done.
      * eapply (turns_marked _ w _ a instance_id i found); try done.
        intros key Hkey. simpl. by rewrite Hi2.
      * intros a' [= <-]. by left.
  - unfold fail_anime, bind, fresh, modify. cbn beta iota zeta.
    eexists. split; [reflexivity|]. split_and!.
    + eapply turns_failed; simpl; [by rewrite Hqc| |done].
      by rewrite Hqf, Hqc.
    + done.
    + simpl. by rewrite Hqf.
    + intros a' _. right. simpl. rewrite Hqc. intros Heq.
      apply (f_equal length) in Heq. rewrite length_app in Heq. simpl in Heq. lia.
    + intros Hev. exfalso. clear -Hx Hev.
      unfold extract_episodes_simple, bind at 1, gets at 1 in Hx.
      destruct (cache w !! anime_id a) as [[cached|]|]; [done| |].
      all: unfold bind at 1 in Hx;
        destruct (navigate_quiet env (anime_url a) 3 (Z.to_nat 3) 0 w) as (r & w0 & Hr & _);
        unfold safe_navigate in Hx; rewrite Hr in Hx;
        destruct r as [[|]|]; try done;
        unfold bind, emit, fresh, modify, ret, raise in Hx; cbn beta iota zeta in Hx;
        destruct (evaluate env _ (anime_url a)) as [eps|] eqn:He; [|by apply Hev in He];
        cbn beta iota zeta in Hx; by destruct (cache_write_ok env _).
Qed.

(** The whole loop. *)
Lemma process_anime_loop (env : Env) (instance_id filename : string) :
  (∀ k, index_write_ok env k = true) →
  ∀ indices w,
  is_Some (data (frame w)) → is_Some (processed_in_file (frame w)) →
  ∃ w', for_each indices (process_anime env instance_id filename) w = (Val tt, w') ∧
        turns (Path.join anime_index_folder filename) w w' ∧
        is_Some (data (frame w')) ∧ is_Some (processed_in_file (frame w')) ∧
        (failed_anime (coordination w') = failed_anime (coordination w) →
         ∀ i e, i ∈ indices → entries (frame w) !! i = Some e →
                e.1.1 ∈ processed_anime (coordination w')) ∧
        ((∀ k u, evaluate env k u ≠ None) →
         failed_anime (coordination w') = failed_anime (coordination w)).
Proof.
  intros Hwrite. induction indices as [|i indices IH]; intros w Hdata Hcount.
  - exists w. split; [done|]. split; [apply turns_refl|]. split_and!; try done.
    intros _ i e Hi. by apply elem_of_nil in Hi.
  - cbn [for_each]. unfold bind at 1.
    destruct (process_anime_spec env instance_id filename i w Hwrite Hdata Hcount)
      as (w1 & -> & Hturn1 & Hd1 & Hn1 & Hdone1 & Hok1).
    destruct (IH w1 Hd1 Hn1) as (w' & Hrun & Hturn & Hd & Hn & Hdone & Hok).
    exists w'. split; [exact Hrun|]. split; [by eapply turns_trans|].
    split_and!; try done.
    + intros Hsame i' e Hi' He.
      destruct Hturn1 as (_ & _ & He1 & new1 & extra1 & Hp1 & _ & Hf1 & _).
      destruct Hturn as (_ & _ & _ & new2 & extra2 & Hp2 & _ & Hf2 & _).
      assert (extra1 = [] ∧ extra2 = []) as [-> ->].
      { rewrite Hf2, Hf1 in Hsame. apply (f_equal length) in Hsame.
        rewrite !length_app in Hsame.
        split; apply length_zero_iff_nil; lia. }
      rewrite (right_id_L [] (++)) in Hf1, Hf2.
      apply elem_of_cons in Hi' as [->|Hi'].
      * unfold entries in He. rewrite list_lookup_fmap in He.
        destruct (animes (frame w) !! i) as [a|] eqn:Ha; [|done].
        injection He as <-. simpl.
        destruct (Hdone1 a eq_refl) as [Hin|Hne]; [|by rewrite Hf1 in Hne].
        rewrite Hp2. apply elem_of_app. by left.
      * apply (Hdone Hf2 i' e Hi'). by rewrite He1.
    + intros Hev. rewrite (Hok Hev). by apply Hok1.
Qed.

(** [process_file] on an index file that can be read, with a browser that
    starts: the loop runs from [w0] to [wl], [data] is saved, and the count
    is returned whether or not the browser closes. *)
Lemma process_file_runs (env : Env) (instance_id filename : string) (w : World)
    (letter : option string) (anime : list Anime) :
  index w !! Path.join anime_index_folder filename = Some (Some (Index letter anime)) →
  (∀ k, index_write_ok env k = true) →
  (∀ k, setup_ok env k = true) →
  ∃ w0 wl w' n content,
    process_file env instance_id filename w = (Val n, w') ∧
    coordination w0 = lock_file instance_id filename (coordination w) ∧
    index w0 = index w ∧
    frame w0 = loaded (Index letter anime) ∧
    turns (Path.join anime_index_folder filename) w0 wl ∧
    (failed_anime (coordination wl) = failed_anime (coordination w0) →
     ∀ i e, (i < length anime)%nat → entries (frame w0) !! i = Some e →
            e.1.1 ∈ processed_anime (coordination wl)) ∧
    ((∀ k u, evaluate env k u ≠ None) →
     failed_anime (coordination wl) = failed_anime (coordination w0)) ∧
    processed_in_file (frame wl) = Some n ∧
    dumped (frame wl) = Some content ∧
    coordination w' = unlock_file filename (coordination wl) ∧
    index w' = <[Path.join anime_index_folder filename := Some content]> (index wl).
Proof.
  intros Hfile Hwrite Hsetup.
  set (path := Path.join anime_index_folder filename) in *.
  unfold process_file. fold path.
  unfold bind at 1, modify at 1. unfold bind at 1, modify at 1.
  unfold bind at 1, try_finally at 1, try_except at 1.
  unfold bind at 1, read_index at 1. cbn [index set_coordination set_frame].
  rewrite Hfile. unfold bind at 1, modify at 1. unfold bind at 1, setup_browser at 1.
  unfold bind at 1, fresh at 1. rewrite Hsetup. unfold ret at 1.
  set (w0 := set_tick S _).
  assert (Hd0 : is_Some (data (frame w0))) by (by eexists).
  assert (Hn0 : is_Some (processed_in_file (frame w0))) by (by eexists).
  destruct (process_anime_loop env instance_id filename Hwrite (seq 0 (length anime))
              w0 Hd0 Hn0) as (wl & Hloop & Hturn & Hdl & [n Hnl] & Hdone & Hok).
  destruct (dumped_is_Some (frame wl) Hdl) as [content Hcontent].
  exists w0, wl.
  unfold try_finally at 1, bind at 1, anime_of_data at 1.
  cbn [frame w0 set_tick set_frame data loaded animes]. unfold bind at 1.
  fold path. rewrite Hloop.
  rewrite (save_ok env path wl content (Hwrite _) Hcontent).
  unfold close_browser, bind at 1, fresh at 1.
  assert (Hdone' : failed_anime (coordination wl) = failed_anime (coordination w0) →
            ∀ i e, (i < length anime)%nat → entries (frame w0) !! i = Some e →
                   e.1.1 ∈ processed_anime (coordination wl)).
  { intros Hsame i e Hi. apply (Hdone Hsame). apply elem_of_seq. lia. }
  destruct (close_ok env _); cbn beta iota zeta;
    unfold ret, raise, modify, bind, gets; cbn beta iota zeta;
    cbn [frame set_coordination set_index set_tick]; rewrite Hnl;
    eexists _, n, content; (split; [reflexivity|]); by split_and!.
Qed.

End index_file.


Section after_process_file.
Import Exec Allanime.

Lemma no_work_not_available (listing : list string) (w : World) (filename : string) :
  work_left w filename = 0%nat → filename ∉ get_available_work listing w.
Proof.
  intros Hzero Hin. rewrite get_available_work_sorted_filter in Hin.
  rewrite stable_sort_perm in Hin. apply list_elem_of_filter in Hin as [Hwork _].
  unfold has_work in Hwork. rewrite Hzero in Hwork.
  rewrite (bool_decide_eq_false_2 (0 < 0)%nat) in Hwork by lia.
  by rewrite andb_false_r in Hwork.
Qed.

Lemma unlock_lock_files (instance_id filename : string) (c : Coordination) :
  locked_files (unlock_file filename (lock_file instance_id filename c))
    = delete filename (locked_files c).
Proof. simpl. apply delete_insert_eq. Qed.

Lemma all_processed_no_work (c : Coordination) (letter : option string) (anime : list Anime) :
  (∀ a, a ∈ anime → anime_id a ∈ processed_anime c) →
  unprocessed_count c (Index letter anime) = 0%nat.
Proof.
  intros Hall. simpl. apply length_zero_iff_nil.
  induction anime as [|a anime IH]; [done|].
  rewrite filter_cons_False.
  - apply IH. intros a' Ha'. apply Hall. by apply list_elem_of_further.
  - intros Hnot. apply Hnot, Hall. apply list_elem_of_here.
Qed.

End after_process_file.

(** X13. [process_file] of allanime.py on an index file that can be read, when
    the browser starts, every page script returns and the index file can be
    written: it returns the number of anime it marked as processed; these are
    appended to ["processed_anime"] and counted in ["total_processed"]; every
    anime of the file is then processed; the file is saved with the same
    entries (id, title, url) and the same letter; no failure is recorded; the
    lock of the file is released; and [get_available_work] does not offer the
    file any more. *)
Theorem allanime_process_file_completes
    (env : Allanime.Env) (instance_id filename : string) (w : Allanime.World)
    (letter : option string) (anime : list Allanime.Anime) :
  Allanime.index w !! Path.join Allanime.anime_index_folder filename
    = Some (Some (Allanime.Index letter anime)) →
  (∀ k, Allanime.index_write_ok env k = true) →
  (∀ k, Allanime.setup_ok env k = true) →
  (∀ k u, Allanime.evaluate env k u ≠ None) →
  ∃ n w' new saved,
    Allanime.process_file env instance_id filename w = (Exec.Val n, w') ∧
    n = Z.of_nat (length new) ∧
    Allanime.processed_anime (Allanime.coordination w')
      = Allanime.processed_anime (Allanime.coordination w) ++ new ∧
    Allanime.total_processed (Allanime.coordination w')
      = Allanime.total_processed (Allanime.coordination w) + n ∧
    (∀ a, a ∈ anime →
          Allanime.anime_id a ∈ Allanime.processed_anime (Allanime.coordination w')) ∧
    Allanime.failed_anime (Allanime.coordination w')
      = Allanime.failed_anime (Allanime.coordination w) ∧
    Allanime.locked_files (Allanime.coordination w')
      = delete filename (Allanime.locked_files (Allanime.coordination w)) ∧
    Allanime.index w'
      = <[Path.join Allanime.anime_index_folder filename
          := Some (Allanime.Index letter saved)]> (Allanime.index w) ∧
    (λ a, (Allanime.anime_id a, Allanime.anime_title a, Allanime.anime_url a)) <$> saved
      = (λ a, (Allanime.anime_id a, Allanime.anime_title a, Allanime.anime_url a)) <$> anime ∧
    ∀ listing, filename ∉ Allanime.get_available_work listing w'.
Proof.
  intros Hfile Hwrite Hsetup Hev.
  destruct (process_file_runs env instance_id filename w letter anime Hfile Hwrite Hsetup)
    as (w0 & wl & w' & n & content & Hrun & Hc0 & Hi0 & Hf0 & Hturn & Hdone & Hok
        & Hn & Hcontent & Hc' & Hi').
  pose proof (Hok Hev) as Hsame.
  destruct Hturn as (Hlock & Hindex & Hentries & new & extra & Hp & Ht & Hf & Hcount & Hd & _).
  assert (extra = []) as ->.
  { rewrite Hf in Hsame. apply (f_equal length) in Hsame. rewrite length_app in Hsame.
    apply length_zero_iff_nil. lia. }
  assert (Hdata : Allanime.data (Allanime.frame wl) = Some (Allanime.WorkItem letter))
    by (by rewrite (Hd eq_refl), Hf0).
  unfold Allanime.dumped in Hcontent. rewrite Hdata in Hcontent.
  injection Hcontent as <-.
  rewrite Hf0 in Hcount, Hentries. simpl in Hcount.
  unfold entries at 2 in Hentries. cbn [Allanime.animes Allanime.loaded] in Hentries.
  rewrite Hn in Hcount. injection Hcount as ->.
  assert (Hall : ∀ a, a ∈ anime →
            Allanime.anime_id a ∈ Allanime.processed_anime (Allanime.coordination wl)).
  { intros a Ha. apply list_elem_of_lookup in Ha as [i Hi].
    apply (Hdone Hsame i (Allanime.anime_id a, Allanime.anime_title a, Allanime.anime_url a)).
    - by eapply lookup_lt_Some.
    - rewrite Hf0. unfold entries. simpl. by rewrite list_lookup_fmap, Hi. }
  exists (0 + Z.of_nat (length new)), w', new, (Allanime.animes (Allanime.frame wl)).
  rewrite Hc'. split_and!.
  - exact Hrun.
  - lia.
  - simpl. by rewrite Hp, Hc0.
  - simpl. rewrite Ht, Hc0. simpl. lia.
  - exact Hall.
  - simpl. by rewrite Hsame, Hc0.
  - simpl. rewrite Hlock, Hc0. simpl. apply delete_insert_eq.
  - rewrite Hi'. apply map_eq. intros key.
    destruct (decide (key = Path.join Allanime.anime_index_folder filename)) as [->|Hne].
    + by rewrite !lookup_insert_eq.
    + rewrite !lookup_insert_ne by done. rewrite Hindex by done. by rewrite Hi0.
  - exact Hentries.
  - intros listing. apply no_work_not_available. unfold work_left.
    rewrite Hi', lookup_insert_eq. rewrite Hc'.
    apply all_processed_no_work. intros a Ha. simpl.
    apply list_elem_of_lookup in Ha as [i Hi].
    assert (He : entries (Allanime.frame wl) !! i
                 = Some (Allanime.anime_id a, Allanime.anime_title a, Allanime.anime_url a))
      by (unfold entries; by rewrite list_lookup_fmap, Hi).
    rewrite Hentries, list_lookup_fmap in He.
    destruct (anime !! i) as [a0|] eqn:Ha0; [|done]. injection He as Hid _ _.
    rewrite <- Hid. apply Hall. by eapply list_elem_of_lookup_2.
Qed.

Lemma allanime_process_file_completes_witness :
  (Allanime.process_file demo_site "instance_1" "anime_a.json" demo_world).1 = Exec.Val 2 ∧
  Allanime.processed_anime
    (Allanime.coordination
       (Allanime.process_file demo_site "instance_1" "anime_a.json" demo_world).2)
  = ["id-a1"; "id-a2"] ∧
  Allanime.get_available_work ["anime_a.json"] demo_world = ["anime_a.json"] ∧
  Allanime.get_available_work ["anime_a.json"]
    (Allanime.process_file demo_site "instance_1" "anime_a.json" demo_world).2 = [].
Proof.
  destruct (allanime_process_file_completes demo_site "instance_1" "anime_a.json"
              demo_world (Some "A") [demo_anime "a1"; demo_anime "a2"])
    as (n & w' & new & saved & Hrun & _ & _ & _ & _ & _ & _ & _ & _ & Hgone).
  - reflexivity.
  - reflexivity.
  - reflexivity.
  - intros k u. discriminate.
  - split; [by vm_compute|]. split; [by vm_compute|]. split; by vm_compute.
Defined.

(** X14. As soon as one anime of the file fails, the [except] clause of the loop
    binds [data] to the coordination data it has just read, and every later
    save, the final one included, writes that object to the index file: the
    file no longer holds its anime but the coordination data as they were
    before the last failure was recorded, and [get_available_work] does not
    offer it any more. *)
Theorem allanime_failure_overwrites_index
    (env : Allanime.Env) (instance_id filename : string) (w w' : Allanime.World)
    (letter : option string) (anime : list Allanime.Anime) (res : Exec.Res Z) :
  Allanime.index w !! Path.join Allanime.anime_index_folder filename
    = Some (Some (Allanime.Index letter anime)) →
  (∀ k, Allanime.index_write_ok env k = true) →
  (∀ k, Allanime.setup_ok env k = true) →
  Allanime.process_file env instance_id filename w = (res, w') →
  Allanime.failed_anime (Allanime.coordination w')
    ≠ Allanime.failed_anime (Allanime.coordination w) →
  ∃ read entry,
    Allanime.index w' !! Path.join Allanime.anime_index_folder filename
      = Some (Some (Allanime.CoordinationDump read)) ∧
    Allanime.failed_anime (Allanime.coordination w')
      = Allanime.failed_anime read ++ [entry] ∧
    (∃ n, res = Exec.Val n) ∧
    ∀ listing, filename ∉ Allanime.get_available_work listing w'.
Proof.
  intros Hfile Hwrite Hsetup Hrun Hfailed.
  destruct (process_file_runs env instance_id filename w letter anime Hfile Hwrite Hsetup)
    as (w0 & wl & w1 & n & content & Hrun1 & Hc0 & Hi0 & Hf0 & Hturn & _ & _
        & Hn & Hcontent & Hc' & Hi').
  rewrite Hrun1 in Hrun. injection Hrun as <- <-.
  destruct Hturn as (_ & _ & _ & new & extra & _ & _ & Hf & _ & _ & Hx).
  assert (Hne : extra ≠ []).
  { intros ->. apply Hfailed. rewrite Hc'. simpl.
    rewrite Hf, Hc0, (right_id_L [] (++)). done. }
  destruct (Hx Hne) as (read & entry & Hdata & Hfl).
  unfold Allanime.dumped in Hcontent. rewrite Hdata in Hcontent. injection Hcontent as <-.
  exists read, entry. split_and!.
  - by rewrite Hi', lookup_insert_eq.
  - rewrite Hc'. simpl. exact Hfl.
  - by exists n.
  - intros listing. apply no_work_not_available. unfold work_left.
    by rewrite Hi', lookup_insert_eq.
Qed.

(** The same site, but the script fails on the page of the second anime. *)
Definition demo_site_flaky : Allanime.Env :=
  {| Allanime.goto_ok := λ _, true;
     Allanime.evaluate := λ _ u, if bool_decide (u = "https://animepahe.si/anime/a2")
                                 then None else Some demo_page;
     Allanime.cache_write_ok := λ _, true;
     Allanime.index_write_ok := λ _, true;
     Allanime.setup_ok := λ _, true;
     Allanime.close_ok := λ _, true;
     Allanime.time := λ k, 2000 + Z.of_nat k |}.

Lemma allanime_failure_overwrites_index_witness :
  (Allanime.process_file demo_site_flaky "instance_1" "anime_a.json" demo_world).1
    = Exec.Val 1 ∧
  (∃ read,
     Allanime.index
       (Allanime.process_file demo_site_flaky "instance_1" "anime_a.json" demo_world).2
       !! "anime_index/anime_a.json" = Some (Some (Allanime.CoordinationDump read))) ∧
  Allanime.get_available_work ["anime_a.json"] demo_world = ["anime_a.json"] ∧
  Allanime.get_available_work ["anime_a.json"]
    (Allanime.process_file demo_site_flaky "instance_1" "anime_a.json" demo_world).2 = [].
Proof.
  split; [by vm_compute|].
  destruct (allanime_failure_overwrites_index demo_site_flaky "instance_1" "anime_a.json"
              demo_world
              (Allanime.process_file demo_site_flaky "instance_1" "anime_a.json"
                 demo_world).2
              (Some "A") [demo_anime "a1"; demo_anime "a2"]
              (Allanime.process_file demo_site_flaky "instance_1" "anime_a.json"
                 demo_world).1)
    as (read & entry & Hfile & _).
  - reflexivity.
  - reflexivity.
  - reflexivity.
  - apply surjective_pairing.
  - by vm_compute.
  - split; [by exists read|]. split; by vm_compute.
Defined.

(** X15. [process_file] of allanime.py when nothing can be done: on an index file
    that is missing or is not valid JSON, the exception is caught and the
    lock released, but [processed_in_file] was never bound and the final
    [return] raises [UnboundLocalError] to the caller; when the file is read
    but the browser cannot be set up, it returns 0. In both cases the index
    files and the lists of processed and failed anime are as before, and the
    file is not locked. *)
Theorem allanime_process_file_gives_up
    (env : Allanime.Env) (instance_id filename : string) (w : Allanime.World) :
  let released := Allanime.unlock_file filename
                    (Allanime.lock_file instance_id filename (Allanime.coordination w)) in
  ((∀ content, Allanime.index w !! Path.join Allanime.anime_index_folder filename
               ≠ Some (Some content)) →
   ∃ w', Allanime.process_file env instance_id filename w
           = (Exec.Exc "UnboundLocalError", w') ∧
         Allanime.coordination w' = released ∧
         Allanime.index w' = Allanime.index w ∧ Allanime.tick w' = Allanime.tick w) ∧
  (∀ content, Allanime.index w !! Path.join Allanime.anime_index_folder filename
              = Some (Some content) →
   Allanime.setup_ok env (Allanime.tick w) = false →
   ∃ w', Allanime.process_file env instance_id filename w = (Exec.Val 0, w') ∧
         Allanime.coordination w' = released ∧
         Allanime.index w' = Allanime.index w) ∧
  Allanime.locked_files released
    = delete filename (Allanime.locked_files (Allanime.coordination w)) ∧
  Allanime.processed_anime released = Allanime.processed_anime (Allanime.coordination w) ∧
  Allanime.failed_anime released = Allanime.failed_anime (Allanime.coordination w).
Proof.
  intros released. split_and!.
  - intros Hbad. unfold Allanime.process_file.
    unfold Exec.bind at 1, Exec.modify at 1. unfold Exec.bind at 1, Exec.modify at 1.
    unfold Exec.bind at 1, Exec.try_finally at 1, Exec.try_except at 1.
    unfold Exec.bind at 1, Allanime.read_index at 1.
    cbn [Allanime.index Allanime.set_coordination Allanime.set_frame].
    destruct (Allanime.index w !! Path.join Allanime.anime_index_folder filename)
      as [[content|]|] eqn:Hfile; [by destruct (Hbad content)| |].
    all: unfold Exec.ret, Exec.modify, Exec.bind, Exec.gets, Exec.raise;
      cbn beta iota zeta; eexists; split; [reflexivity|]; done.
  - intros content Hfile Hsetup. unfold Allanime.process_file.
    unfold Exec.bind at 1, Exec.modify at 1. unfold Exec.bind at 1, Exec.modify at 1.
    unfold Exec.bind at 1, Exec.try_finally at 1, Exec.try_except at 1.
    unfold Exec.bind at 1, Allanime.read_index at 1.
    cbn [Allanime.index Allanime.set_coordination Allanime.set_frame].
    rewrite Hfile. unfold Exec.bind at 1, Exec.modify at 1.
    unfold Exec.bind at 1, Allanime.setup_browser at 1.
    unfold Exec.bind at 1, Allanime.fresh at 1.
    cbn [Allanime.tick Allanime.set_coordination Allanime.set_frame]. rewrite Hsetup.
    unfold Exec.ret, Exec.modify, Exec.bind, Exec.gets, Exec.raise. cbn beta iota zeta.
    eexists. split; [by destruct content|]. done.
  - apply unlock_lock_files.
  - done.
  - done.
Qed.

Section marks.
Import Allanime.

(** A sequence of [mark_anime_processed] calls, each with the id of an anime
    and the instance that marks it. *)
Definition mark_all (marks : list (string * string)) (c : Coordination) : Coordination :=
  foldl (λ c m, mark_anime_processed m.1 m.2 c) c marks.

Lemma mark_anime_processed_step (anime_id instance_id : string) (c : Coordination) :
  NoDup (processed_anime c) →
  let c' := mark_anime_processed anime_id instance_id c in
  NoDup (processed_anime c') ∧
  (∀ x, x ∈ processed_anime c' ↔ x ∈ processed_anime c ∨ x = anime_id) ∧
  (∃ new, processed_anime c' = processed_anime c ++ new ∧ (length new ≤ 1)%nat).
Proof.
  intros Hnd. simpl. case_bool_decide as Hin.
  - split_and!; [done| |].
    + intros x. split; [by left|]. by intros [?| ->].
    + exists []. split; [by rewrite (right_id_L [] (++))|simpl; lia].
  - split_and!.
    + apply NoDup_app. split_and!; [done| |apply NoDup_singleton].
      intros x Hx ->%list_elem_of_singleton. done.
    + intros x. rewrite elem_of_app, list_elem_of_singleton. done.
    + exists [anime_id]. split; [done|simpl; lia].
Qed.

End marks.

(** X16. ["processed_anime"] under any sequence of [mark_anime_processed] calls:
    it stays free of duplicates, it only grows at its end, it holds the ids
    it held and the ids that were marked; ["total_processed"] counts the
    calls, not the anime, so it grows at least as much as the list, and more
    when an id is marked again (as two instances can do with an anime that
    is in two files); the locks and the failures are not touched. *)
Theorem mark_anime_processed_invariants
    (marks : list (string * string)) (c : Allanime.Coordination) :
  NoDup (Allanime.processed_anime c) →
  NoDup (Allanime.processed_anime (mark_all marks c)) ∧
  (∃ new, Allanime.processed_anime (mark_all marks c) = Allanime.processed_anime c ++ new ∧
          (length new ≤ length marks)%nat) ∧
  (∀ x, x ∈ Allanime.processed_anime (mark_all marks c)
        ↔ x ∈ Allanime.processed_anime c ∨ x ∈ marks.*1) ∧
  Allanime.total_processed (mark_all marks c)
    = Allanime.total_processed c + Z.of_nat (length marks) ∧
  Allanime.locked_files (mark_all marks c) = Allanime.locked_files c ∧
  Allanime.failed_anime (mark_all marks c) = Allanime.failed_anime c.
Proof.
  revert c. induction marks as [|m marks IH]; intros c Hnd.
  - simpl. split_and!; try done.
    + exists []. by rewrite (right_id_L [] (++)).
    + intros x. split; [by left|]. by intros [?|?%elem_of_nil].
    + lia.
  - destruct (mark_anime_processed_step m.1 m.2 c Hnd) as (Hnd1 & Hin1 & new1 & Hp1 & Hl1).
    destruct (IH _ Hnd1) as (Hnd2 & (new2 & Hp2 & Hl2) & Hin2 & Ht2 & Hlk2 & Hf2).
    unfold mark_all in *. cbn [foldl]. split_and!.
    + exact Hnd2.
    + exists (new1 ++ new2). split.
      * by rewrite Hp2, Hp1, (assoc_L (++)).
      * rewrite length_app. simpl. lia.
    + intros x. rewrite Hin2, Hin1, fmap_cons, elem_of_cons. tauto.
    + rewrite Ht2. simpl. lia.
    + by rewrite Hlk2.
    + by rewrite Hf2.
Qed.

(** The same anime marked by two instances: one entry, two counted. *)
Lemma mark_anime_processed_invariants_witness :
  Allanime.processed_anime
    (mark_all [("id-a1", "instance_1"); ("id-a1", "instance_2")]
       (Allanime.init_coordination 2000 None)) = ["id-a1"] ∧
  Allanime.total_processed
    (mark_all [("id-a1", "instance_1"); ("id-a1", "instance_2")]
       (Allanime.init_coordination 2000 None)) = 2.
Proof.
  destruct (mark_anime_processed_invariants
              [("id-a1", "instance_1"); ("id-a1", "instance_2")]
              (Allanime.init_coordination 2000 None)) as (_ & _ & _ & Ht & _).
  - apply NoDup_nil_2.
  - split; [by vm_compute|]. rewrite Ht. reflexivity.
Defined.

(** ** The tab of a task *)



(** ** A worker on its own *)

Section worker.
Import Exec Allanime.

Lemma index_path_inj (f g : string) :
  is_index_file f = true → is_index_file g = true →
  Path.join anime_index_folder f = Path.join anime_index_folder g → f = g.
Proof.
  assert (Hjoin : ∀ h, is_index_file h = true →
            Path.join anime_index_folder h = "anime_index/" +:+ h).
  { intros h Hh. unfold is_index_file in Hh.
    apply andb_true_iff in Hh as [Hh _]. apply andb_true_iff in Hh as [Hh _].
    destruct h as [|c h]; [done|]. unfold Path.startswith in Hh.
    change (String.prefix "anime_" (String c h))
      with (if ascii_dec "a" c then String.prefix "nime_" h else false) in Hh.
    destruct (ascii_dec "a" c) as [<-|]; [|done]. reflexivity. }
  intros Hf Hg. rewrite !Hjoin by done. intros H. by apply (inj (String.app "anime_index/")) in H.
Qed.

Lemma filter_length_lt {A : Type} (P Q : A → Prop)
    `{!∀ a, Decision (P a)} `{!∀ a, Decision (Q a)} (l : list A) (x : A) :
  (∀ a, Q a → P a) → x ∈ l → P x → ¬ Q x →
  (length (filter Q l) < length (filter P l))%nat.
Proof.
  intros Himp Hx HP HQ.
  assert (Hle : ∀ l', (length (filter Q l') ≤ length (filter P l'))%nat).
  { induction l' as [|a l' IH]; [done|]. rewrite !filter_cons.
    destruct (decide (Q a)) as [Ha|Ha].
    - rewrite decide_True by by apply Himp. simpl. lia.
    - destruct (decide (P a)); simpl; lia. }
  induction l as [|a l IH]; [by apply elem_of_nil in Hx|].
  rewrite !filter_cons. apply elem_of_cons in Hx as [<-|Hx].
  - destruct (decide (Q x)); [done|]. destruct (decide (P x)); [|done].
    simpl. pose proof (Hle l). lia.
  - specialize (IH Hx). destruct (decide (Q a)) as [Ha|Ha].
    + rewrite decide_True by by apply Himp. simpl. lia.
    + destruct (decide (P a)); simpl; lia.
Qed.

Lemma get_available_work_length (listing : list string) (w : World) :
  length (get_available_work listing w)
    = length (filter (λ f, has_work w f = true) listing).
Proof. by rewrite get_available_work_sorted_filter, stable_sort_perm. Qed.

Lemma get_available_work_head (listing : list string) (w : World) (f : string)
    (others : list string) :
  get_available_work listing w = f :: others → f ∈ listing ∧ has_work w f = true.
Proof.
  intros Hget.
  assert (Hin : f ∈ get_available_work listing w) by (rewrite Hget; apply list_elem_of_here).
  rewrite get_available_work_sorted_filter, stable_sort_perm in Hin.
  apply list_elem_of_filter in Hin as [? ?]. done.
Qed.

Lemma unprocessed_count_mono (c c' : Coordination) (content : Content) :
  (∀ x, x ∈ processed_anime c → x ∈ processed_anime c') →
  (unprocessed_count c' content ≤ unprocessed_count c content)%nat.
Proof.
  intros Hsub. destruct content as [letter anime|dump]; [|done]. simpl.
  induction anime as [|a anime IH]; [done|]. rewrite !filter_cons.
  destruct (decide (anime_id a ∉ processed_anime c')) as [Ha|Ha].
  - rewrite decide_True by (intros Hin; by apply Ha, Hsub). simpl. lia.
  - destruct (decide (anime_id a ∉ processed_anime c)); simpl; lia.
Qed.

(** One turn of the worker on a file that [get_available_work] offers, when
    the browser starts and the index file can be written: the file has no
    work left afterwards, whether its anime were done or a failure made the
    worker write the coordination data over it, and no other file gets
    work. *)
Lemma process_file_step (env : Env) (instance_id filename : string) (w : World) :
  (∀ k, index_write_ok env k = true) →
  (∀ k, setup_ok env k = true) →
  has_work w filename = true →
  ∃ n w' new extra,
    process_file env instance_id filename w = (Val n, w') ∧
    n = Z.of_nat (length new) ∧
    processed_anime (coordination w') = processed_anime (coordination w) ++ new ∧
    total_processed (coordination w') = total_processed (coordination w) + n ∧
    failed_anime (coordination w') = failed_anime (coordination w) ++ extra ∧
    locked_files (coordination w') = locked_files (coordination w) ∧
    (∀ key, key ≠ Path.join anime_index_folder filename → index w' !! key = index w !! key) ∧
    has_work w' filename = false ∧
    (∀ g, has_work w' g = true → has_work w g = true).
Proof.
  intros Hwrite Hsetup Hwork.
  unfold has_work in Hwork.
  apply andb_true_iff in Hwork as [Hwork Hleft].
  apply andb_true_iff in Hwork as [Hname Hfree].
  apply bool_decide_eq_true in Hfree, Hleft.
  unfold work_left in Hleft.
  destruct (index w !! Path.join anime_index_folder filename)
    as [[[letter anime|dump]|]|] eqn:Hfile; simpl in Hleft; try lia.
  destruct (process_file_runs env instance_id filename w letter anime Hfile Hwrite Hsetup)
    as (w0 & wl & w' & n & content & Hrun & Hc0 & Hi0 & Hf0 & Hturn & Hdone & _
        & Hn & Hcontent & Hc' & Hi').
  destruct Hturn as (Hlock & Hindex & Hentries & new & extra & Hp & Ht & Hf & Hcount & Hd & Hx).
  rewrite Hf0 in Hcount, Hentries. simpl in Hcount.
  unfold entries at 2 in Hentries. cbn [animes loaded] in Hentries.
  rewrite Hn in Hcount. injection Hcount as ->.
  assert (Hzero : unprocessed_count (coordination w') content = 0%nat).
  { destruct extra as [|x extra].
    - assert (Hdata : data (frame wl) = Some (WorkItem letter)) by (by rewrite (Hd eq_refl), Hf0).
      unfold dumped in Hcontent. rewrite Hdata in Hcontent. injection Hcontent as <-.
      rewrite (right_id_L [] (++)) in Hf.
      apply all_processed_no_work. intros a Ha. rewrite Hc'. simpl.
      apply list_elem_of_lookup in Ha as [i Hi].
      assert (He : entries (frame wl) !! i = Some (anime_id a, anime_title a, anime_url a))
        by (unfold entries; by rewrite list_lookup_fmap, Hi).
      apply (Hdone Hf i (anime_id a, anime_title a, anime_url a)).
      + rewrite <- (length_fmap (λ a, (anime_id a, anime_title a, anime_url a)) anime).
        rewrite <- Hentries. by eapply lookup_lt_Some.
      + rewrite Hf0. unfold entries at 1. cbn [animes loaded]. by rewrite <- Hentries.
    - destruct (Hx ltac:(done)) as (read & entry & Hdata & _).
      unfold dumped in Hcontent. rewrite Hdata in Hcontent. by injection Hcontent as <-. }
  assert (Hlocks : locked_files (coordination w') = locked_files (coordination w)).
  { rewrite Hc'. simpl. rewrite Hlock, Hc0. simpl. rewrite delete_insert_eq.
    by apply delete_id. }
  exists (0 + Z.of_nat (length new)), w', new, extra. split_and!.
  - exact Hrun.
  - lia.
  - rewrite Hc'. simpl. by rewrite Hp, Hc0.
  - rewrite Hc'. simpl. rewrite Ht, Hc0. simpl. lia.
  - rewrite Hc'. simpl. by rewrite Hf, Hc0.
  - exact Hlocks.
  - intros key Hkey. rewrite Hi', lookup_insert_ne by done. rewrite Hindex by done.
    by rewrite Hi0.
  - unfold has_work, work_left. rewrite Hi', lookup_insert_eq, Hzero.
    rewrite (bool_decide_eq_false_2 (0 < 0)%nat) by lia. apply andb_false_r.
  - intros g Hg. unfold has_work in *.
    apply andb_true_iff in Hg as [Hg Hgleft].
    apply andb_true_iff in Hg as [Hgname Hgfree].
    apply bool_decide_eq_true in Hgfree, Hgleft.
    destruct (decide (g = filename)) as [->|Hne].
    { unfold work_left in Hgleft. rewrite Hi', lookup_insert_eq, Hzero in Hgleft. lia. }
    assert (Hpath : Path.join anime_index_folder g ≠ Path.join anime_index_folder filename).
    { intros Heq. by apply Hne, index_path_inj. }
    rewrite Hgname. rewrite Hlocks in Hgfree. rewrite bool_decide_eq_true_2 by done.
    simpl. apply bool_decide_eq_true.
    unfold work_left in *. rewrite Hi', lookup_insert_ne in Hgleft by done.
    rewrite Hindex, Hi0 in Hgleft by done.
    destruct (index w !! Path.join anime_index_folder g) as [[c|]|]; try lia.
    pose proof (unprocessed_count_mono (coordination w) (coordination w') c) as Hmono.
    enough (unprocessed_count (coordination w') c ≤ unprocessed_count (coordination w) c)%nat
      by lia.
    apply Hmono. intros x Hx'. rewrite Hc'. simpl. rewrite Hp, Hc0. simpl.
    apply elem_of_app. by left.
Qed.

Lemma get_available_work_elem (listing : list string) (w : World) (f : string) :
  f ∈ get_available_work listing w ↔ f ∈ listing ∧ has_work w f = true.
Proof.
  rewrite get_available_work_sorted_filter, stable_sort_perm, list_elem_of_filter. tauto.
Qed.

(** The loop of the worker comes to its end: a turn takes a file that has
    work and leaves it without, so there are at most as many turns as files
    on offer at the start. *)
Lemma worker_loop_finishes (env : Env) (listing : list string) (instance_id : string) :
  (∀ k, index_write_ok env k = true) →
  (∀ k, setup_ok env k = true) →
  ∀ (turns : nat) (w : World) (total : Z),
    (length (get_available_work listing w) < turns)%nat →
    ∃ w' new extra,
      worker_loop env listing instance_id total turns w
        = (Val (Some (total + Z.of_nat (length new))), w') ∧
      processed_anime (coordination w') = processed_anime (coordination w) ++ new ∧
      total_processed (coordination w')
        = total_processed (coordination w) + Z.of_nat (length new) ∧
      failed_anime (coordination w') = failed_anime (coordination w) ++ extra ∧
      locked_files (coordination w') = locked_files (coordination w) ∧
      get_available_work listing w' = [] ∧
      (∀ key, (∀ f, f ∈ get_available_work listing w → key ≠ Path.join anime_index_folder f) →
              index w' !! key = index w !! key).
Proof.
  intros Hwrite Hsetup turns. induction turns as [|turns IH]; intros w total Hturns; [lia|].
  cbn [worker_loop]. unfold bind at 1, gets at 1.
  destruct (get_available_work listing w) as [|filename others] eqn:Hget.
  - exists (set_events (λ t, t ++ [Sleep 30]) w), [], [].
    rewrite !(right_id_L [] (++)). simpl.
    unfold bind, emit, modify, gets, ret. simpl.
    change (get_available_work listing (set_events (λ t, t ++ [Sleep 30]) w))
      with (get_available_work listing w).
    rewrite Hget. split_and!; try done. f_equal. f_equal. f_equal. lia. lia.
  - destruct (get_available_work_head listing w filename others Hget) as [Hin Hwork].
    destruct (process_file_step env instance_id filename w Hwrite Hsetup Hwork)
      as (n & w1 & new1 & extra1 & Hrun & Hn & Hp1 & Ht1 & Hf1 & Hl1 & Hi1 & Hnone & Hmono).
    set (w2 := set_events (λ t, t ++ [Sleep 5]) w1).
    assert (Hless : (length (get_available_work listing w2) < turns)%nat).
    { rewrite get_available_work_length.
      change (λ f, has_work w2 f = true) with (λ f, has_work w1 f = true).
      enough (length (filter (λ f, has_work w1 f = true) listing)
              < length (filter (λ f, has_work w f = true) listing))%nat as Hlt.
      { rewrite <- (get_available_work_length listing w), Hget in Hlt. simpl in *. eapply Nat.lt_le_trans; [exact Hlt|lia]. }
      apply (filter_length_lt _ _ listing filename); [exact Hmono|done|done|].
      by rewrite Hnone. }
    destruct (IH w2 (total + n) Hless)
      as (w' & new2 & extra2 & Hloop & Hp2 & Ht2 & Hf2 & Hl2 & Hend & Hi2).
    exists w', (new1 ++ new2), (extra1 ++ extra2).
    unfold ret at 1. unfold bind at 1. unfold bind at 1. rewrite Hrun.
    unfold bind at 1, emit at 1, modify at 1. fold w2. rewrite Hloop.
    split_and!.
    + do 3 f_equal. rewrite length_app. lia.
    + rewrite Hp2. change (coordination w2) with (coordination w1).
      by rewrite Hp1, (assoc_L (++)).
    + rewrite Ht2. change (coordination w2) with (coordination w1).
      rewrite Ht1, length_app. lia.
    + rewrite Hf2. change (coordination w2) with (coordination w1).
      by rewrite Hf1, (assoc_L (++)).
    + rewrite Hl2. exact Hl1.
    + exact Hend.
    + intros key Hkey. rewrite Hi2.
      * change (index w2) with (index w1). apply Hi1, Hkey.
        apply list_elem_of_here.
      * intros f Hf. apply Hkey.
        apply get_available_work_elem in Hf as [Hfl Hfw].
        rewrite <- Hget. apply get_available_work_elem. split; [done|].
        by apply Hmono.
Qed.

Lemma candidate_ext (w w' : World) (g : string) :
  locked_files (coordination w') = locked_files (coordination w) →
  processed_anime (coordination w') = processed_anime (coordination w) →
  index w' = index w →
  candidate w' g = candidate w g.
Proof.
  intros Hl Hp Hi. unfold candidate, is_file_locked. rewrite Hl, Hi.
  destruct (index w !! Path.join anime_index_folder g) as [[[letter anime|dump]|]|]; try done.
  unfold unprocessed_count. by rewrite Hp.
Qed.

Lemma get_available_work_ext (listing : list string) (w w' : World) :
  locked_files (coordination w') = locked_files (coordination w) →
  processed_anime (coordination w') = processed_anime (coordination w) →
  index w' = index w →
  get_available_work listing w' = get_available_work listing w.
Proof.
  intros Hl Hp Hi. unfold get_available_work. do 2 f_equal.
  apply list_omap_ext, Forall2_same_length_lookup. split; [done|].
  intros i g g' Hg Hg'. rewrite Hg in Hg'. injection Hg' as <-.
  by apply candidate_ext.
Qed.

(** [process_file] when the browser cannot be set up: the file is locked and
    unlocked, and nothing else happens. *)
Lemma process_file_without_browser (env : Env) (instance_id filename : string) (w : World) :
  setup_ok env (tick w) = false →
  has_work w filename = true →
  ∃ w', process_file env instance_id filename w = (Val 0, w') ∧
        coordination w' = unlock_file filename (lock_file instance_id filename (coordination w)) ∧
        locked_files (coordination w') = locked_files (coordination w) ∧
        index w' = index w ∧ events w' = events w ∧ tick w' = S (tick w).
Proof.
  intros Hsetup Hwork. unfold has_work in Hwork.
  apply andb_true_iff in Hwork as [Hwork Hleft].
  apply andb_true_iff in Hwork as [_ Hfree].
  apply bool_decide_eq_true in Hfree, Hleft.
  unfold work_left in Hleft.
  destruct (index w !! Path.join anime_index_folder filename)
    as [[content|]|] eqn:Hfile; simpl in Hleft; try lia.
  unfold process_file.
  unfold bind at 1, modify at 1. unfold bind at 1, modify at 1.
  unfold bind at 1, try_finally at 1, try_except at 1.
  unfold bind at 1, read_index at 1. cbn [index set_coordination set_frame].
  rewrite Hfile. unfold bind at 1, modify at 1.
  unfold bind at 1, setup_browser at 1. unfold bind at 1, fresh at 1.
  cbn [tick set_coordination set_frame]. rewrite Hsetup.
  unfold ret, modify, bind, gets, raise. cbn beta iota zeta.
  eexists. split; [by destruct content|]. split_and!; try done.
  simpl. rewrite delete_insert_eq. by apply delete_id.
Qed.

(** Without a browser the loop of the worker never ends: every turn takes
    the same file, locks it, unlocks it and waits five seconds. *)
Lemma worker_loop_goes_on (env : Env) (listing : list string) (instance_id : string) :
  (∀ k, setup_ok env k = false) →
  ∀ (turns : nat) (w : World) (total : Z),
    get_available_work listing w ≠ [] →
    ∃ w', worker_loop env listing instance_id total turns w = (Val None, w') ∧
          processed_anime (coordination w') = processed_anime (coordination w) ∧
          total_processed (coordination w') = total_processed (coordination w) ∧
          locked_files (coordination w') = locked_files (coordination w) ∧
          index w' = index w ∧
          events w' = events w ++ replicate turns (Sleep 5).
Proof.
  intros Hsetup turns. induction turns as [|turns IH]; intros w total Hsome.
  - exists w. simpl. by rewrite (right_id_L [] (++)).
  - cbn [worker_loop]. unfold bind at 1, gets at 1.
    destruct (get_available_work listing w) as [|filename others] eqn:Hget; [done|].
    destruct (get_available_work_head listing w filename others Hget) as [Hin Hwork].
    destruct (process_file_without_browser env instance_id filename w (Hsetup _) Hwork)
      as (w1 & Hrun & Hc1 & Hl1 & Hi1 & He1 & _).
    set (w2 := set_events (λ t, t ++ [Sleep 5]) w1).
    assert (Hp1 : processed_anime (coordination w1) = processed_anime (coordination w))
      by (by rewrite Hc1).
    assert (Hsame : get_available_work listing w2 = get_available_work listing w)
      by (by apply get_available_work_ext).
    destruct (IH w2 (total + 0)) as (w' & Hloop & Hp & Ht & Hl & Hi & He).
    { rewrite Hsame, Hget. done. }
    exists w'. unfold ret at 1. unfold bind at 1. unfold bind at 1. rewrite Hrun.
    unfold bind at 1, emit at 1, modify at 1. fold w2. rewrite Hloop.
    split_and!; try done.
    + by rewrite Hp.
    + rewrite Ht. change (coordination w2) with (coordination w1). by rewrite Hc1.
    + by rewrite Hl.
    + by rewrite Hi.
    + rewrite He. simpl. rewrite He1. by rewrite <- (assoc_L (++)).
Qed.

End worker.

(** X18. [worker_instance] of allanime.py, while no other worker runs, when the
    browser starts and the index files can be written: the loop ends after
    at most as many files as [get_available_work] offered at the start,
    whatever the pages do; the worker returns the number of anime it marked,
    which is the growth of ["processed_anime"] and of ["total_processed"];
    no file is on offer at the end, and no lock is left; only index files
    that were on offer at the start have been written. *)
Theorem worker_instance_finishes
    (env : Allanime.Env) (listing : list string) (start_delay : string → Z + string)
    (instance_id : string) (seconds : Z) (turns : nat) (w : Allanime.World) :
  start_delay instance_id = inl seconds →
  (∀ k, Allanime.index_write_ok env k = true) →
  (∀ k, Allanime.setup_ok env k = true) →
  (length (Allanime.get_available_work listing w) < turns)%nat →
  ∃ total w' new,
    Allanime.worker_instance env listing start_delay instance_id turns w
      = (Exec.Val (Some total), w') ∧
    total = Z.of_nat (length new) ∧
    Allanime.processed_anime (Allanime.coordination w')
      = Allanime.processed_anime (Allanime.coordination w) ++ new ∧
    Allanime.total_processed (Allanime.coordination w')
      = Allanime.total_processed (Allanime.coordination w) + total ∧
    Allanime.locked_files (Allanime.coordination w')
      = Allanime.locked_files (Allanime.coordination w) ∧
    Allanime.get_available_work listing w' = [] ∧
    (∀ key, (∀ f, f ∈ Allanime.get_available_work listing w →
                  key ≠ Path.join Allanime.anime_index_folder f) →
            Allanime.index w' !! key = Allanime.index w !! key).
Proof.
  intros Hdelay Hwrite Hsetup Hturns.
  set (w0 := Allanime.set_events (λ t, t ++ [Allanime.Sleep seconds]) w).
  destruct (worker_loop_finishes env listing instance_id Hwrite Hsetup turns w0 0)
    as (w' & new & extra & Hloop & Hp & Ht & _ & Hl & Hend & Hi); [exact Hturns|].
  exists (Z.of_nat (length new)), w', new.
  unfold Allanime.worker_instance. rewrite Hdelay.
  unfold Exec.bind at 1, Allanime.emit at 1, Exec.modify at 1. fold w0.
  rewrite Hloop. split_and!; try done.
Qed.

(** Two index files and a page script that fails on one anime: the worker
    takes both files and ends with the two anime it could mark. *)
Definition demo_world_two : Allanime.World :=
  {| Allanime.coordination := Allanime.init_coordination 2000 None;
     Allanime.index :=
       {[ "anime_index/anime_a.json" :=
            Some (Allanime.Index (Some "A") [demo_anime "a1"; demo_anime "a2"]);
          "anime_index/anime_b.json" :=
            Some (Allanime.Index (Some "B") [demo_anime "b1"]) ]};
     Allanime.cache := ∅;
     Allanime.tick := 0;
     Allanime.events := [];
     Allanime.frame := {| Allanime.data := None; Allanime.animes := [];
                          Allanime.processed_in_file := None |} |}.

Lemma worker_instance_finishes_witness :
  Allanime.get_available_work ["anime_b.json"; "anime_a.json"; "master_index.json"]
    demo_world_two = ["anime_a.json"; "anime_b.json"] ∧
  ∃ w', Allanime.worker_instance demo_site_flaky
          ["anime_b.json"; "anime_a.json"; "master_index.json"] (λ _, inl 0)
          "instance_1" 3 demo_world_two = (Exec.Val (Some 2), w') ∧
        Allanime.processed_anime (Allanime.coordination w') = ["id-a1"; "id-b1"].
Proof.
  split; [by vm_compute|].
  destruct (worker_instance_finishes demo_site_flaky
              ["anime_b.json"; "anime_a.json"; "master_index.json"] (λ _, inl 0)
              "instance_1" 0 3 demo_world_two)
    as (total & w' & new & Hrun & Htotal & Hp & _); [done|done|done|vm_compute; lia|].
  exists w'. rewrite Hrun in *.
  assert (Hrun' := Hrun). vm_compute in Hrun'. injection Hrun' as Ht Hw.
  split; [by rewrite <- Ht|]. rewrite <- Hw. reflexivity.
Defined.

(** X19. [worker_instance] of allanime.py, while no other worker runs, when the
    browser cannot be set up and a file is on offer: the loop never reaches
    its [break]; however many turns it is given, it is still going on, with
    one five second pause per turn, nothing marked, nothing written to the
    index files, and no lock left. *)
Theorem worker_instance_without_browser
    (env : Allanime.Env) (listing : list string) (start_delay : string → Z + string)
    (instance_id : string) (seconds : Z) (w : Allanime.World) :
  start_delay instance_id = inl seconds →
  (∀ k, Allanime.setup_ok env k = false) →
  Allanime.get_available_work listing w ≠ [] →
  ∀ turns, ∃ w',
    Allanime.worker_instance env listing start_delay instance_id turns w
      = (Exec.Val None, w') ∧
    Allanime.processed_anime (Allanime.coordination w')
      = Allanime.processed_anime (Allanime.coordination w) ∧
    Allanime.total_processed (Allanime.coordination w')
      = Allanime.total_processed (Allanime.coordination w) ∧
    Allanime.locked_files (Allanime.coordination w')
      = Allanime.locked_files (Allanime.coordination w) ∧
    Allanime.index w' = Allanime.index w ∧
    Allanime.events w'
      = Allanime.events w ++ Allanime.Sleep seconds :: replicate turns (Allanime.Sleep 5).
Proof.
  intros Hdelay Hsetup Hsome turns.
  set (w0 := Allanime.set_events (λ t, t ++ [Allanime.Sleep seconds]) w).
  destruct (worker_loop_goes_on env listing instance_id Hsetup turns w0 0)
    as (w' & Hloop & Hp & Ht & Hl & Hi & He); [exact Hsome|].
  exists w'. unfold Allanime.worker_instance. rewrite Hdelay.
  unfold Exec.bind at 1, Allanime.emit at 1, Exec.modify at 1. fold w0.
  rewrite Hloop. split_and!; try done.
  rewrite He. simpl. by rewrite <- (assoc_L (++)).
Qed.

Definition demo_site_no_browser : Allanime.Env :=
  {| Allanime.goto_ok := λ _, true;
     Allanime.evaluate := λ _ _, Some demo_page;
     Allanime.cache_write_ok := λ _, true;
     Allanime.index_write_ok := λ _, true;
     Allanime.setup_ok := λ _, false;
     Allanime.close_ok := λ _, true;
     Allanime.time := λ k, 2000 + Z.of_nat k |}.

Lemma worker_instance_without_browser_witness :
  ∃ w', Allanime.worker_instance demo_site_no_browser ["anime_a.json"] (λ _, inl 10)
          "instance_2" 3 demo_world = (Exec.Val None, w') ∧
        Allanime.events w'
          = [Allanime.Sleep 10; Allanime.Sleep 5; Allanime.Sleep 5; Allanime.Sleep 5].
Proof.
  destruct (worker_instance_without_browser demo_site_no_browser ["anime_a.json"]
              (λ _, inl 10) "instance_2" 10 demo_world) with (turns := 3%nat)
    as (w' & Hrun & _ & _ & _ & _ & He); [done|done|by vm_compute|].
  exists w'. split; [exact Hrun|exact He].
Defined.

(** ** The pre-scan of v.py and the counters of a run *)

Section accounting.
Import Exec Json Runtime.

(** The episodes of the loaded file that have no result. *)
Definition unresolved (m : Loaded) (r : nat) : Prop :=
  truthy (iframe_url (deref m r)) = false.

Local Instance unresolved_dec (m : Loaded) (r : nat) : Decision (unresolved m r) :=
  decide (truthy (iframe_url (deref m r)) = false).

Lemma count_pending_episodes_length (total : Z) (d : Data) :
  Instance.count_pending_episodes total d = total + Z.of_nat (length (pending_of d)).
Proof.
  unfold Instance.count_pending_episodes, pending_of.
  revert total. induction d as [|anime d IH]; intros total; simpl; [lia|].
  rewrite IH, filter_app, length_app.
  enough (∀ t, foldl (λ total episode, if truthy (iframe_url episode) then total else total + 1)
                     t anime
               = t + Z.of_nat (length (filter (λ e, truthy (iframe_url e) = false) anime)))
    as -> by lia.
  induction anime as [|e anime IHa]; intros t; simpl; [lia|].
  rewrite IHa, filter_cons. destruct (truthy (iframe_url e)).
  - rewrite decide_False by done. lia.
  - rewrite decide_True by done. simpl. lia.
Qed.

Lemma unresolved_set_other (m : Loaded) (r a : nat) (v : option string) :
  r ≠ a → unresolved (set_iframe_url r v m) a ↔ unresolved m a.
Proof. intros Hne. unfold unresolved. by rewrite deref_set_iframe_url_ne. Qed.

Lemma unresolved_set_same (m : Loaded) (r : nat) (v : option string) :
  (r < length (heap m))%nat → unresolved (set_iframe_url r v m) r ↔ truthy v = false.
Proof. intros Hlt. unfold unresolved. by rewrite deref_set_iframe_url_eq. Qed.

Lemma unresolved_filter_notin (m : Loaded) (r : nat) (v : option string) (l : list nat) :
  r ∉ l →
  filter (unresolved (set_iframe_url r v m)) l = filter (unresolved m) l.
Proof.
  intros Hr. induction l as [|a l IH]; [done|].
  apply not_elem_of_cons in Hr as [Hne Hr]. rewrite !filter_cons, IH by done.
  pose proof (unresolved_set_other m r a v Hne) as Heq.
  destruct (decide (unresolved (set_iframe_url r v m) a)),
           (decide (unresolved m a)); tauto.
Qed.

(** A result written to an unresolved episode takes it off the pending
    ones exactly when the result is truthy. *)
Lemma unresolved_set_iframe_url (m : Loaded) (r : nat) (v : option string) (l : list nat) :
  NoDup l → r ∈ l → (r < length (heap m))%nat → unresolved m r →
  (length (filter (unresolved (set_iframe_url r v m)) l)
   + (if truthy v then 1 else 0)
   = length (filter (unresolved m) l))%nat.
Proof.
  intros Hnd Hin Hlt Hun. induction l as [|a l IH]; [by apply elem_of_nil in Hin|].
  apply NoDup_cons in Hnd as [Ha Hnd]. rewrite !filter_cons.
  destruct (decide (a = r)) as [->|Hne].
  - rewrite unresolved_filter_notin by done.
    pose proof (unresolved_set_same m r v Hlt) as Heq.
    destruct (decide (unresolved m r)); [|done].
    destruct (decide (unresolved (set_iframe_url r v m) r)) as [Hu|Hu].
    + apply Heq in Hu. rewrite Hu. simpl. lia.
    + destruct (truthy v); [simpl; lia|]. by destruct Hu; apply Heq.
  - apply elem_of_cons in Hin as [->|Hin]; [done|].
    specialize (IH Hnd Hin).
    pose proof (unresolved_set_other m r a v ltac:(done)) as Heq.
    destruct (decide (unresolved (set_iframe_url r v m) a)),
             (decide (unresolved m a)); try tauto; simpl; lia.
Qed.

Lemma failing_value_of (res : option string + string) :
  truthy (value_of res) = negb (failing res).
Proof. destruct res as [v|msg]; simpl; [by rewrite negb_involutive|done]. Qed.

Lemma anime_apply_results (xs : list (nat * (option string + string))) (m : Loaded) :
  anime (apply_results m xs) = anime m.
Proof.
  revert m. induction xs as [|x xs IH]; intros m; [done|].
  unfold apply_results in *. simpl. by rewrite IH.
Qed.

(** The results of a batch of unresolved episodes: every result that
    counts as a failure leaves its episode pending, every other takes it
    off. *)
Lemma unresolved_apply_results (l : list nat) (xs : list (nat * (option string + string))) :
  NoDup l →
  ∀ m, NoDup xs.*1 →
    Forall (λ r, r ∈ l ∧ (r < length (heap m))%nat ∧ unresolved m r) xs.*1 →
    (length (filter (unresolved (apply_results m xs)) l) + length xs
     = length (filter (unresolved m) l)
       + length (filter (λ x, failing x.2 = true) xs))%nat.
Proof.
  intros Hl. induction xs as [|[r res] xs IH]; intros m Hnd Hall; [simpl; lia|].
  rewrite fmap_cons in Hnd, Hall. simpl in Hnd, Hall.
  apply NoDup_cons in Hnd as [Hr Hnd]. apply Forall_cons in Hall as [(Hin & Hlt & Hun) Hall].
  change (apply_results m ((r, res) :: xs))
    with (apply_results (set_iframe_url r (value_of res) m) xs).
  pose proof (unresolved_set_iframe_url m r (value_of res) l Hl Hin Hlt Hun) as Hstep.
  rewrite failing_value_of in Hstep.
  specialize (IH (set_iframe_url r (value_of res) m) Hnd).
  rewrite filter_cons. simpl.
  assert (Hrest : Forall (λ r0, r0 ∈ l ∧ (r0 < length (heap (set_iframe_url r (value_of res) m)))%nat
                                ∧ unresolved (set_iframe_url r (value_of res) m) r0) xs.*1).
  { apply Forall_forall. intros r0 Hr0.
    destruct (proj1 (Forall_forall _ _) Hall r0 Hr0) as (? & ? & ?).
    split_and!; [done|simpl; by rewrite length_alter|].
    apply unresolved_set_other; [|done]. intros ->. done. }
  specialize (IH Hrest).
  destruct (failing res); simpl in *; lia.
Qed.

Lemma V_record_results_files_processed (xs : list (nat * (option string + string)))
    (s : State) :
  files_processed_count (foldl V.record_result s xs) = files_processed_count s.
Proof.
  revert s. induction xs as [|x xs IH]; intros s; simpl; [done|].
  rewrite IH. unfold V.record_result.
  destruct x.2 as [v|msg]; [destruct (truthy v)|]; done.
Qed.

(** What the batches of pending episodes leave, when the batch loop of
    v.py comes to its end. *)
Lemma V_process_batches_accounting (env : Env) (file_path : string)
    (batches : list (list nat)) :
  ∀ s u s',
    V.process_batches env file_path batches s = (Val u, s') →
    NoDup (concat (anime (data s))) →
    NoDup (concat batches) →
    Forall (λ r, r ∈ concat (anime (data s)) ∧ (r < length (heap (data s)))%nat
                 ∧ unresolved (data s) r) (concat batches) →
    anime (data s') = anime (data s) ∧
    length (heap (data s')) = length (heap (data s)) ∧
    Z.of_nat (length (pending (data s'))) + Z.of_nat (length (concat batches))
      = Z.of_nat (length (pending (data s))) + (error_count s' - error_count s) ∧
    processed_count s' + error_count s'
      = processed_count s + error_count s + Z.of_nat (length (concat batches)) ∧
    files_processed_count s' = files_processed_count s ∧
    (∀ g, g ≠ file_path → files s' !! g = files s !! g) ∧
    (batches ≠ [] → files s' !! file_path = Some (Some (dump (data s')))).
Proof.
  induction batches as [|batch batches IH]; intros s u s' Hrun Hl Hnd Hall.
  - simpl in Hrun. injection Hrun as _ <-. simpl. split_and!; try done; lia.
  - simpl in Hrun. unfold bind in Hrun.
    destruct (V.process_episode_batch env batch s) as [[b|msg| |] s1] eqn:Hb; try done.
    destruct (write_json env file_path s1) as [[w|msg| |] s2] eqn:Hw; try done.
    unfold V.process_episode_batch, bind in Hb.
    destruct (run_tasks env batch s) as [[results|msg| |] s0] eqn:Htasks; try done.
    destruct (run_tasks_spec env batch s _ _ Htasks) as (Hstep & _ & _ & Hlen & _).
    destruct Hstep as (_ & Hf0 & Hd0 & Hp0 & He0 & Hfp0 & _).
    unfold modify, ret in Hb. injection Hb as _ <-.
    set (xs := zip batch results) in *.
    assert (Hkeys : xs.*1 = batch) by (apply fst_zip; lia).
    assert (Hxs : length xs = length batch) by (rewrite <- Hkeys; by rewrite length_fmap).
    destruct (V_record_results_spec env xs s0) as (Hd1 & He1 & Hsum1).
    destruct (V_record_results_frame xs s0) as (_ & Hf1 & _).
    pose proof (V_record_results_files_processed xs s0) as Hfp1.
    set (s1 := foldl V.record_result s0 xs) in *.
    unfold write_json, bind, fresh, raise, modify in Hw. simpl in Hw.
    destruct (write_fault env (tick s1)); [done|]. injection Hw as _ <-.
    simpl in Hnd, Hall. apply NoDup_app in Hnd as (Hndb & Hdisj & Hndr).
    apply Forall_app in Hall as [Hallb Hallr].
    match type of Hrun with V.process_batches _ _ _ ?t = _ => set (s2 := t) in * end.
    assert (Hd2 : data s2 = apply_results (data s) xs) by (by rewrite <- Hd0).
    assert (Hcount : (length (filter (unresolved (data s2)) (concat (anime (data s))))
                      + length xs
                      = length (filter (unresolved (data s)) (concat (anime (data s))))
                        + length (filter (λ x, failing x.2 = true) xs))%nat).
    { rewrite Hd2. apply unresolved_apply_results; [done|by rewrite Hkeys|by rewrite Hkeys]. }
    destruct (IH s2 u s' Hrun) as (Ha & Hh & Hpend & Hsum & Hfp & Hother & _).
    { rewrite Hd2, anime_apply_results. done. }
    { done. }
    { rewrite Hd2, anime_apply_results, apply_results_length.
      apply Forall_forall. intros r Hr.
      destruct (proj1 (Forall_forall _ _) Hallr r Hr) as (? & ? & Hun).
      split_and!; [done|done|]. unfold unresolved in *.
      rewrite apply_results_notin; [done|]. rewrite Hkeys. intros Hrb.
      by apply (Hdisj r). }
    rewrite Hd2, anime_apply_results in Ha. rewrite Hd2, apply_results_length in Hh.
    change (pending (data s2))
      with (filter (unresolved (data s2)) (concat (anime (data s2)))) in Hpend.
    assert (Han2 : anime (data s2) = anime (data s))
      by (rewrite Hd2; apply anime_apply_results).
    rewrite Han2 in Hpend.
    change (pending (data s))
      with (filter (unresolved (data s)) (concat (anime (data s)))).
    change (error_count s2) with (error_count s1) in *.
    change (processed_count s2) with (processed_count s1) in *.
    change (files_processed_count s2) with (files_processed_count s1) in *.
    change (concat (batch :: batches)) with (batch ++ concat batches).
    rewrite length_app.
    split_and!.
    + exact Ha.
    + exact Hh.
    + lia.
    + lia.
    + congruence.
    + intros g Hg. rewrite Hother by done. subst s2. simpl.
      rewrite lookup_insert_ne by done. by rewrite Hf1, Hf0.
    + intros _. destruct batches as [|next batches].
      * simpl in Hrun. injection Hrun as _ <-. subst s2. simpl.
        by rewrite lookup_insert_eq.
      * destruct (IH s2 u s' Hrun) as (_ & _ & _ & _ & _ & _ & Hsync); try done.
        { rewrite Hd2, anime_apply_results. done. }
        { rewrite Hd2, anime_apply_results, apply_results_length.
          apply Forall_forall. intros r Hr.
          destruct (proj1 (Forall_forall _ _) Hallr r Hr) as (? & ? & Hun).
          split_and!; [done|done|]. unfold unresolved in *.
          rewrite apply_results_notin; [done|]. rewrite Hkeys. intros Hrb.
          by apply (Hdisj r). }
        by apply Hsync.
Qed.

Lemma pending_dump (m : Loaded) :
  Forall (λ r, (r < length (heap m))%nat) (concat (anime m)) →
  length (pending_of (dump m)) = length (pending m).
Proof.
  unfold pending_of, dump, pending. generalize (anime m). intros a Hall.
  induction a as [|episodes a IH]; [done|].
  rewrite fmap_cons. simpl in *. apply Forall_app in Hall as [Hhere Hrest].
  rewrite !filter_app, !length_app, IH by done. f_equal.
  clear IH Hrest. induction episodes as [|r episodes IH]; [done|].
  apply Forall_cons in Hhere as [Hr Hhere]. simpl.
  destruct (lookup_lt_is_Some_2 _ _ Hr) as [e He]. rewrite He. simpl.
  change (list_omap nat Episode (λ r0, heap m !! r0) episodes)
    with (omap (λ r0, heap m !! r0) episodes).
  assert (Hd : deref m r = e) by (unfold deref; by rewrite He).
  rewrite !filter_cons, Hd.
  destruct (decide (truthy (iframe_url e) = false)); simpl; by rewrite IH.
Qed.

(** The pre-scan never raises: it counts the files of the scan, and for
    each of them that can be read the episodes [process_file] would start a
    task for. *)
Lemma get_total_pending_episodes_spec (env : Env) (listdir : nat → option (list string))
    (directory : string) (s : State) :
  ∃ all_files s1,
    Instance.get_available_files env listdir true directory s = (Val all_files, s1) ∧
    files s1 = files s ∧
    Instance.get_total_pending_episodes env listdir directory s
      = (Val (Z.of_nat (sum_list_with
                          (λ file_path, match files s !! file_path with
                                        | Some (Some d) => length (pending_of d)
                                        | _ => 0%nat
                                        end) all_files),
              Z.of_nat (length all_files)), s1).
Proof.
  unfold Instance.get_total_pending_episodes, bind at 1.
  assert (Hscan : ∃ all_files s1,
            Instance.get_available_files env listdir true directory s = (Val all_files, s1)
            ∧ files s1 = files s).
  { unfold Instance.get_available_files, bind, fresh. simpl.
    destruct (listdir (tick s)); by eexists _, _. }
  destruct Hscan as (all_files & s1 & Hscan & Hfiles).
  exists all_files, s1. rewrite Hscan. split_and!; [done|done|].
  unfold bind, gets, ret. rewrite Hfiles. do 3 f_equal.
  enough (∀ total,
    foldl (λ total file_path, match files s !! file_path with
                              | Some (Some d) => Instance.count_pending_episodes total d
                              | _ => total
                              end) total all_files
    = total + Z.of_nat (sum_list_with
                          (λ file_path, match files s !! file_path with
                                        | Some (Some d) => length (pending_of d)
                                        | _ => 0%nat
                                        end) all_files)) as -> by lia.
  clear Hscan. induction all_files as [|f all_files IH]; intros total; simpl; [lia|].
  rewrite IH. destruct (files s !! f) as [[d|]|]; [|lia|lia].
  rewrite count_pending_episodes_length. lia.
Qed.

(** One file through [process_file] of v.py. *)
Lemma V_process_file_accounting (cfg : Config) (env : Env) (file_path : string)
    (s s' : State) (d : Data) :
  files s !! file_path = Some (Some d) →
  0 < V.batch_size cfg →
  V.process_file cfg env file_path s = (Val true, s') →
  ∃ d', files s' !! file_path = Some (Some d') ∧
        Z.of_nat (length (pending_of d')) = error_count s' - error_count s ∧
        Z.of_nat (length (pending_of d))
          = (processed_count s' - processed_count s) + (error_count s' - error_count s) ∧
        files_processed_count s' = files_processed_count s + 1 ∧
        (∀ g, g ≠ file_path → files s' !! g = files s !! g).
Proof.
  intros Hfile Hsize Hrun.
  rewrite (V_process_file_unfold cfg env file_path s d Hfile) in Hrun.
  assert (Hlen : length (pending (load d)) = length (pending_of d))
    by (by rewrite <- pending_load, length_fmap).
  destruct (pending (load d)) as [|r0 rest] eqn:Hpending.
  - injection Hrun as <-. exists d. simpl in *. rewrite <- Hlen.
    split_and!; try done; simpl; lia.
  - rewrite bool_decide_eq_false_2 in Hrun by lia.
    assert (Hnone : pending (load d) ≠ []) by (by rewrite Hpending).
    rewrite <- Hpending in *. clear Hpending.
    match type of Hrun with
    | match V.process_batches _ _ ?b ?t with _ => _ end = _ =>
        set (batches := b) in *; set (s0 := t) in *
    end.
    destruct (V.process_batches env file_path batches s0) as [[u|msg| |] s1] eqn:Hb;
      try done.
    injection Hrun as <-.
    destruct (waves_partitioned (pending (load d)) (V.batch_size cfg) Hsize) as [Hcat _].
    fold batches in Hcat.
    assert (Hseq : concat (anime (load d)) = seq 0 (length (concat d)))
      by apply (concat_number d 0).
    destruct (V_process_batches_accounting env file_path batches s0 u s1 Hb)
      as (Ha & Hh & Hpend & Hsum & Hfp & Hother & Hsync).
    { change (data s0) with (load d). rewrite Hseq. apply NoDup_seq. }
    { rewrite Hcat. unfold pending. apply NoDup_filter. rewrite Hseq. apply NoDup_seq. }
    { rewrite Hcat. change (data s0) with (load d). apply Forall_forall. intros r Hr.
      unfold pending in Hr. apply list_elem_of_filter in Hr as [Hun Hin].
      split_and!; [done| |done].
      rewrite Hseq in Hin. apply elem_of_seq in Hin. simpl. lia. }
    exists (dump (data s1)). simpl.
    change (data s0) with (load d) in *.
    change (error_count s0) with (error_count s) in *.
    change (processed_count s0) with (processed_count s) in *.
    change (files_processed_count s0) with (files_processed_count s) in *.
    rewrite Hcat in Hpend, Hsum.
    assert (Hin_range : Forall (λ r, (r < length (heap (data s1)))%nat)
                               (concat (anime (data s1)))).
    { rewrite Ha, Hh, Hseq. apply Forall_forall. intros r Hr.
      apply elem_of_seq in Hr. simpl. lia. }
    rewrite (pending_dump _ Hin_range).
    split_and!.
    + apply Hsync. intros Hnil. rewrite Hnil in Hcat. simpl in Hcat.
      rewrite <- Hcat in Hnone. done.
    + lia.
    + lia.
    + rewrite Hfp. lia.
    + intros g Hg. rewrite Hother by done. done.
Qed.

End accounting.

(** X20. The pre-scan of v.py and a run of [process_file]. (1) The pre-scan
    [get_total_pending_episodes] never raises, not even on a missing
    directory or a file it cannot read: it returns the number of files the
    scan offers and, summed over those it can read, the number of episodes
    without a truthy ['iframe_url']. (2) When [process_file] returns [True]
    on a file, with a positive batch size: the count the pre-scan would make
    for the file as it is then saved is the number of errors the instance
    counted over the call, the count has gone down by the number of episodes
    it counted as processed, one more file is counted as processed, and no
    other file is written. (3) The count of a file is the length of the list
    of pending episodes [process_file] gathers from it. *)
Theorem v_rescan_counts_the_errors (cfg : Runtime.Config) (env : Runtime.Env) :
  (∀ (listdir : nat → option (list string)) (directory : string) (s : Runtime.State),
     ∃ all_files s1,
       Instance.get_available_files env listdir true directory s = (Exec.Val all_files, s1) ∧
       Instance.get_total_pending_episodes env listdir directory s
         = (Exec.Val (foldr (λ file_path total,
                               match Runtime.files s !! file_path with
                               | Some (Some d) => Instance.count_pending_episodes 0 d + total
                               | _ => total
                               end) 0 all_files,
                      Z.of_nat (length all_files)), s1)) ∧
  (∀ (file_path : string) (s s' : Runtime.State) (d : Json.Data),
     Runtime.files s !! file_path = Some (Some d) →
     0 < V.batch_size cfg →
     V.process_file cfg env file_path s = (Exec.Val true, s') →
     ∃ d', Runtime.files s' !! file_path = Some (Some d') ∧
           Instance.count_pending_episodes 0 d'
             = Runtime.error_count s' - Runtime.error_count s ∧
           Instance.count_pending_episodes 0 d - Instance.count_pending_episodes 0 d'
             = Runtime.processed_count s' - Runtime.processed_count s ∧
           Runtime.files_processed_count s' = Runtime.files_processed_count s + 1 ∧
           (∀ g, g ≠ file_path → Runtime.files s' !! g = Runtime.files s !! g)) ∧
  (∀ d : Json.Data,
     Instance.count_pending_episodes 0 d
       = Z.of_nat (length (Json.pending (Json.load d)))).
Proof.
  split_and!.
  - intros listdir directory s.
    destruct (get_total_pending_episodes_spec env listdir directory s)
      as (all_files & s1 & Hscan & _ & Htotal).
    exists all_files, s1. split; [done|]. rewrite Htotal. do 3 f_equal.
    clear Hscan Htotal. induction all_files as [|f all_files IH]; [done|]. simpl.
    rewrite <- IH. destruct (Runtime.files s !! f) as [[d|]|]; [|lia|lia].
    rewrite count_pending_episodes_length. lia.
  - intros file_path s s' d Hfile Hsize Hrun.
    destruct (V_process_file_accounting cfg env file_path s s' d Hfile Hsize Hrun)
      as (d' & Hd' & Herr & Hsum & Hfp & Hother).
    exists d'. rewrite !count_pending_episodes_length. split_and!; try done; lia.
  - intros d. rewrite count_pending_episodes_length, <- pending_load, length_fmap. lia.
Qed.

(** Seven pending episodes and one page without player: six episodes are
    counted as processed, and a rescan of the saved file counts the one that
    is left. *)
Lemma v_rescan_counts_the_errors_witness :
  Instance.count_pending_episodes 0 demo_item = 7 ∧
  Runtime.processed_count
    (V.process_file demo_cfg_3 demo_env_mixed "anime_1.json" demo_state).2 = 6 ∧
  ∃ d', Runtime.files (V.process_file demo_cfg_3 demo_env_mixed "anime_1.json" demo_state).2
          !! "anime_1.json" = Some (Some d') ∧
        Instance.count_pending_episodes 0 d' = 1.
Proof.
  split; [by vm_compute|]. split; [by vm_compute|].
  destruct (proj1 (proj2 (v_rescan_counts_the_errors demo_cfg_3 demo_env_mixed))
              "anime_1.json" demo_state
              (V.process_file demo_cfg_3 demo_env_mixed "anime_1.json" demo_state).2
              demo_item)
    as (d' & Hd' & Herr & _).
  - by vm_compute.
  - by vm_compute.
  - by vm_compute.
  - exists d'. split; [exact Hd'|]. rewrite Herr. by vm_compute.
Defined.

(** ** Absolute urls *)

Section urls.
Import Path Url.
Variable urlparse : string → string * string.

(** An absolute url as [_make_absolute_url] sees it. *)
Definition absolute (u : string) : bool :=
  startswith "http://" u || startswith "https://" u.

Lemma startswith_app (p rest : string) : startswith p (p +:+ rest) = true.
Proof.
  unfold startswith. induction p as [|c p IH]; [by destruct rest|].
  simpl. destruct (ascii_dec c c); [exact IH|done].
Qed.

Lemma startswith_split (p s : string) :
  startswith p s = true → ∃ rest, s = p +:+ rest.
Proof.
  unfold startswith. revert s. induction p as [|c p IH]; intros s Hp; [by exists s|].
  destruct s as [|c' s]; [done|]. simpl in Hp.
  destruct (ascii_dec c c') as [<-|]; [|done].
  destruct (IH s Hp) as [rest ->]. by exists rest.
Qed.

Lemma startswith_app_l (p s rest : string) :
  startswith p s = true → startswith p (s +:+ rest) = true.
Proof.
  intros [mid ->]%startswith_split. rewrite string_app_assoc. apply startswith_app.
Qed.

Lemma v_make_absolute_url_fixed (base_url u : string) :
  bool_decide (u = "") || absolute u = true →
  v_make_absolute_url urlparse base_url (Some u) = Some u.
Proof.
  unfold v_make_absolute_url, absolute. intros H.
  destruct (bool_decide (u = "")); [done|]. simpl in H. by rewrite H.
Qed.

Lemma ser_make_absolute_url_fixed (base_url u : string) :
  bool_decide (u = "") || absolute u = true →
  ser_make_absolute_url urlparse base_url (Some u) = Some u.
Proof.
  unfold ser_make_absolute_url, absolute. intros H.
  destruct (bool_decide (u = "")); [done|]. simpl in H. by rewrite H.
Qed.

Lemma absolute_protocol_relative (u : string) :
  startswith "//" u = true → absolute ("https:" +:+ u) = true.
Proof.
  intros [rest ->]%startswith_split. unfold absolute.
  change ("https:" +:+ "//" +:+ rest) with ("https://" +:+ rest).
  rewrite (startswith_app "https://"). apply orb_true_r.
Qed.

Lemma absolute_with_scheme (scheme rest : string) :
  scheme = "http" ∨ scheme = "https" → absolute (scheme +:+ "://" +:+ rest) = true.
Proof.
  unfold absolute. intros [-> | ->].
  - change ("http" +:+ "://" +:+ rest) with ("http://" +:+ rest).
    by rewrite (startswith_app "http://").
  - change ("https" +:+ "://" +:+ rest) with ("https://" +:+ rest).
    rewrite (startswith_app "https://"). apply orb_true_r.
Qed.

Lemma absolute_app (u rest : string) : absolute u = true → absolute (u +:+ rest) = true.
Proof.
  unfold absolute. intros [H|H]%orb_true_iff.
  - by rewrite (startswith_app_l _ _ _ H).
  - rewrite (startswith_app_l _ _ _ H). apply orb_true_r.
Qed.

Lemma v_make_absolute_url_result (base_url : string) (relative_url : option string)
    (u : string) :
  (urlparse base_url).1 = "http" ∨ (urlparse base_url).1 = "https" →
  v_make_absolute_url urlparse base_url relative_url = Some u →
  bool_decide (u = "") || absolute u = true.
Proof.
  intros Hscheme. destruct relative_url as [r|]; [|done].
  unfold v_make_absolute_url. fold (absolute r).
  destruct (bool_decide (r = "")) eqn:Hempty; [by intros [= <-]; rewrite Hempty|].
  destruct (absolute r) eqn:Habs; [intros [= <-]; by rewrite Habs, orb_true_r|].
  destruct (startswith "//" r) eqn:Hproto.
  { intros [= <-]. by rewrite absolute_protocol_relative, orb_true_r. }
  destruct (startswith "/" r); intros [= <-];
    by rewrite absolute_with_scheme, orb_true_r.
Qed.

Lemma ser_make_absolute_url_result (base_url : string) (relative_url : option string)
    (u : string) :
  (urlparse base_url).1 = "http" ∨ (urlparse base_url).1 = "https" →
  absolute base_url = true →
  ser_make_absolute_url urlparse base_url relative_url = Some u →
  bool_decide (u = "") || absolute u = true.
Proof.
  intros Hscheme Hbase. destruct relative_url as [r|]; [|done].
  unfold ser_make_absolute_url. fold (absolute r).
  destruct (bool_decide (r = "")) eqn:Hempty; [by intros [= <-]; rewrite Hempty|].
  destruct (absolute r) eqn:Habs; [intros [= <-]; by rewrite Habs, orb_true_r|].
  destruct (startswith "//" r) eqn:Hproto.
  { intros [= <-]. by rewrite absolute_protocol_relative, orb_true_r. }
  destruct (startswith "/" r); intros [= <-].
  - by rewrite absolute_with_scheme, orb_true_r.
  - by rewrite absolute_app, orb_true_r.
Qed.

End urls.

(** X21. [_make_absolute_url] of v.py and of ser.py. (1) The two give the same
    result except on a url that is relative to the page (not empty, no
    scheme, no leading slash): there v.py resolves against the root of the
    site and ser.py appends to the url of the page, so they agree only when
    the url of the page is its scheme and netloc and nothing more. (2) When
    the page has an http or https url, a result is absolute or empty and the
    function leaves it as it is: applying it twice is applying it once. *)
Theorem make_absolute_url_variants
    (urlparse : string → string * string) (base_url : string)
    (relative_url : option string) :
  (Url.v_make_absolute_url urlparse base_url relative_url
     = Url.ser_make_absolute_url urlparse base_url relative_url
   ↔ ∀ u, relative_url = Some u → u ≠ "" → absolute u = false →
          Path.startswith "/" u = false →
          base_url = (urlparse base_url).1 +:+ "://" +:+ (urlparse base_url).2) ∧
  ((urlparse base_url).1 = "http" ∨ (urlparse base_url).1 = "https" →
   Url.v_make_absolute_url urlparse base_url
     (Url.v_make_absolute_url urlparse base_url relative_url)
   = Url.v_make_absolute_url urlparse base_url relative_url) ∧
  ((urlparse base_url).1 = "http" ∨ (urlparse base_url).1 = "https" →
   absolute base_url = true →
   Url.ser_make_absolute_url urlparse base_url
     (Url.ser_make_absolute_url urlparse base_url relative_url)
   = Url.ser_make_absolute_url urlparse base_url relative_url).
Proof.
  split_and!.
  - destruct relative_url as [u|]; [|done].
    assert (Hroot : Path.startswith "//" u = true → Path.startswith "/" u = true).
    { intros [rest ->]%startswith_split. reflexivity. }
    unfold Url.v_make_absolute_url, Url.ser_make_absolute_url. fold (absolute u).
    destruct (bool_decide (u = "")) eqn:Hempty.
    { apply bool_decide_eq_true in Hempty. split; [|done]. by intros _ u' [= <-] Hno. }
    apply bool_decide_eq_false in Hempty.
    destruct (absolute u) eqn:Habs.
    { split; [|done]. intros _ u' [= <-] _ Hno. congruence. }
    destruct (Path.startswith "//" u) eqn:Hproto.
    { split; [|done]. intros _ u' [= <-] _ _ Hno. rewrite Hroot in Hno; done. }
    destruct (Path.startswith "/" u) eqn:Hslash.
    { split; [|done]. intros _ u' [= <-] _ _ Hno. congruence. }
    split.
    + intros [= Heq] u' [= <-] _ _ _.
      rewrite <- !string_app_assoc in Heq.
      apply string_app_inj_r in Heq. apply string_app_inj_r in Heq.
      rewrite string_app_assoc in Heq. done.
    + intros Hbase. rewrite (Hbase u eq_refl Hempty Habs Hslash) at 3.
      by rewrite !string_app_assoc.
  - intros Hscheme.
    destruct (Url.v_make_absolute_url urlparse base_url relative_url) as [u|] eqn:Hv;
      [|done].
    apply v_make_absolute_url_fixed.
    by eapply v_make_absolute_url_result.
  - intros Hscheme Hbase.
    destruct (Url.ser_make_absolute_url urlparse base_url relative_url) as [u|] eqn:Hs;
      [|done].
    apply ser_make_absolute_url_fixed.
    by eapply ser_make_absolute_url_result.
Qed.

(** A player url relative to the page of an episode. *)
Lemma make_absolute_url_variants_witness :
  Url.v_make_absolute_url (λ _, ("https", "site")) "https://site/play/a/1" (Some "embed/1")
    = Some "https://site/embed/1" ∧
  Url.ser_make_absolute_url (λ _, ("https", "site")) "https://site/play/a/1" (Some "embed/1")
    = Some "https://site/play/a/1/embed/1" ∧
  Url.ser_make_absolute_url (λ _, ("https", "site")) "https://site/play/a/1"
    (Some "https://site/play/a/1/embed/1")
    = Some "https://site/play/a/1/embed/1".
Proof.
  split; [reflexivity|]. split; [reflexivity|].
  destruct (make_absolute_url_variants (λ _, ("https", "site")) "https://site/play/a/1"
              (Some "embed/1")) as (_ & _ & Hser).
  apply Hser; [by right|reflexivity].
Defined.

(** ** The workers of allanime.py and their locks *)

Section workers.
Import Allanime Workers.
Variable listing : list string.
Variable instance_id : nat → string.

(** The locks and the workers agree: a worker inside [process_file] holds
    the lock of its file, no two workers are on the same file, every lock
    that was not there at the start belongs to a worker, and the locks that
    were there at the start are as they were. *)
Definition exclusive (stale : gmap string string) (s : System) : Prop :=
  (∀ i f, workers s !! i = Some (Working f) →
          locked_files (coordination (shared s)) !! f = Some (instance_id i)
          ∧ stale !! f = None) ∧
  (∀ i j f, workers s !! i = Some (Working f) → workers s !! j = Some (Working f) → i = j) ∧
  (∀ f, stale !! f = None → is_Some (locked_files (coordination (shared s)) !! f) →
        ∃ i, workers s !! i = Some (Working f)) ∧
  (∀ f, is_Some (stale !! f) → locked_files (coordination (shared s)) !! f = stale !! f).

Lemma take_file_exclusive (stale : gmap string string) (i : nat) (idle st : Worker)
    (s : System) :
  workers s !! i = Some st → (∀ f, st ≠ Working f) → (∀ f, idle ≠ Working f) →
  exclusive stale s → exclusive stale (take_file listing instance_id i idle s).
Proof.
  intros Hi Hst Hidle (J1 & J2 & J3 & J4).
  assert (Hlt : (i < length (workers s))%nat) by by eapply lookup_lt_Some.
  unfold take_file.
  destruct (get_available_work listing (shared s)) as [|filename others] eqn:Hget.
  - split_and!; simpl.
    + intros j f Hj. destruct (decide (j = i)) as [->|Hne].
      * rewrite list_lookup_insert_eq in Hj by done. injection Hj as ->. by destruct (Hidle f).
      * rewrite list_lookup_insert_ne in Hj by done. by apply J1.
    + intros j k f Hj Hk.
      destruct (decide (j = i)) as [->|Hj'].
      { rewrite list_lookup_insert_eq in Hj by done. injection Hj as ->. by destruct (Hidle f). }
      destruct (decide (k = i)) as [->|Hk'].
      { rewrite list_lookup_insert_eq in Hk by done. injection Hk as ->. by destruct (Hidle f). }
      rewrite list_lookup_insert_ne in Hj, Hk by done. by eapply J2.
    + intros f Hf Hl. destruct (J3 f Hf Hl) as [j Hj]. exists j.
      rewrite list_lookup_insert_ne; [done|]. intros <-. rewrite Hi in Hj.
      injection Hj as ->. by destruct (Hst f).
    + exact J4.
  - destruct (get_available_work_head listing (shared s) filename others Hget) as [_ Hwork].
    unfold has_work in Hwork. apply andb_true_iff in Hwork as [Hwork _].
    apply andb_true_iff in Hwork as [_ Hfree]. apply bool_decide_eq_true in Hfree.
    split_and!; simpl.
    + intros j f Hj. destruct (decide (j = i)) as [->|Hne].
      * rewrite list_lookup_insert_eq in Hj by done. injection Hj as <-.
        rewrite lookup_insert_eq. split; [done|].
        destruct (stale !! filename) as [holder|] eqn:Hs; [|done].
        rewrite J4 in Hfree by by eexists. congruence.
      * rewrite list_lookup_insert_ne in Hj by done. destruct (J1 j f Hj) as [Hl Hs].
        split; [|done]. rewrite lookup_insert_ne; [done|]. intros <-. congruence.
    + intros j k f Hj Hk.
      destruct (decide (j = i)) as [->|Hj'], (decide (k = i)) as [->|Hk']; [done| | |].
      * rewrite list_lookup_insert_eq in Hj by done. injection Hj as <-.
        rewrite list_lookup_insert_ne in Hk by done.
        destruct (J1 k filename Hk) as [Hl _]. congruence.
      * rewrite list_lookup_insert_eq in Hk by done. injection Hk as <-.
        rewrite list_lookup_insert_ne in Hj by done.
        destruct (J1 j filename Hj) as [Hl _]. congruence.
      * rewrite list_lookup_insert_ne in Hj, Hk by done. by eapply J2.
    + intros f Hf Hl. destruct (decide (f = filename)) as [->|Hne].
      * exists i. by rewrite list_lookup_insert_eq.
      * rewrite lookup_insert_ne in Hl by done. destruct (J3 f Hf Hl) as [j Hj].
        exists j. rewrite list_lookup_insert_ne; [done|]. intros <-. rewrite Hi in Hj.
        injection Hj as ->. by destruct (Hst f).
    + intros f Hf. rewrite lookup_insert_ne; [by apply J4|]. intros <-.
      rewrite J4 in Hfree by done. rewrite Hfree in Hf. by destruct Hf.
Qed.

Lemma resume_exclusive (stale : gmap string string) (i : nat) (p : Progress) (s : System) :
  exclusive stale s → exclusive stale (resume listing instance_id i p s).
Proof.
  intros Hex. unfold resume.
  destruct (workers s !! i) as [[| |filename|]|] eqn:Hi; [| | |done|done].
  - by eapply take_file_exclusive.
  - by eapply take_file_exclusive.
  - destruct Hex as (J1 & J2 & J3 & J4).
    assert (Hlt : (i < length (workers s))%nat) by by eapply lookup_lt_Some.
    destruct p as [anime_id|entry|content|saved]; [by split_and!..|].
    assert (Hlocks : locked_files
                       (coordination
                          (set_coordination (unlock_file filename)
                             match saved with
                             | Some content =>
                                 set_index (insert (Path.join anime_index_folder filename)
                                                   (Some content)) (shared s)
                             | None => shared s
                             end))
                     = delete filename (locked_files (coordination (shared s))))
      by (by destruct saved).
    unfold exclusive. cbn [shared workers]. rewrite Hlocks. clear Hlocks.
    destruct (J1 i filename Hi) as [Hheld Hfresh].
    split_and!.
    + intros j f Hj. destruct (decide (j = i)) as [->|Hne].
      * by rewrite list_lookup_insert_eq in Hj.
      * rewrite list_lookup_insert_ne in Hj by done. destruct (J1 j f Hj) as [Hl Hs].
        split; [|done]. rewrite lookup_delete_ne; [done|]. intros <-.
        apply Hne. by eapply J2.
    + intros j k f Hj Hk.
      destruct (decide (j = i)) as [->|Hj']; [by rewrite list_lookup_insert_eq in Hj|].
      destruct (decide (k = i)) as [->|Hk']; [by rewrite list_lookup_insert_eq in Hk|].
      rewrite list_lookup_insert_ne in Hj, Hk by done. by eapply J2.
    + intros f Hf Hl. destruct (decide (f = filename)) as [->|Hne].
      * rewrite lookup_delete_eq in Hl. by destruct Hl.
      * rewrite lookup_delete_ne in Hl by done. destruct (J3 f Hf Hl) as [j Hj].
        exists j. rewrite list_lookup_insert_ne; [done|]. intros <-. congruence.
    + intros f Hf. rewrite lookup_delete_ne; [by apply J4|]. intros <-.
      rewrite Hfresh in Hf. by destruct Hf.
Qed.

Lemma run_exclusive (stale : gmap string string) (schedule : list (nat * Progress))
    (s : System) :
  exclusive stale s → exclusive stale (run listing instance_id schedule s).
Proof.
  revert s. induction schedule as [|turn schedule IH]; intros s Hex; [done|].
  apply IH. by apply resume_exclusive.
Qed.

Lemma start_exclusive (num_instances : nat) (w : World) :
  exclusive (locked_files (coordination w)) (start instance_id num_instances w).
Proof.
  split_and!; simpl.
  - intros i f Hi. apply lookup_replicate in Hi as [? _]. done.
  - intros i j f Hi. apply lookup_replicate in Hi as [? _]. done.
  - intros f Hf Hl. rewrite Hf in Hl. by destruct Hl.
  - done.
Qed.

End workers.

(** X22. The workers of allanime.py, resumed by the event loop in any order:
    a worker inside [process_file] holds the lock of its file under its own
    id; no two workers are inside [process_file] on the same file; a lock
    that was not in the coordination file at the start belongs to a worker
    that is inside [process_file], so no lock is left behind; a lock that was
    in the coordination file at the start is never removed, and its file is
    never offered by [get_available_work]. *)
Theorem allanime_workers_exclusive
    (listing : list string) (instance_id : nat → string) (num_instances : nat)
    (w : Allanime.World) (schedule : list (nat * Workers.Progress)) :
  let s := Workers.run listing instance_id schedule
             (Workers.start instance_id num_instances w) in
  let locks := Allanime.locked_files (Allanime.coordination (Workers.shared s)) in
  let stale := Allanime.locked_files (Allanime.coordination w) in
  (∀ i f, Workers.workers s !! i = Some (Workers.Working f) →
          locks !! f = Some (instance_id i)) ∧
  (∀ i j f, Workers.workers s !! i = Some (Workers.Working f) →
            Workers.workers s !! j = Some (Workers.Working f) → i = j) ∧
  (∀ f, is_Some (locks !! f) →
        is_Some (stale !! f) ∨ ∃ i, Workers.workers s !! i = Some (Workers.Working f)) ∧
  ((∀ i f, Workers.workers s !! i ≠ Some (Workers.Working f)) → locks = stale) ∧
  (∀ f, is_Some (stale !! f) →
        locks !! f = stale !! f ∧
        f ∉ Allanime.get_available_work listing (Workers.shared s)).
Proof.
  intros s locks stale.
  destruct (run_exclusive listing instance_id stale schedule
              (Workers.start instance_id num_instances w)
              (start_exclusive instance_id num_instances w)) as (J1 & J2 & J3 & J4).
  fold s in J1, J2, J3, J4. fold locks in J1, J3, J4.
  split_and!.
  - intros i f Hi. by destruct (J1 i f Hi).
  - exact J2.
  - intros f Hl. destruct (stale !! f) as [holder|] eqn:Hs; [left; by eexists|].
    right. by apply J3.
  - intros Hidle. apply map_eq. intros f.
    destruct (stale !! f) as [holder|] eqn:Hs.
    + rewrite <- Hs. apply J4. rewrite Hs. by eexists.
    + destruct (locks !! f) as [holder|] eqn:Hl; [|done].
      destruct (J3 f Hs) as [i Hi]; [by eexists|]. by destruct (Hidle i f).
  - intros f Hf. split; [by apply J4|].
    intros Hin. apply get_available_work_elem in Hin as [_ Hwork].
    unfold has_work in Hwork. apply andb_true_iff in Hwork as [Hwork _].
    apply andb_true_iff in Hwork as [_ Hfree]. apply bool_decide_eq_true in Hfree.
    fold locks in Hfree. rewrite J4 in Hfree by done. rewrite Hfree in Hf. by destruct Hf.
Qed.

(** Two workers and two index files: each worker takes one file. *)
Definition demo_instance_id (i : nat) : string :=
  match i with
  | O => "instance_1"
  | _ => "instance_2"
  end.

Definition demo_workers : Workers.System :=
  Workers.run ["anime_a.json"; "anime_b.json"] demo_instance_id
    [(0%nat, Workers.Returned None); (1%nat, Workers.Returned None)]
    (Workers.start demo_instance_id 2 demo_world_two).

Lemma allanime_workers_exclusive_witness :
  Workers.workers demo_workers
    = [Workers.Working "anime_a.json"; Workers.Working "anime_b.json"] ∧
  Allanime.locked_files (Allanime.coordination (Workers.shared demo_workers))
    !! "anime_a.json" = Some "instance_1" ∧
  Allanime.locked_files (Allanime.coordination (Workers.shared demo_workers))
    !! "anime_b.json" = Some "instance_2".
Proof.
  destruct (allanime_workers_exclusive ["anime_a.json"; "anime_b.json"] demo_instance_id 2
              demo_world_two
              [(0%nat, Workers.Returned None); (1%nat, Workers.Returned None)])
    as (Hheld & _).
  fold demo_workers in Hheld.
  assert (Hworkers : Workers.workers demo_workers
                     = [Workers.Working "anime_a.json"; Workers.Working "anime_b.json"])
    by (by vm_compute).
  split; [exact Hworkers|]. split.
  - apply (Hheld 0%nat). by rewrite Hworkers.
  - apply (Hheld 1%nat). by rewrite Hworkers.
Defined.
